(** * js-libp2p-webtransport: session authentication and stream-muxer emulation

    A shallow embedding of [src/utils.ts], [src/muxer.ts], the transport
    entry point ([parseMultiaddr], [dial], [authenticateWebTransport]),
    [src/listener.ts] and the server wrapper, followed by the properties
    established about them.

    Conventions.
    - A [Uint8Array] is a list of its elements (numbers 0..255, kept in [Z]).
    - A JavaScript [throw] / promise rejection is the [Throw] branch of
      [Result]; a function with side effects returns the next state.
    - Calls into the native WebTransport runtime and calls of the caller's
      callbacks are appended, in program order, to a list of [Effect]s.
    - [Date.now()] and the outcome of every awaited native promise are inputs
      of the step that observes them. *)

From stdpp Require Import base list strings gmap pretty.

Local Open Scope string_scope.
Local Open Scope list_scope.

(** ** Errors and results *)

Inductive Error :=
| Err (msg : string)                                   (* new Error(msg) *)
| AbortError                                           (* @libp2p/interfaces/errors *)
| UnexpectedComponent (proto : Z) (value : string)     (* default branch of parseMultiaddr *)
| External (who : string).                             (* rejection raised by a collaborator *)

Inductive Result (A : Type) :=
| Ok (a : A)
| Throw (e : Error).
Arguments Ok {A} a.
Arguments Throw {A} e.

Definition is_throw {A} (r : Result A) : bool :=
  match r with Throw _ => true | Ok _ => false end.

(** [x ?? d] on an optional value. *)
Definition nullish {A} (x : option A) (d : A) : A :=
  match x with Some a => a | None => d end.

(** ** src/utils.ts *)

Module Utils.

(** [Boolean(v)] for [v] an object or [undefined]: [Array.prototype.find]
    returns the matching [Uint8Array] (an object, hence truthy even when it
    is empty) or [undefined]. *)
Definition Boolean {A} (v : option A) : bool :=
  match v with Some _ => true | None => false end.

(** The [for (let index = 0; index < byteArray.length; index++)] loop of the
    [find] callback; [remaining] is [byteArray.length - index].  Reading a
    typed array out of range gives [undefined], here [None]. *)
Fixpoint scanBytes (byteArray otherByteArray : list Z) (index remaining : nat) : bool :=
  match remaining with
  | O => true
  | S remaining' =>
      if bool_decide (otherByteArray !! index = byteArray !! index)
      then scanBytes byteArray otherByteArray (S index) remaining'
      else false
  end.

(** The callback handed to [set.find]. *)
Definition sameBytes (byteArray otherByteArray : list Z) : bool :=
  if negb (length byteArray =? length otherByteArray)%nat then false
  else scanBytes byteArray otherByteArray 0 (length byteArray).

Definition isSubset (set maybeSubset : list (list Z)) : bool :=
  let intersection :=
    List.filter (fun byteArray => Boolean (List.find (sameBytes byteArray) set))
                maybeSubset in
  (length intersection =? length maybeSubset)%nat.

End Utils.

(** ** src/muxer.ts *)

Module Muxer.

Inductive Direction := inbound | outbound.

(** What the muxer does to its collaborators, in program order.  Native
    streams are named by a handle [h], managed streams by the reference [r]
    of the stream object.  [Spliced] and [StampedClose] record the two
    assignments of [cleanupStreamFromActiveStreams] at the moment they
    happen, [Spliced] together with the two closed flags as they are then. *)
Inductive Effect :=
| WritableClose (h : nat)               (* wtStream.writable.close() *)
| ReadableCancel (h : nat)              (* wtStream.readable.cancel() *)
| WriterAbort (h : nat)                 (* writer.abort() *)
| WriterClose (h : nat)                 (* writer.close() *)
| ReaderCancel (h : nat)                (* reader.cancel() *)
| WriterWrite (h : nat) (buf : list Z)  (* writer.write(buf) *)
| SessionClose                          (* wt.close() *)
| OnIncomingStream (r : nat)            (* init.onIncomingStream(stream) *)
| OnStreamEnd (r : nat)                 (* onStreamEnd(stream) *)
| Spliced (r : nat) (readerClosed writerClosed : bool)
| StampedClose (r : nat) (t : Z).

#[global] Instance Effect_eq_dec : EqDecision Effect.
Proof. solve_decision. Defined.

(** The stream object together with the variables its closures capture. *)
Record Stream := mkStream {
  id : string;
  stat_direction : Direction;
  timeline_open : Z;
  timeline_close : option Z;
  native : nat;
  writerClosed : bool;
  readerClosed : bool;
  sinkSunk : bool
}.

Definition set_timeline_close (t : Z) (c : Stream) : Stream :=
  mkStream (id c) (stat_direction c) (timeline_open c) (Some t) (native c)
           (writerClosed c) (readerClosed c) (sinkSunk c).
Definition set_writerClosed (c : Stream) : Stream :=
  mkStream (id c) (stat_direction c) (timeline_open c) (timeline_close c) (native c)
           true (readerClosed c) (sinkSunk c).
Definition set_readerClosed (c : Stream) : Stream :=
  mkStream (id c) (stat_direction c) (timeline_open c) (timeline_close c) (native c)
           (writerClosed c) true (sinkSunk c).
Definition set_sinkSunk (c : Stream) : Stream :=
  mkStream (id c) (stat_direction c) (timeline_open c) (timeline_close c) (native c)
           (writerClosed c) (readerClosed c) true.
(** [WebTransportMuxerInit] and the fields of [StreamMuxerInit] that the
    muxer reads; a callback is known by whether it was supplied. *)
Record WebTransportMuxerInit := { maxInboundStreams : Z }.

#[global] Instance WebTransportMuxerInit_eq_dec : EqDecision WebTransportMuxerInit.
Proof. solve_decision. Defined.

Record StreamMuxerInit := {
  onIncomingStream : bool;
  onStreamEnd : bool;
  direction : option Direction;
  signal : option bool          (* init.signal, and its [aborted] *)
}.

(** The inbound task started by [createStreamMuxer]. *)
Inductive LoopState :=
| LoopNotStarted
| LoopReading                   (* scheduled, or suspended in reader.read() *)
| LoopWrapping (r : nat)        (* suspended in await webtransportBiDiStreamToStream *)
| LoopEnded.                    (* left by break, or rejected *)

#[global] Instance LoopState_eq_dec : EqDecision LoopState.
Proof. solve_decision. Defined.

(** One muxer: [streamIDCounter] of the factory, the stream objects
    allocated so far, [activeStreams], the [newStream] calls suspended
    between wrapping and [push], and the effects so far. *)
Record State := mkState {
  streamIDCounter : nat;
  nextRef : nat;
  streams : gmap nat Stream;
  activeStreams : list nat;
  loop : LoopState;
  pendingNew : list nat;
  effects : list Effect
}.

Definition emit (es : list Effect) (s : State) : State :=
  mkState (streamIDCounter s) (nextRef s) (streams s) (activeStreams s)
          (loop s) (pendingNew s) (effects s ++ es).
Definition upd (r : nat) (f : Stream -> Stream) (s : State) : State :=
  mkState (streamIDCounter s) (nextRef s) (alter f r (streams s)) (activeStreams s)
          (loop s) (pendingNew s) (effects s).
Definition set_activeStreams (l : list nat) (s : State) : State :=
  mkState (streamIDCounter s) (nextRef s) (streams s) l
          (loop s) (pendingNew s) (effects s).
Definition set_loop (l : LoopState) (s : State) : State :=
  mkState (streamIDCounter s) (nextRef s) (streams s) (activeStreams s)
          l (pendingNew s) (effects s).
Definition set_pendingNew (l : list nat) (s : State) : State :=
  mkState (streamIDCounter s) (nextRef s) (streams s) (activeStreams s)
          (loop s) l (effects s).

Definition flag (f : Stream -> bool) (r : nat) (s : State) : bool :=
  match streams s !! r with Some c => f c | None => false end.
Definition nativeOf (r : nat) (s : State) : nat :=
  match streams s !! r with Some c => native c | None => 0 end.

(** [activeStreams.findIndex(s => s === stream)]; [None] stands for -1. *)
Fixpoint findIndex (r : nat) (l : list nat) : option nat :=
  match l with
  | [] => None
  | x :: l' => if bool_decide (x = r) then Some 0 else S <$> findIndex r l'
  end.

Section WithInit.
Variable config : WebTransportMuxerInit.
Variable init : option StreamMuxerInit.

Definition has_onStreamEnd : bool :=
  match init with Some i => onStreamEnd i | None => false end.
Definition has_onIncomingStream : bool :=
  match init with Some i => onIncomingStream i | None => false end.
Definition aborted : bool :=
  match init with
  | Some i => match signal i with Some a => a | None => false end
  | None => false
  end.

Definition cleanupStreamFromActiveStreams (r : nat) (now : Z) (s : State) : State :=
  match findIndex r (activeStreams s) with
  | None => s
  | Some index =>
      let s1 := emit [Spliced r (flag readerClosed r s) (flag writerClosed r s)]
                     (set_activeStreams (delete index (activeStreams s)) s) in
      let s2 := emit [StampedClose r now] (upd r (set_timeline_close now) s1) in
      if has_onStreamEnd then emit [OnStreamEnd r] s2 else s2
  end.

Definition closeRead (r : nat) (now : Z) (s : State) : State :=
  let s1 := if negb (flag readerClosed r s)
            then upd r set_readerClosed (emit [ReaderCancel (nativeOf r s)] s)
            else s in
  if flag writerClosed r s1 then cleanupStreamFromActiveStreams r now s1 else s1.

Definition closeWrite (r : nat) (now : Z) (s : State) : State :=
  let s1 := if negb (flag writerClosed r s)
            then emit [WriterClose (nativeOf r s)] (upd r set_writerClosed s)
            else s in
  if flag readerClosed r s1 then cleanupStreamFromActiveStreams r now s1 else s1.

Definition abort (r : nat) (now : Z) (s : State) : State :=
  let s1 := if negb (flag writerClosed r s)
            then upd r set_writerClosed (emit [WriterAbort (nativeOf r s)] s)
            else s in
  let s2 := closeRead r now s1 in
  let s3 := upd r set_readerClosed s2 in
  cleanupStreamFromActiveStreams r now s3.

Definition close (r : nat) (now : Z) (s : State) : State :=
  cleanupStreamFromActiveStreams r now (closeWrite r now (closeRead r now s)).

Definition reset (r : nat) (now : Z) (s : State) : State := close r now s.

(** The two tasks that wait for [writer.closed] and [reader.closed]. *)
Definition onWriterClosed (r : nat) (now : Z) (s : State) : State :=
  let s1 := upd r set_writerClosed s in
  if flag writerClosed r s1 && flag readerClosed r s1
  then cleanupStreamFromActiveStreams r now s1 else s1.

Definition onReaderClosed (r : nat) (now : Z) (s : State) : State :=
  let s1 := upd r set_readerClosed s in
  if flag writerClosed r s1 && flag readerClosed r s1
  then cleanupStreamFromActiveStreams r now s1 else s1.

(** The [catch] handlers of [reader.cancel()] and [writer.close()];
    [isReset] is [err.toString().includes('RESET_STREAM')]. *)
Definition onCancelRejected (r : nat) (isReset : bool) (s : State) : State :=
  if isReset then upd r set_writerClosed s else s.
Definition onCloseRejected (r : nat) (isReset : bool) (s : State) : State :=
  if isReset then upd r set_readerClosed s else s.

(** [source]: the step of the generator in which [reader.read()] resolves
    with [done]; the generator returns there, so the step runs at most once. *)
Definition sourceEnd (r : nat) (now : Z) (s : State) : State :=
  let s1 := upd r set_readerClosed s in
  if flag writerClosed r s1 then cleanupStreamFromActiveStreams r now s1 else s1.

(** *** Wrapping a native stream *)

(** [webtransportBiDiStreamToStream], after [await writer.ready]: a new
    stream object with both flags false. *)
Definition webtransportBiDiStreamToStream
    (h : nat) (streamId : string) (dir : Direction) (now : Z) (s : State) : nat * State :=
  let r := nextRef s in
  (r, mkState (streamIDCounter s) (S r)
              (<[r := mkStream streamId dir now None h false false false]> (streams s))
              (activeStreams s) (loop s) (pendingNew s) (effects s)).

(** [streamIDCounter++] *)
Definition bump (s : State) : State :=
  mkState (S (streamIDCounter s)) (nextRef s) (streams s) (activeStreams s)
          (loop s) (pendingNew s) (effects s).

(** [newStream] up to the end of [await webtransportBiDiStreamToStream];
    [readyOk] tells whether [writer.ready] resolved. *)
Definition newStream_wrap (h : nat) (readyOk : bool) (now : Z) (s : State)
    : Result nat * State :=
  let streamId := pretty (streamIDCounter s) in
  let s1 := bump s in
  if readyOk then
    let dir := match init with
               | Some i => nullish (direction i) outbound
               | None => outbound
               end in
    let '(r, s2) := webtransportBiDiStreamToStream h streamId dir now s1 in
    (Ok r, set_pendingNew (pendingNew s2 ++ [r]) s2)
  else (Throw (External "writer.ready"), s1).

(** [activeStreams.push(stream); return stream] *)
Definition newStream_push (r : nat) (s : State) : State :=
  set_activeStreams (activeStreams s ++ [r])
    (set_pendingNew (List.filter (fun x => negb (x =? r)%nat) (pendingNew s)) s).

(** [newStream] when nothing else runs while it is suspended. *)
Definition newStream (h : nat) (readyOk : bool) (now : Z) (s : State)
    : Result nat * State :=
  match newStream_wrap h readyOk now s with
  | (Ok r, s1) => (Ok r, newStream_push r s1)
  | (Throw e, s1) => (Throw e, s1)
  end.

(** *** The inbound loop *)

Inductive ReadResult :=
| ReadDone                    (* { done: true } *)
| ReadUndefined               (* value == null *)
| ReadStream (h : nat).

(** [activeStreams.length >= config.maxInboundStreams] *)
Definition atLimit (s : State) : bool :=
  (maxInboundStreams config <=? Z.of_nat (length (activeStreams s)))%Z.

(** One iteration, from the result of [reader.read()] to the next
    suspension. *)
Definition inbound_read (v : ReadResult) (readyOk : bool) (now : Z) (s : State) : State :=
  match v with
  | ReadDone => set_loop LoopEnded s
  | ReadUndefined => set_loop LoopEnded s
  | ReadStream h =>
      if atLimit s then emit [WritableClose h; ReadableCancel h] s
      else
        let streamId := pretty (streamIDCounter s) in
        let s1 := bump s in
        if readyOk then
          let '(r, s2) := webtransportBiDiStreamToStream h streamId inbound now s1 in
          set_loop (LoopWrapping r) s2
        else set_loop LoopEnded s1
  end.

(** [activeStreams.push(stream); init?.onIncomingStream?.(stream)] *)
Definition inbound_push (r : nat) (s : State) : State :=
  let s1 := set_activeStreams (activeStreams s ++ [r]) s in
  let s2 := if has_onIncomingStream then emit [OnIncomingStream r] s1 else s1 in
  set_loop LoopReading s2.

(** One iteration when nothing else runs while it is suspended. *)
Definition inbound_iteration (v : ReadResult) (readyOk : bool) (now : Z) (s : State) : State :=
  let s1 := inbound_read v readyOk now s in
  match loop s1 with
  | LoopWrapping r => inbound_push r s1
  | _ => s1
  end.

(** The loop over the native streams [hs] as they arrive, every writer
    becoming ready. *)
Fixpoint inbound_iterations (hs : list nat) (now : Z) (s : State) : State :=
  match hs with
  | [] => s
  | h :: hs' => inbound_iterations hs' now (inbound_iteration (ReadStream h) true now s)
  end.

(** *** The factory *)

(** [createStreamMuxer(init)]: a fresh [activeStreams], the inbound task
    scheduled, the muxer object built, and only then the test of
    [init.signal.aborted].  [counter] is the factory's [streamIDCounter]. *)
Definition createStreamMuxer (counter : nat) : Result unit * State :=
  let s0 := mkState counter 0 ∅ [] LoopNotStarted [] [] in
  let s1 := set_loop LoopReading s0 in
  if aborted then (Throw AbortError, emit [SessionClose] s1)
  else (Ok tt, s1).

(** [muxer.close(err)] *)
Definition muxer_close (s : State) : State := emit [SessionClose] s.

(** *** sink *)

Inductive Chunk :=
| OfUint8Array (buf : list Z)
| OfUint8ArrayList (bufs : list (list Z)).

(** What the producer yields before it completes ([thrown = None]) or
    throws. *)
Record Source := { chunks : list Chunk; thrown : option Error }.

Definition bufsOf (c : Chunk) : list (list Z) :=
  match c with OfUint8Array b => [b] | OfUint8ArrayList bs => bs end.

(** [await writer.write(buf)]; the write number [n] of this stream rejects
    when [failAt = Some n]. *)
Definition write (r : nat) (buf : list Z) (n : nat) (failAt : option nat) (s : State)
    : Result unit * State :=
  let s1 := emit [WriterWrite (nativeOf r s) buf] s in
  if bool_decide (failAt = Some n) then (Throw (External "writer.write"), s1)
  else (Ok tt, s1).

Fixpoint writeBufs (r : nat) (bufs : list (list Z)) (n : nat) (failAt : option nat)
    (s : State) : Result nat * State :=
  match bufs with
  | [] => (Ok n, s)
  | b :: bs =>
      match write r b n failAt s with
      | (Ok _, s1) => writeBufs r bs (S n) failAt s1
      | (Throw e, s1) => (Throw e, s1)
      end
  end.

(** [for await (const chunks of source)] *)
Fixpoint consume (r : nat) (cs : list Chunk) (n : nat) (failAt : option nat)
    (s : State) : Result nat * State :=
  match cs with
  | [] => (Ok n, s)
  | c :: cs' =>
      match writeBufs r (bufsOf c) n failAt s with
      | (Ok n', s1) => consume r cs' n' failAt s1
      | (Throw e, s1) => (Throw e, s1)
      end
  end.

Definition sink_enter (r : nat) (s : State) : Result unit * State :=
  if flag sinkSunk r s then (Throw (Err "sink already called on stream"), s)
  else (Ok tt, upd r set_sinkSunk s).

(** [sink], when nothing else runs while it is suspended: a second call
    throws before anything else; the first consumes the source and closes the
    write half in its [finally]. *)
Definition sink (r : nat) (source : Source) (failAt : option nat) (now : Z) (s : State)
    : Result unit * State :=
  match sink_enter r s with
  | (Throw e, s1) => (Throw e, s1)
  | (Ok _, s1) =>
      let '(res, s2) := consume r (chunks source) 0 failAt s1 in
      let res' := match res with
                  | Throw e => Throw e
                  | Ok _ => match thrown source with
                            | Some e => Throw e
                            | None => Ok tt
                            end
                  end in
      (res', closeWrite r now s2)
  end.

(** *** Interleavings *)

(** The steps that run to completion between two suspensions. *)
Inductive Event :=
| EvNewStreamWrap (h : nat) (readyOk : bool) (now : Z)
| EvNewStreamPush (r : nat)
| EvInboundRead (v : ReadResult) (readyOk : bool) (now : Z)
| EvInboundPush
| EvAbort (r : nat) (now : Z)
| EvClose (r : nat) (now : Z)
| EvCloseRead (r : nat) (now : Z)
| EvCloseWrite (r : nat) (now : Z)
| EvReset (r : nat) (now : Z)
| EvSinkEnter (r : nat)
| EvSinkWrite (r : nat) (buf : list Z)
| EvSinkFinally (r : nat) (now : Z)          (* finally { stream.closeWrite() } *)
| EvSourceEnd (r : nat) (now : Z)
| EvWriterClosed (r : nat) (now : Z)
| EvReaderClosed (r : nat) (now : Z)
| EvCancelRejected (r : nat) (isReset : bool)
| EvCloseRejected (r : nat) (isReset : bool)
| EvMuxerClose.

Definition allocated (r : nat) (s : State) : bool :=
  bool_decide (is_Some (streams s !! r)).

(** The caller holds a stream once [newStream] returned it or the inbound
    loop pushed it. *)
Definition handedOut (r : nat) (s : State) : bool :=
  allocated r s
  && negb (bool_decide (r ∈ pendingNew s))
  && negb (bool_decide (loop s = LoopWrapping r)).

Definition guard (b : bool) (s : State) : option State :=
  if b then Some s else None.

(** [None]: the step cannot happen in this state. *)
Definition step (e : Event) (s : State) : option State :=
  match e with
  | EvNewStreamWrap h readyOk now => Some (snd (newStream_wrap h readyOk now s))
  | EvNewStreamPush r =>
      guard (bool_decide (r ∈ pendingNew s)) (newStream_push r s)
  | EvInboundRead v readyOk now =>
      guard (bool_decide (loop s = LoopReading)) (inbound_read v readyOk now s)
  | EvInboundPush =>
      match loop s with
      | LoopWrapping r => Some (inbound_push r s)
      | _ => None
      end
  | EvAbort r now => guard (handedOut r s) (abort r now s)
  | EvClose r now => guard (handedOut r s) (close r now s)
  | EvCloseRead r now => guard (handedOut r s) (closeRead r now s)
  | EvCloseWrite r now => guard (handedOut r s) (closeWrite r now s)
  | EvReset r now => guard (handedOut r s) (reset r now s)
  | EvSinkEnter r => guard (handedOut r s) (snd (sink_enter r s))
  | EvSinkWrite r buf => guard (handedOut r s) (emit [WriterWrite (nativeOf r s) buf] s)
  | EvSinkFinally r now => guard (handedOut r s) (closeWrite r now s)
  | EvSourceEnd r now => guard (handedOut r s) (sourceEnd r now s)
  | EvWriterClosed r now => guard (allocated r s) (onWriterClosed r now s)
  | EvReaderClosed r now => guard (allocated r s) (onReaderClosed r now s)
  | EvCancelRejected r isReset => guard (allocated r s) (onCancelRejected r isReset s)
  | EvCloseRejected r isReset => guard (allocated r s) (onCloseRejected r isReset s)
  | EvMuxerClose => Some (muxer_close s)
  end.

Fixpoint run (es : list Event) (s : State) : option State :=
  match es with
  | [] => Some s
  | e :: es' =>
      match step e s with
      | Some s' => run es' s'
      | None => None
      end
  end.

End WithInit.

End Muxer.


(** ** Shared types *)

Module Types.

(** [MultihashDigest] of multiformats: [bytes] is the whole multihash,
    [digest] the hash alone. *)
Record MultihashDigest := {
  code : Z;
  digest : list Z;
  bytes : list Z
}.

Record PeerId := { peerIdText : string }.

Record WebTransportCertificate := {
  privateKey : string;
  pem : string;
  hash : MultihashDigest;
  secret : string
}.

End Types.

(** ** The server wrapper around [Http3Server] *)

Module Server.

Record DefaultWebTransportServer := {
  listening : bool;
  sessionTimeout : Z          (* how long in ms to wait for an incoming session to be ready *)
}.

(** [constructor (init)] *)
Definition constructor : DefaultWebTransportServer :=
  {| listening := false; sessionTimeout := 1000 |}.

Definition createServer : DefaultWebTransportServer := constructor.

End Server.

(** ** src/listener.ts *)

Module Listener.
Import Types.

Record WebTransportListenerInit := {
  init_peerId : option PeerId;
  init_certificates : list WebTransportCertificate
}.

Record WebTransportListener := mkListener {
  certificates : list WebTransportCertificate;
  peerId : option PeerId;
  connections : list nat
}.

(** [createListener(options)]: [new WebTransportListener(options)] *)
Definition createListener (options : WebTransportListenerInit) : WebTransportListener :=
  mkListener (init_certificates options) (init_peerId options) [].

Inductive SessionEffect :=
| UpgradeInbound (muxerConfig : Muxer.WebTransportMuxerInit)
| AuthWriterClose
| Handler (conn : nat)                                  (* this.handler(connection) *)
| DispatchConnection (conn : nat)                       (* 'connection' event *)
| SessionCloseWith (closeCode : Z) (reason : string)    (* session.close({ closeCode, reason }) *)
| SessionClose.                                         (* session.close() *)

(** How the collaborators answer during one [onSession]: the first read of
    [incomingBidirectionalStreams] ([None] for [done]), the noise handshake
    and the upgrader. *)
Record SessionEnv := {
  firstRead : option nat;
  secureInbound : Result PeerId;
  upgradeInbound : Result nat;
  hasHandler : bool
}.

Definition message (e : Error) : string :=
  match e with
  | Err msg => msg
  | AbortError => "The operation was aborted"
  | UnexpectedComponent _ value => "unexpected component in multiaddr"
  | External who => who
  end.

(** The configuration [onSession] hands to [webtransportMuxer]. *)
Definition onSession_muxerConfig (l : WebTransportListener) : Muxer.WebTransportMuxerInit :=
  {| Muxer.maxInboundStreams := 1000 |}.

Definition onSession (l : WebTransportListener) (env : SessionEnv)
    : Result unit * WebTransportListener * list SessionEffect :=
  match firstRead env with
  | None => (Ok tt, l, [])
  | Some bidistream =>
      match secureInbound env with
      | Throw e => (Throw e, l, [])
      | Ok remotePeer =>
          match upgradeInbound env with
          | Ok connection =>
              (Ok tt,
               mkListener (certificates l) (peerId l) (connections l ++ [connection]),
               [UpgradeInbound (onSession_muxerConfig l); AuthWriterClose]
               ++ (if hasHandler env then [Handler connection] else [])
               ++ [DispatchConnection connection])
          | Throw err =>
              (Ok tt, l,
               [UpgradeInbound (onSession_muxerConfig l); SessionCloseWith 500 (message err)])
          end
      end
  end.

(** The ['session'] handler installed by [listen]:
    [this.onSession(session).catch(err => session.close())]. *)
Definition handleSession (l : WebTransportListener) (env : SessionEnv)
    : WebTransportListener * list SessionEffect :=
  match onSession l env with
  | (Ok _, l', es) => (l', es)
  | (Throw _, l', es) => (l', es ++ [SessionClose])
  end.

End Listener.

(** ** The transport: parseMultiaddr, dial, authenticateWebTransport *)

Module Transport.
Import Types.

(** [protocols(name).code] in the protocol table of @multiformats/multiaddr. *)
Definition ip4 : Z := 4.
Definition ip6 : Z := 41.
Definition dns4 : Z := 54.
Definition dns6 : Z := 55.
Definition udp : Z := 273.
Definition p2p : Z := 421.
Definition quic : Z := 460.
Definition webtransport : Z := 465.
Definition certhash : Z := 466.

Definition isHost (proto : Z) : bool :=
  bool_decide (proto = ip4) || bool_decide (proto = ip6)
  || bool_decide (proto = dns4) || bool_decide (proto = dns6).
Definition isMarker (proto : Z) : bool :=
  bool_decide (proto = quic) || bool_decide (proto = webtransport).

(** The accumulator of the [reduce] in [parseMultiaddr]. *)
Record ParseState := mkParseState {
  url : string;
  certhashes : list MultihashDigest;
  seenHost : bool;
  seenPort : bool;
  remotePeer : option PeerId
}.

Record Parsed := mkParsed {
  p_url : string;
  p_certhashes : list MultihashDigest;
  p_remotePeer : option PeerId
}.

(** What happens to the native session during one [dial]. *)
Inductive SessionEffect :=
| NewWebTransport (url : string) (serverCertificateHashes : list (list Z))
| CreateBidirectionalStream
| AuthWriterClose                       (* writer.close() of the authentication stream *)
| AuthReaderCancel                      (* reader.cancel() of the authentication stream *)
| UpgradeOutbound (muxerConfig : Muxer.WebTransportMuxerInit)
| WtClose.                              (* wt.close() *)

#[global] Instance SessionEffect_eq_dec : EqDecision SessionEffect.
Proof. solve_decision. Defined.

(** What becomes of the native session of a [dial]: the constructor
    [new WebTransport(url, ...)] throws (on a URL it does not take, such as
    the one of an [ip6] address, whose host is written without brackets), or
    it returns a session whose [ready] promise rejects or resolves. *)
Inductive SessionOutcome :=
| ConstructorThrows (e : Error)
| ReadyRejects (e : Error)
| Ready.

(** How the collaborators answer during one [dial]: the native session, the
    noise handshake ([remoteExtensions?.webtransportCerthashes]), the abort
    signal of the dial options and the upgrader. *)
Record DialEnv := {
  session : SessionOutcome;
  createBidirectionalStream : Result nat;
  writerReady : Result unit;
  secureOutbound : Result (option (list (list Z)));
  signalAborted : bool;
  upgradeOutbound : Result nat
}.

(** [const wt = new WebTransport(...); await wt.ready]: whether [dial] gets
    past these two lines, and the error it throws there if it does not. *)
Definition wtReady (env : DialEnv) : Result unit :=
  match session env with
  | Ready => Ok tt
  | ConstructorThrows e | ReadyRejects e => Throw e
  end.

Record WebTransportInit := {
  init_maxInboundStreams : option Z;
  init_certificates : option (list WebTransportCertificate)
}.

Record WebTransportConfig := {
  maxInboundStreams : Z;
  certificates : option (list WebTransportCertificate)
}.

Record WebTransportTransport := {
  components_peerId : option PeerId;
  config : WebTransportConfig
}.

(** [constructor (components, init = {})] *)
Definition constructor (peerId : option PeerId) (init : option WebTransportInit)
    : WebTransportTransport :=
  let init := nullish init {| init_maxInboundStreams := None; init_certificates := None |} in
  {| components_peerId := peerId;
     config := {| maxInboundStreams := nullish (init_maxInboundStreams init) 1000%Z;
                  certificates := init_certificates init |} |}.

(** [webTransport(init)(components)] *)
Definition webTransport (init : option WebTransportInit) (peerId : option PeerId)
    : WebTransportTransport :=
  constructor peerId init.

(** The configuration [dial] hands to [webtransportMuxer]: [this.config]. *)
Definition dial_muxerConfig (t : WebTransportTransport) : Muxer.WebTransportMuxerInit :=
  {| Muxer.maxInboundStreams := maxInboundStreams (config t) |}.

(** [createListener(options)] of the transport. *)
Definition createListener (t : WebTransportTransport) : Result Listener.WebTransportListener :=
  match certificates (config t) with
  | None => Throw (Err "WebTransport certificate is required")
  | Some [] => Throw (Err "WebTransport certificate is required")
  | Some certs =>
      Ok (Listener.createListener
            {| Listener.init_peerId := components_peerId t;
               Listener.init_certificates := certs |})
  end.

Section WithCodecs.
(** [digest.decode(multibaseDecoder.decode(s))] and [peerIdFromString(s)],
    [None] when they throw. *)
Variable decodeCerthashStr : string -> option MultihashDigest.
Variable peerIdFromString : string -> option PeerId.

(** The callback of [parts.reduce]: one [switch (proto)]. *)
Definition reducer (state : ParseState) (part : Z * option string) : Result ParseState :=
  let '(proto, value) := part in
  if isHost proto then
    if seenHost state || seenPort state
    then Throw (Err "Invalid multiaddr, saw host and already saw the host or port")
    else Ok (mkParseState (url state +:+ nullish value "") (certhashes state)
                          true (seenPort state) (remotePeer state))
  else if isMarker proto then
    if negb (seenHost state) || negb (seenPort state)
    then Throw (Err "Invalid multiaddr, Didn't see host and port, but saw quic/webtransport")
    else Ok state
  else if bool_decide (proto = udp) then
    if seenPort state
    then Throw (Err "Invalid multiaddr, saw port but already saw the port")
    else Ok (mkParseState (url state +:+ ":" +:+ nullish value "") (certhashes state)
                          (seenHost state) true (remotePeer state))
  else if bool_decide (proto = certhash) then
    if negb (seenHost state) || negb (seenPort state)
    then Throw (Err "Invalid multiaddr, saw the certhash before seeing the host and port")
    else
      match decodeCerthashStr (nullish value "") with
      | Some d => Ok (mkParseState (url state) (certhashes state ++ [d])
                                   (seenHost state) (seenPort state) (remotePeer state))
      | None => Throw (External "decodeCerthashStr")
      end
  else if bool_decide (proto = p2p) then
    match peerIdFromString (nullish value "") with
    | Some p => Ok (mkParseState (url state) (certhashes state)
                                 (seenHost state) (seenPort state) (Some p))
    | None => Throw (External "peerIdFromString")
    end
  else Throw (UnexpectedComponent proto (nullish value "")).

(** [parts.reduce(callback, state)], leaving at the first throw. *)
Fixpoint reduce (parts : list (Z * option string)) (state : ParseState) : Result ParseState :=
  match parts with
  | [] => Ok state
  | part :: parts' =>
      match reducer state part with
      | Ok state' => reduce parts' state'
      | Throw e => Throw e
      end
  end.

Definition initialState : ParseState := mkParseState "https://" [] false false None.

(** [parts] is [ma.stringTuples()]. *)
Definition parseMultiaddr (parts : list (Z * option string)) : Result Parsed :=
  match reduce parts initialState with
  | Ok st => Ok (mkParsed (url st) (certhashes st) (remotePeer st))
  | Throw e => Throw e
  end.

Definition notSubsetError : Error :=
  Err "Our certhashes are not a subset of the remote's reported certhashes".

Definition authenticateWebTransport (env : DialEnv) (certhashes : list MultihashDigest)
    : Result bool * list SessionEffect :=
  match createBidirectionalStream env with
  | Throw e => (Throw e, [CreateBidirectionalStream])
  | Ok _ =>
      match writerReady env with
      | Throw e => (Throw e, [CreateBidirectionalStream])
      | Ok _ =>
          match secureOutbound env with
          | Throw e => (Throw e, [CreateBidirectionalStream])
          | Ok remoteExtensions =>
              let done := [CreateBidirectionalStream; AuthWriterClose; AuthReaderCancel] in
              if negb (Utils.isSubset (nullish remoteExtensions []) (bytes <$> certhashes))
              then (Throw notSubsetError, done)
              else (Ok true, done)
          end
      end
  end.

(** The body of the [try] block of [dial]. *)
Definition dial_try (t : WebTransportTransport) (env : DialEnv)
    (certhashes : list MultihashDigest) : Result nat * list SessionEffect :=
  match authenticateWebTransport env certhashes with
  | (Throw e, es) => (Throw e, es)
  | (Ok false, es) => (Throw (Err "Failed to authenticate webtransport"), es)
  | (Ok true, es) =>
      if signalAborted env then (Throw AbortError, es ++ [WtClose])
      else (upgradeOutbound env, es ++ [UpgradeOutbound (dial_muxerConfig t)])
  end.

Definition dial (t : WebTransportTransport) (parts : list (Z * option string)) (env : DialEnv)
    : Result nat * list SessionEffect :=
  match components_peerId t with
  | None => (Throw (Err "Need a local peerid"), [])
  | Some localPeer =>
      match parseMultiaddr parts with
      | Throw e => (Throw e, [])
      | Ok p =>
          let opened :=
            [NewWebTransport (p_url p +:+ "/.well-known/libp2p-webtransport?type=noise")
                             (digest <$> p_certhashes p)] in
          match session env with
          | ConstructorThrows e => (Throw e, opened)
          | ReadyRejects e => (Throw e, opened)
          | Ready =>
              match dial_try t env (p_certhashes p) with
              | (Ok conn, es) => (Ok conn, opened ++ es)
              | (Throw err, es) => (Throw err, opened ++ es ++ [WtClose])
              end
          end
      end
  end.

End WithCodecs.

End Transport.


(** * The statements to be compared with the code *)

Module Spec.
Import Types.

(** Exact byte equality of two arrays, as the specification words it: the
    same length and the same byte at every index. *)
Definition byteEqual (a b : list Z) : Prop :=
  length a = length b ∧ ∀ i, (i < length a)%nat → a !! i = b !! i.

(** *** Multiaddr parsing *)

Definition recognized (proto : Z) : bool :=
  Transport.isHost proto || Transport.isMarker proto
  || bool_decide (proto = Transport.udp) || bool_decide (proto = Transport.certhash)
  || bool_decide (proto = Transport.p2p).

(** The outcome of the five [case] groups of the [switch] on a code. *)
Definition tests (proto : Z) : bool * bool * bool * bool * bool :=
  (Transport.isHost proto, Transport.isMarker proto, bool_decide (proto = Transport.udp),
   bool_decide (proto = Transport.certhash), bool_decide (proto = Transport.p2p)).

(** The three reasons for rejection the specification lists, read off the
    components from left to right; [host] and [port] tell whether a host,
    respectively a port component came earlier. *)
Fixpoint listedRejection (host port : bool) (parts : list (Z * option string)) : bool :=
  match parts with
  | [] => false
  | (proto, _) :: parts' =>
      ((bool_decide (proto = Transport.certhash) || Transport.isMarker proto)
         && negb (host && port))
      || (bool_decide (proto = Transport.udp) && port)
      || negb (recognized proto)
      || listedRejection (host || Transport.isHost proto)
                         (port || bool_decide (proto = Transport.udp)) parts'
  end.

Section WithCodecs.
Variable decodeCerthashStr : string -> option MultihashDigest.
Variable peerIdFromString : string -> option PeerId.

(** The listed reasons together with the two the code adds: a host
    component after a host or a port, and a value that does not decode. *)
Fixpoint rejection (host port : bool) (parts : list (Z * option string)) : bool :=
  match parts with
  | [] => false
  | (proto, value) :: parts' =>
      ((bool_decide (proto = Transport.certhash) || Transport.isMarker proto)
         && negb (host && port))
      || (bool_decide (proto = Transport.udp) && port)
      || negb (recognized proto)
      || (Transport.isHost proto && (host || port))
      || (bool_decide (proto = Transport.certhash)
            && bool_decide (decodeCerthashStr (nullish value "") = None))
      || (bool_decide (proto = Transport.p2p)
            && bool_decide (peerIdFromString (nullish value "") = None))
      || rejection (host || Transport.isHost proto)
                   (port || bool_decide (proto = Transport.udp)) parts'
  end.

(** What a component contributes to the URL, to the digests and to the peer
    identity. *)
Definition urlPiece (part : Z * option string) : string :=
  if Transport.isHost (fst part) then nullish (snd part) ""
  else if bool_decide (fst part = Transport.udp) then ":" +:+ nullish (snd part) ""
  else "".

Definition digestOf (part : Z * option string) : option MultihashDigest :=
  if bool_decide (fst part = Transport.certhash)
  then decodeCerthashStr (nullish (snd part) "") else None.

Definition peerOf (part : Z * option string) : option PeerId :=
  if bool_decide (fst part = Transport.p2p)
  then peerIdFromString (nullish (snd part) "") else None.

Definition derivedUrl (parts : list (Z * option string)) : string :=
  "https://" +:+ foldr String.append "" (urlPiece <$> parts).
Definition digestsInOrder (parts : list (Z * option string)) : list MultihashDigest :=
  omap digestOf parts.
Definition peerIdentity (parts : list (Z * option string)) : option PeerId :=
  last (omap peerOf parts).

End WithCodecs.

(** *** Stream bookkeeping *)

Definition countIf (p : Muxer.Effect → bool) (es : list Muxer.Effect) : nat :=
  length (List.filter p es).

Definition isSpliced (r : nat) (e : Muxer.Effect) : bool :=
  match e with Muxer.Spliced r' _ _ => (r' =? r)%nat | _ => false end.
Definition isStamped (r : nat) (e : Muxer.Effect) : bool :=
  match e with Muxer.StampedClose r' _ => (r' =? r)%nat | _ => false end.
Definition isEnded (r : nat) (e : Muxer.Effect) : bool :=
  match e with Muxer.OnStreamEnd r' => (r' =? r)%nat | _ => false end.

(** How often stream [r] was removed from the active set, stamped, and
    reported to the stream-end observer. *)
Definition removals (r : nat) (s : Muxer.State) : nat := countIf (isSpliced r) (Muxer.effects s).
Definition stamps (r : nat) (s : Muxer.State) : nat := countIf (isStamped r) (Muxer.effects s).
Definition notifications (r : nat) (s : Muxer.State) : nat := countIf (isEnded r) (Muxer.effects s).

(** The calls that close the read half, respectively the write half, of
    stream [r]: closeRead and source end-of-stream; closeWrite and sink
    completion; close, abort and reset close both. *)
Definition closesRead (r : nat) (e : Muxer.Event) : bool :=
  match e with
  | Muxer.EvCloseRead r' _ | Muxer.EvSourceEnd r' _
  | Muxer.EvClose r' _ | Muxer.EvAbort r' _ | Muxer.EvReset r' _ => (r' =? r)%nat
  | _ => false
  end.
Definition closesWrite (r : nat) (e : Muxer.Event) : bool :=
  match e with
  | Muxer.EvCloseWrite r' _ | Muxer.EvSinkFinally r' _
  | Muxer.EvClose r' _ | Muxer.EvAbort r' _ | Muxer.EvReset r' _ => (r' =? r)%nat
  | _ => false
  end.
Definition bothHalvesClosed (r : nat) (es : list Muxer.Event) : bool :=
  existsb (closesRead r) es && existsb (closesWrite r) es.

(** The references that are in the active set or on their way into it. *)
Definition wrapping (s : Muxer.State) : list nat :=
  match Muxer.loop s with Muxer.LoopWrapping r => [r] | _ => [] end.
Definition live (s : Muxer.State) : list nat :=
  Muxer.activeStreams s ++ Muxer.pendingNew s ++ wrapping s.
Definition occ (r : nat) (l : list nat) : nat :=
  length (List.filter (Nat.eqb r) l).

(** In the effect list every removal is followed at once by its stamp and,
    when an observer was given, by its notification. *)
Definition adjacent (init : option Muxer.StreamMuxerInit) (es : list Muxer.Effect) : Prop :=
  ∀ i r rc wc, es !! i = Some (Muxer.Spliced r rc wc) →
    (∃ t, es !! S i = Some (Muxer.StampedClose r t))
    ∧ (Muxer.has_onStreamEnd init = true → es !! S (S i) = Some (Muxer.OnStreamEnd r)).

(** What holds of every state a muxer reaches: a stream object is in
    exactly one of two conditions, on its way into or inside the active set
    (once), or removed (once); a removal happens with both flags set; each
    removal is stamped and reported once. *)
Record Inv (init : option Muxer.StreamMuxerInit) (s : Muxer.State) : Prop := mkInv {
  inv_once : ∀ r, (r < Muxer.nextRef s)%nat → (occ r (live s) + removals r s = 1)%nat;
  inv_fresh : ∀ r, (Muxer.nextRef s ≤ r)%nat →
      occ r (live s) = 0%nat ∧ removals r s = 0%nat ∧ Muxer.streams s !! r = None;
  inv_alloc : ∀ r, (r < Muxer.nextRef s)%nat → is_Some (Muxer.streams s !! r);
  inv_flags : ∀ r rc wc,
      Muxer.Spliced r rc wc ∈ Muxer.effects s → rc = true ∧ wc = true;
  inv_stamps : ∀ r, stamps r s = removals r s;
  inv_notes : ∀ r,
      notifications r s = if Muxer.has_onStreamEnd init then removals r s else 0%nat;
  inv_close : ∀ r c, Muxer.streams s !! r = Some c →
      (Muxer.timeline_close c = None ↔ removals r s = 0%nat);
  inv_adjacent : adjacent init (Muxer.effects s)
}.

(** What an operation on a stream leaves alone: allocation, the loop, the
    suspended [newStream] calls; flags are only ever set, and the active set
    only shrinks. *)
Record Ext (s s' : Muxer.State) : Prop := mkExt {
  ext_next : Muxer.nextRef s' = Muxer.nextRef s;
  ext_dom : ∀ r, is_Some (Muxer.streams s' !! r) ↔ is_Some (Muxer.streams s !! r);
  ext_loop : Muxer.loop s' = Muxer.loop s;
  ext_pending : Muxer.pendingNew s' = Muxer.pendingNew s;
  ext_reader : ∀ r, Muxer.flag Muxer.readerClosed r s = true →
      Muxer.flag Muxer.readerClosed r s' = true;
  ext_writer : ∀ r, Muxer.flag Muxer.writerClosed r s = true →
      Muxer.flag Muxer.writerClosed r s' = true;
  ext_active : ∀ r, r ∈ Muxer.activeStreams s' → r ∈ Muxer.activeStreams s
}.

(** What every step keeps of a stream [r] the caller holds. *)
Definition Keeps (r : nat) (s s' : Muxer.State) : Prop :=
  (Muxer.flag Muxer.readerClosed r s = true → Muxer.flag Muxer.readerClosed r s' = true)
  ∧ (Muxer.flag Muxer.writerClosed r s = true → Muxer.flag Muxer.writerClosed r s' = true)
  ∧ (Muxer.handedOut r s = true → Muxer.handedOut r s' = true)
  ∧ (Muxer.handedOut r s = true →
     r ∉ Muxer.activeStreams s → r ∉ Muxer.activeStreams s').

(** What is known of stream [r] once a call that closes its read half
    ([rd]) or its write half ([wr]) has been made. *)
Definition closedSoFar (r : nat) (rd wr : bool) (s : Muxer.State) : Prop :=
  (rd = true → Muxer.flag Muxer.readerClosed r s = true)
  ∧ (wr = true → Muxer.flag Muxer.writerClosed r s = true)
  ∧ (rd = true → wr = true → r ∉ Muxer.activeStreams s)
  ∧ (rd || wr = true → Muxer.handedOut r s = true).

(** The entries of the effect list that record bookkeeping. *)
Definition bookkeeping (e : Muxer.Effect) : bool :=
  match e with
  | Muxer.Spliced _ _ _ | Muxer.StampedClose _ _ | Muxer.OnStreamEnd _ => true
  | _ => false
  end.

(** *** sink *)

(** The buffers of a producer in the order it yields them, and the part of
    them that is written when write number [k] rejects. *)
Definition allBufs (cs : list Muxer.Chunk) : list (list Z) :=
  concat (Muxer.bufsOf <$> cs).
Definition issuedFrom (n : nat) (failAt : option nat) (bufs : list (list Z))
    : list (list Z) :=
  match failAt with Some k => take (S k - n) bufs | None => bufs end.
Definition rejectsFrom (n : nat) (failAt : option nat) (bufs : list (list Z)) : bool :=
  match failAt with Some k => (k <? n + length bufs)%nat | None => false end.
Definition issued (failAt : option nat) (bufs : list (list Z)) : list (list Z) :=
  issuedFrom 0 failAt bufs.
Definition writeRejects (failAt : option nat) (bufs : list (list Z)) : bool :=
  rejectsFrom 0 failAt bufs.


End Spec.

(** * Sample inputs *)

Module Samples.
Import Types.

Definition digestX : MultihashDigest :=
  {| code := 18; digest := [1; 2; 3]%Z; bytes := [18; 3; 1; 2; 3]%Z |}.
Definition digestY : MultihashDigest :=
  {| code := 18; digest := [4; 5; 6]%Z; bytes := [18; 3; 4; 5; 6]%Z |}.

Definition decodeCerthashStr (s : string) : option MultihashDigest :=
  if String.eqb s "X" then Some digestX
  else if String.eqb s "Y" then Some digestY
  else None.
Definition peerIdFromString (s : string) : option PeerId :=
  if String.eqb s "" then None else Some {| peerIdText := s |}.

Definition certificateY : WebTransportCertificate :=
  {| privateKey := "key"; pem := "pem"; hash := digestY; secret := "secret" |}.

Definition localPeer : PeerId := {| peerIdText := "12D3KooWLocal" |}.

(** /ip4/127.0.0.1/udp/4001/quic/webtransport/certhash/X/p2p/12D3KooWRemote *)
Definition addressWithX : list (Z * option string) :=
  [(Transport.ip4, Some "127.0.0.1"); (Transport.udp, Some "4001");
   (Transport.quic, None); (Transport.webtransport, None);
   (Transport.certhash, Some "X"); (Transport.p2p, Some "12D3KooWRemote")].

(** The same address without the fingerprint. *)
Definition addressWithoutCerthash : list (Z * option string) :=
  [(Transport.ip4, Some "127.0.0.1"); (Transport.udp, Some "4001");
   (Transport.quic, None); (Transport.webtransport, None);
   (Transport.p2p, Some "12D3KooWRemote")].

(** A session that becomes ready and whose listener reports [digestY]. *)
Definition listenerReportsY : Transport.DialEnv :=
  {| Transport.session := Transport.Ready;
     Transport.createBidirectionalStream := Ok 0;
     Transport.writerReady := Ok tt;
     Transport.secureOutbound := Ok (Some [bytes digestY]);
     Transport.signalAborted := false;
     Transport.upgradeOutbound := Ok 1 |}.

Definition defaultTransport : Transport.WebTransportTransport :=
  Transport.webTransport None (Some localPeer).

(** A transport configured with a ceiling of five streams. *)
Definition transportLimitedTo5 : Transport.WebTransportTransport :=
  Transport.webTransport
    (Some {| Transport.init_maxInboundStreams := Some 5%Z;
             Transport.init_certificates := Some [certificateY] |})
    (Some localPeer).

Definition acceptedSession : Listener.SessionEnv :=
  {| Listener.firstRead := Some 0;
     Listener.secureInbound := Ok {| peerIdText := "12D3KooWRemote" |};
     Listener.upgradeInbound := Ok 1;
     Listener.hasHandler := true |}.

(** A muxer with both callbacks, and one created with a triggered signal. *)
Definition muxerConfig : Muxer.WebTransportMuxerInit := {| Muxer.maxInboundStreams := 2 |}.
Definition muxerInit : option Muxer.StreamMuxerInit :=
  Some {| Muxer.onIncomingStream := true; Muxer.onStreamEnd := true;
          Muxer.direction := None; Muxer.signal := None |}.
Definition abortedInit : option Muxer.StreamMuxerInit :=
  Some {| Muxer.onIncomingStream := true; Muxer.onStreamEnd := true;
          Muxer.direction := None; Muxer.signal := Some true |}.

Definition freshMuxer : Muxer.State := snd (Muxer.createStreamMuxer muxerInit 0).

(** newStream, then closeRead, then the end of a sink. *)
Definition openThenCloseBothHalves : list Muxer.Event :=
  [Muxer.EvNewStreamWrap 7 true 100; Muxer.EvNewStreamPush 0;
   Muxer.EvCloseRead 0 200; Muxer.EvSinkFinally 0 300].

(** newStream alone. *)
Definition openOnly : list Muxer.Event :=
  [Muxer.EvNewStreamWrap 7 true 100; Muxer.EvNewStreamPush 0].

(** The muxer after that [newStream]. *)
Definition oneOpenStream : Muxer.State :=
  default freshMuxer (Muxer.run muxerConfig muxerInit openOnly freshMuxer).

(** A muxer with five streams in its active set. *)
Definition fiveActive : Muxer.State :=
  Muxer.mkState 5 5 ∅ [0; 1; 2; 3; 4]%nat Muxer.LoopReading [] [].

Definition threeChunks : Muxer.Source :=
  {| Muxer.chunks := [Muxer.OfUint8Array [0]%Z;
                      Muxer.OfUint8ArrayList [[1; 2]%Z; [3]%Z];
                      Muxer.OfUint8Array [4; 5]%Z];
     Muxer.thrown := None |}.

End Samples.

(** * Further statements about the stream muxer *)

Module Steps.

(** The native calls made on behalf of one stream or of the session. *)
Definition streamNative (e : Muxer.Effect) : bool :=
  match e with
  | Muxer.WriterAbort _ | Muxer.WriterClose _ | Muxer.ReaderCancel _
  | Muxer.WriterWrite _ _ | Muxer.SessionClose => true
  | _ => false
  end.

(** The assignments to the captured variables of a stream. *)
Inductive FlagSetter : (Muxer.Stream → Muxer.Stream) → Prop :=
| setter_reader : FlagSetter Muxer.set_readerClosed
| setter_writer : FlagSetter Muxer.set_writerClosed
| setter_sink : FlagSetter Muxer.set_sinkSunk.

(** What the methods of a stream, its two observers and its two [catch]
    handlers are made of: native calls, assignments to flags, and
    [cleanupStreamFromActiveStreams] at the time [now] of the call. *)
Inductive Basic (init : option Muxer.StreamMuxerInit) (now : Z)
    : Muxer.State → Muxer.State → Prop :=
| basic_refl s : Basic init now s s
| basic_emit s s1 es :
    Basic init now s s1 → forallb streamNative es = true →
    Basic init now s (Muxer.emit es s1)
| basic_upd s s1 r g :
    Basic init now s s1 → FlagSetter g → Basic init now s (Muxer.upd r g s1)
| basic_cleanup s s1 r :
    Basic init now s s1 →
    Basic init now s (Muxer.cleanupStreamFromActiveStreams init r now s1).

(** The attributes of a stream object that are fixed at its creation. *)
Definition sameStatic (c c' : Muxer.Stream) : Prop :=
  Muxer.id c' = Muxer.id c
  ∧ Muxer.stat_direction c' = Muxer.stat_direction c
  ∧ Muxer.timeline_open c' = Muxer.timeline_open c
  ∧ Muxer.native c' = Muxer.native c.

(** Flags are only ever set. *)
Definition flagsKept (c c' : Muxer.Stream) : Prop :=
  (Muxer.readerClosed c = true → Muxer.readerClosed c' = true)
  ∧ (Muxer.writerClosed c = true → Muxer.writerClosed c' = true)
  ∧ (Muxer.sinkSunk c = true → Muxer.sinkSunk c' = true).

(** Every stream object of [s] is still there in [s'], with the same fixed
    attributes and with no flag reset. *)
Definition Grows (s s' : Muxer.State) : Prop :=
  ∀ r c, Muxer.streams s !! r = Some c →
    ∃ c', Muxer.streams s' !! r = Some c' ∧ sameStatic c c' ∧ flagsKept c c'.

(** The native calls among the effects. *)
Definition natives (s : Muxer.State) : list Muxer.Effect :=
  List.filter streamNative (Muxer.effects s).

(** [newStream] called once for each native stream of [hs], every writer
    becoming ready. *)
Fixpoint newStreams (init : option Muxer.StreamMuxerInit) (hs : list nat) (now : Z)
    (s : Muxer.State) : Muxer.State :=
  match hs with
  | [] => s
  | h :: hs' => newStreams init hs' now (snd (Muxer.newStream init h true now s))
  end.

(** Identifiers are renderings of values the counter has passed, and no two
    stream objects share one. *)
Definition idsDistinct (s : Muxer.State) : Prop :=
  (∀ r c, Muxer.streams s !! r = Some c →
     ∃ k, Muxer.id c = pretty k ∧ (k < Muxer.streamIDCounter s)%nat)
  ∧ (∀ r r' c c', Muxer.streams s !! r = Some c → Muxer.streams s !! r' = Some c' →
       Muxer.id c = Muxer.id c' → r = r').

(** A close time in a stream object was written by a logged stamp. *)
Definition stampsLogged (s : Muxer.State) : Prop :=
  ∀ r c t, Muxer.streams s !! r = Some c → Muxer.timeline_close c = Some t →
    Muxer.StampedClose r t ∈ Muxer.effects s.

(** A muxer state that some interleaving reaches. *)
Definition reachable (config : Muxer.WebTransportMuxerInit)
    (init : option Muxer.StreamMuxerInit) (s : Muxer.State) : Prop :=
  ∃ counter es, Muxer.run config init es (snd (Muxer.createStreamMuxer init counter)) = Some s.

(** The steps on one stream, and [muxer.close]; the time at which such a
    step reads the clock. *)
Definition onStream (e : Muxer.Event) : bool :=
  match e with
  | Muxer.EvNewStreamWrap _ _ _ | Muxer.EvNewStreamPush _
  | Muxer.EvInboundRead _ _ _ | Muxer.EvInboundPush => false
  | _ => true
  end.

Definition timeOf (e : Muxer.Event) : Z :=
  match e with
  | Muxer.EvAbort _ now | Muxer.EvClose _ now | Muxer.EvCloseRead _ now
  | Muxer.EvCloseWrite _ now | Muxer.EvReset _ now | Muxer.EvSinkFinally _ now
  | Muxer.EvSourceEnd _ now | Muxer.EvWriterClosed _ now | Muxer.EvReaderClosed _ now => now
  | _ => 0%Z
  end.

(** The effects of the inbound loop. *)
Definition inboundEffect (e : Muxer.Effect) : bool :=
  match e with
  | Muxer.OnIncomingStream _ | Muxer.WritableClose _ | Muxer.ReadableCancel _ => true
  | _ => false
  end.

Definition inboundEvent (e : Muxer.Event) : bool :=
  match e with
  | Muxer.EvInboundRead _ _ _ | Muxer.EvInboundPush => true
  | _ => false
  end.

(** The results of [reader.read()] and of [writer.ready] with which an
    iteration leaves the loop: [done], an undefined value, or a stream
    below the ceiling whose writer does not become ready. *)
Definition endsLoop (config : Muxer.WebTransportMuxerInit) (v : Muxer.ReadResult)
    (readyOk : bool) (s : Muxer.State) : bool :=
  match v with
  | Muxer.ReadDone | Muxer.ReadUndefined => true
  | Muxer.ReadStream _ => negb (Muxer.atLimit config s) && negb readyOk
  end.

(** What [cleanupStreamFromActiveStreams] appends for a stream at a time. *)
Definition finalization (now : Z) (e : Muxer.Effect) : Prop :=
  ∃ r, (∃ rc wc, e = Muxer.Spliced r rc wc) ∨ e = Muxer.StampedClose r now
       ∨ e = Muxer.OnStreamEnd r.

End Steps.

(** * The rest of src/listener.ts *)

(** ** Sessions, with every outcome of the collaborators *)

Module ListenerSession.
Import Types Listener.

(** How the collaborators answer during one [onSession].  Beside the answers
    of [Listener.SessionEnv], the first read of the incoming streams can
    reject, and the handler given to the listener can throw. *)
Record Env := {
  read : Result (option nat);
  secure : Result PeerId;
  upgrade : Result nat;
  handler : option (Result unit)
}.

(** [webtransportCerthashes] of the noise extensions in [onSession]:
    [this.certificates.map(cert => cert.hash.bytes)]. *)
Definition webtransportCerthashes (l : WebTransportListener) : list (list Z) :=
  (λ cert, bytes (hash cert)) <$> certificates l.

Definition push (l : WebTransportListener) (connection : nat) : WebTransportListener :=
  mkListener (certificates l) (peerId l) (connections l ++ [connection]).

Definition onSession (l : WebTransportListener) (env : Env)
    : Result unit * WebTransportListener * list SessionEffect :=
  match read env with
  | Throw e => (Throw e, l, [])
  | Ok None => (Ok tt, l, [])
  | Ok (Some bidistream) =>
      match secure env with
      | Throw e => (Throw e, l, [])
      | Ok remotePeer =>
          let upgrading := [UpgradeInbound (onSession_muxerConfig l)] in
          match upgrade env with
          | Throw err => (Ok tt, l, upgrading ++ [SessionCloseWith 500 (message err)])
          | Ok connection =>
              match handler env with
              | None =>
                  (Ok tt, push l connection,
                   upgrading ++ [AuthWriterClose; DispatchConnection connection])
              | Some (Ok _) =>
                  (Ok tt, push l connection,
                   upgrading ++ [AuthWriterClose; Handler connection;
                                 DispatchConnection connection])
              | Some (Throw err) =>
                  (Ok tt, push l connection,
                   upgrading ++ [AuthWriterClose; Handler connection;
                                 SessionCloseWith 500 (message err)])
              end
          end
      end
  end.

(** The ['session'] handler installed by [listen]. *)
Definition handleSession (l : WebTransportListener) (env : Env)
    : WebTransportListener * list SessionEffect :=
  match onSession l env with
  | (Ok _, l', es) => (l', es)
  | (Throw _, l', es) => (l', es ++ [SessionClose])
  end.

(** Sessions one after the other.  [onSession] touches the listener only in
    [this.connections.push], and nothing is awaited from there to its end, so
    the sessions act on the listener in the order in which their upgrades
    complete; [envs] lists them in that order. *)
Fixpoint handleSessions (l : WebTransportListener) (envs : list Env) : WebTransportListener :=
  match envs with
  | [] => l
  | env :: envs' => handleSessions (fst (handleSession l env)) envs'
  end.

(** The sessions of [Listener.SessionEnv] among these. *)
Definition ofSessionEnv (env : SessionEnv) : Env :=
  {| read := Ok (firstRead env);
     secure := secureInbound env;
     upgrade := upgradeInbound env;
     handler := if hasHandler env then Some (Ok tt) else None |}.

(** [xs.map(f)] for an [f] that can throw, and [Promise.all] of the
    promises of an asynchronous [f]. *)
Fixpoint mapResult {A B} (f : A → Result B) (xs : list A) : Result (list B) :=
  match xs with
  | [] => Ok []
  | x :: xs' =>
      match f x with
      | Throw e => Throw e
      | Ok y => match mapResult f xs' with
                | Throw e => Throw e
                | Ok ys => Ok (y :: ys)
                end
      end
  end.

Inductive CloseEffect :=
| ConnClose (conn : nat)       (* conn.close() *)
| ServerClose.                 (* this.server.close() *)

(** [attemptClose(conn)]; [closes] tells how [conn.close()] answers. *)
Definition attemptClose (closes : nat → Result unit) (conn : nat) : Result unit :=
  match closes conn with
  | Ok _ => Ok tt
  | Throw err => Ok tt          (* log.error *)
  end.

(** [close()]; [server] tells whether [this.server] is set.  The calls of
    [conn.close()] are all made before the first of them is awaited. *)
Definition close (l : WebTransportListener) (server : bool) (closes : nat → Result unit)
    : Result unit * list CloseEffect :=
  if server then
    let calls := ConnClose <$> connections l in
    match mapResult (attemptClose closes) (connections l) with
    | Ok _ => (Ok tt, calls ++ [ServerClose])
    | Throw e => (Throw e, calls)
    end
  else (Ok tt, []).

(** What a session contributes to [connections]. *)
Definition upgraded (env : Env) : option nat :=
  match read env, secure env, upgrade env with
  | Ok (Some _), Ok _, Ok connection => Some connection
  | _, _, _ => None
  end.

Definition isClose (e : SessionEffect) : bool :=
  match e with
  | SessionCloseWith _ _ | SessionClose => true
  | _ => false
  end.

End ListenerSession.

(** ** Addresses *)

Module ListenerAddrs.
Import Types Listener.

Inductive Family := IPv4 | IPv6.
#[global] Instance Family_eq_dec : EqDecision Family.
Proof. solve_decision. Defined.

(** An entry of an interface in [os.networkInterfaces()]. *)
Record NetAddr := { na_family : Family; na_address : string }.

(** [server.address()] *)
Record ServerAddress := { port : nat; host : string; family : Family }.

Inductive Proto := proto_ip4 | proto_ip6.

Definition ProtoFamily (proto : Proto) : Family :=
  match proto with proto_ip4 => IPv4 | proto_ip6 => IPv6 end.
Definition protoCode (proto : Proto) : Z :=
  match proto with proto_ip4 => Transport.ip4 | proto_ip6 => Transport.ip6 end.

(** A [Multiaddr] is kept as what [stringTuples()] gives for it. *)
Definition Multiaddr := list (Z * option string).

Definition isAnyAddr (ip : string) : bool :=
  bool_decide (ip ∈ ["0.0.0.0"; "::"]).

Section WithLibraries.
(** [Object.entries(os.networkInterfaces())], [None] for a [null] entry. *)
Variable networks : list (option (list NetAddr)).
(** [base64url.encode] *)
Variable base64url : list Z → string.
(** The text [multiaddr(...)] keeps for an address of the given protocol,
    [None] when it throws on it. *)
Variable ipText : Z → string → option string.

Definition getNetworkAddrs (family : Family) : list string :=
  concat ((λ entry : option (list NetAddr),
             match entry with
             | Some netAddrs =>
                 na_address <$> List.filter (λ netAddr, bool_decide (na_family netAddr = family))
                                            netAddrs
             | None => []
             end) <$> networks).

(** The components of [`/certhash/${base64url.encode(cert.hash.bytes)}`],
    one for each certificate. *)
Definition certhashes (certificates : list WebTransportCertificate) : Multiaddr :=
  (λ cert, (Transport.certhash, Some (base64url (bytes (hash cert))))) <$> certificates.

Definition toMa (proto : Proto) (port : nat) (certificates : list WebTransportCertificate)
    (ip : string) : Result Multiaddr :=
  match ipText (protoCode proto) ip with
  | Some text =>
      Ok ([(protoCode proto, Some text); (Transport.udp, Some (pretty port));
           (Transport.quic, None); (Transport.webtransport, None)]
          ++ certhashes certificates)
  | None => Throw (External "multiaddr")
  end.

Definition getMultiaddrs (proto : Proto) (ip : string) (port : nat)
    (certificates : list WebTransportCertificate) : Result (list Multiaddr) :=
  ListenerSession.mapResult (toMa proto port certificates)
            (if isAnyAddr ip then getNetworkAddrs (ProtoFamily proto) else [ip]).

(** [getAddrs()]; [started] is [this.status.started], [server] is
    [this.server] with the answer of its [address()]. *)
Definition getAddrs (l : WebTransportListener) (started : bool)
    (server : option (option ServerAddress)) : list Multiaddr :=
  match started, server with
  | true, Some (Some address) =>
      let addrs :=
        match getMultiaddrs (match family address with IPv4 => proto_ip4 | IPv6 => proto_ip6 end)
                            (host address) (port address) (certificates l) with
        | Ok mas => mas
        | Throw _ => []
        end in
      (λ ma, match peerId l with
             | Some p => ma ++ [(Transport.p2p, Some (peerIdText p))]
             | None => ma
             end) <$> addrs
  | _, _ => []
  end.

End WithLibraries.

End ListenerAddrs.

(** ** What a listener is to give out *)

Module Announced.
Import Types Listener ListenerAddrs.

Section WithLibraries.
Variable networks : list (option (list NetAddr)).
Variable base64url : list Z → string.

Definition protoOf (address : ServerAddress) : Proto :=
  match family address with IPv4 => proto_ip4 | IPv6 => proto_ip6 end.

(** The addresses a server on [address] is reached at: its host, or, for
    the any-address, the addresses of that family on the interfaces. *)
Definition reachedAt (address : ServerAddress) : list string :=
  if isAnyAddr (host address)
  then getNetworkAddrs networks (ProtoFamily (protoOf address))
  else [host address].

(** The multiaddr for one of them, [text] being the form [multiaddr] keeps
    for it: host, port of the server, the two markers, the hashes of the
    certificates, and the peer id of the listener if it has one. *)
Definition announced (l : WebTransportListener) (address : ServerAddress) (text : string)
    : Multiaddr :=
  [(protoCode (protoOf address), Some text);
   (Transport.udp, Some (pretty (port address)));
   (Transport.quic, None); (Transport.webtransport, None)]
  ++ ((λ cert, (Transport.certhash, Some (base64url (bytes (hash cert)))))
        <$> certificates l)
  ++ match peerId l with
     | Some p => [(Transport.p2p, Some (peerIdText p))]
     | None => []
     end.

End WithLibraries.

End Announced.

(** * Measures on the trace of a dial *)

Module DialTrace.
Import Transport.

Definition isWtClose (e : SessionEffect) : bool :=
  match e with WtClose => true | _ => false end.
Definition isNew (e : SessionEffect) : bool :=
  match e with NewWebTransport _ _ => true | _ => false end.

(** How often [wt.close()] is called, and whether the constructor of the
    session was called. *)
Definition sessionCloses (es : list SessionEffect) : nat := length (List.filter isWtClose es).
Definition sessionMade (es : list SessionEffect) : bool := existsb isNew es.

(** Whether the handshake on the authentication stream went through. *)
Definition handshake (env : DialEnv) : option (option (list (list Z))) :=
  match createBidirectionalStream env, writerReady env, secureOutbound env with
  | Ok _, Ok _, Ok remoteExtensions => Some remoteExtensions
  | _, _, _ => None
  end.

(** Whether [authenticateWebTransport] returns for the hashes [hs]. *)
Definition authenticates (env : DialEnv) (hs : list Types.MultihashDigest) : bool :=
  match handshake env with
  | Some remoteExtensions => Utils.isSubset (nullish remoteExtensions []) (Types.bytes <$> hs)
  | None => false
  end.

(** The components that are not [quic] or [webtransport]. *)
Definition withoutMarkers (parts : list (Z * option string)) : list (Z * option string) :=
  List.filter (λ part, negb (isMarker (fst part))) parts.

(** The host components and the port components of an address, and the
    text they add to the URL. *)
Definition hosts (parts : list (Z * option string)) : list (Z * option string) :=
  List.filter (λ part, isHost (fst part)) parts.
Definition ports (parts : list (Z * option string)) : list (Z * option string) :=
  List.filter (λ part, bool_decide (fst part = udp)) parts.
Definition hostText (parts : list (Z * option string)) : string :=
  foldr String.append "" ((λ part, nullish (snd part) "") <$> hosts parts).
Definition portText (parts : list (Z * option string)) : string :=
  foldr String.append "" ((λ part, ":" +:+ nullish (snd part) "") <$> ports parts).

(** Whether the address has a [quic], [webtransport] or [certhash]
    component. *)
Definition marked (parts : list (Z * option string)) : bool :=
  existsb (λ part, isMarker (fst part) || bool_decide (fst part = certhash)) parts.

End DialTrace.

(** * Further sample inputs *)

Module MoreSamples.

(** The muxer after [newStream], [closeRead] and the end of a sink. *)
Definition oneClosedStream : Muxer.State :=
  default Samples.freshMuxer
    (Muxer.run Samples.muxerConfig Samples.muxerInit Samples.openThenCloseBothHalves
               Samples.freshMuxer).

(** The stream object of the one stream of [Samples.oneOpenStream]. *)
Definition openCell : Muxer.Stream :=
  Muxer.mkStream "0" Muxer.outbound 100 None 7 false false false.

Definition closedCell : Muxer.Stream :=
  Muxer.mkStream "0" Muxer.outbound 100 (Some 300%Z) 7 true true false.

(** The muxer after [newStream] and [closeRead]. *)
Definition readHalfClosed : Muxer.State :=
  default Samples.freshMuxer
    (Muxer.run Samples.muxerConfig Samples.muxerInit
               (Samples.openOnly ++ [Muxer.EvCloseRead 0 200]) Samples.freshMuxer).

(** A listener with one certificate, and the address of its server. *)
Definition listenerWithY : Listener.WebTransportListener :=
  Listener.mkListener [Samples.certificateY] (Some Samples.localPeer) [].

Definition serverAddress : ListenerAddrs.ServerAddress :=
  {| ListenerAddrs.port := 4001; ListenerAddrs.host := "127.0.0.1";
     ListenerAddrs.family := ListenerAddrs.IPv4 |}.

(** The encoder that goes with [Samples.decodeCerthashStr]. *)
Definition base64url (bs : list Z) : string :=
  if bool_decide (bs = Types.bytes Samples.digestX) then "X"
  else if bool_decide (bs = Types.bytes Samples.digestY) then "Y"
  else "".

Definition ipText (proto : Z) (ip : string) : option string :=
  if String.eqb ip "" then None else Some ip.

(** /ip4/127.0.0.1/udp/4001/quic/webtransport/certhash/Y/p2p/12D3KooWLocal *)
Definition advertised : ListenerAddrs.Multiaddr :=
  [(Transport.ip4, Some "127.0.0.1"); (Transport.udp, Some "4001");
   (Transport.quic, None); (Transport.webtransport, None);
   (Transport.certhash, Some "Y"); (Transport.p2p, Some "12D3KooWLocal")].

(** /ip6/::1/udp/4001/quic/webtransport, parsed to the URL
    [https://::1:4001], and a constructor that does not take that URL. *)
Definition addressIp6 : list (Z * option string) :=
  [(Transport.ip6, Some "::1"); (Transport.udp, Some "4001");
   (Transport.quic, None); (Transport.webtransport, None)].

Definition constructorThrows : Transport.DialEnv :=
  {| Transport.session := Transport.ConstructorThrows (External "new WebTransport");
     Transport.createBidirectionalStream := Ok 0;
     Transport.writerReady := Ok tt;
     Transport.secureOutbound := Ok None;
     Transport.signalAborted := false;
     Transport.upgradeOutbound := Ok 1 |}.

Definition parsedWithoutCerthash : Transport.Parsed :=
  Transport.mkParsed "https://127.0.0.1:4001" []
                     (Some {| Types.peerIdText := "12D3KooWRemote" |}).

End MoreSamples.

(** * Properties *)

(** ** isSubset *)

Module UtilsFacts.
Import Utils Spec.

Lemma byteEqual_eq (a b : list Z) : byteEqual a b ↔ a = b.
Proof.
  split; [| by intros ->].
  intros [Hlen Hix]. apply list_eq. intros i.
  destruct (decide (i < length a)%nat) as [Hlt | Hge]; [by apply Hix |].
  rewrite !lookup_ge_None_2; [done | lia | lia].
Qed.

Lemma scanBytes_spec (a o : list Z) (n index : nat) :
  scanBytes a o index n = true ↔
  ∀ j, (index ≤ j < index + n)%nat → o !! j = a !! j.
Proof.
  revert index. induction n as [| n IH]; intros index; simpl.
  - split; [intros _ j ?; lia | done].
  - case_bool_decide as Hhd.
    + rewrite IH. split.
      * intros H j Hj. destruct (decide (j = index)) as [-> | ?]; [done |].
        apply H. lia.
      * intros H j Hj. apply H. lia.
    + split; [done |]. intros H. destruct Hhd. apply H. lia.
Qed.

Lemma sameBytes_spec (a o : list Z) : sameBytes a o = true ↔ byteEqual a o.
Proof.
  unfold sameBytes, byteEqual.
  destruct (Nat.eqb_spec (length a) (length o)) as [Hlen | Hlen]; simpl.
  - rewrite scanBytes_spec. split.
    + intros H. split; [done |]. intros i Hi. symmetry. apply H. lia.
    + intros [_ H] j Hj. symmetry. apply H. lia.
  - split; [done | by intros [? _]].
Qed.

Lemma Boolean_find_spec (a : list Z) (set : list (list Z)) :
  Boolean (List.find (sameBytes a) set) = true ↔ ∃ o, o ∈ set ∧ byteEqual a o.
Proof.
  destruct (List.find (sameBytes a) set) as [o |] eqn:Hfind; simpl.
  - apply find_some in Hfind as [Hin Hsame].
    split; [| done]. intros _. exists o.
    split; [by apply list_elem_of_In | by apply sameBytes_spec].
  - split; [done |]. intros (o & Hin & Heq).
    apply list_elem_of_In in Hin.
    pose proof (find_none _ _ Hfind o Hin) as Hno.
    apply sameBytes_spec in Heq. congruence.
Qed.

Lemma filter_all_length {A} (f : A → bool) (l : list A) :
  (length (List.filter f l) =? length l)%nat = true ↔ ∀ x, x ∈ l → f x = true.
Proof.
  rewrite Nat.eqb_eq. induction l as [| x l IH]; simpl.
  - split; [intros _ y Hy; by apply elem_of_nil in Hy | done].
  - pose proof (List.filter_length_le f l) as Hle.
    destruct (f x) eqn:Hfx; simpl.
    + split.
      * intros Hlen y Hy. apply elem_of_cons in Hy as [-> | Hy]; [done |].
        apply IH; [lia | done].
      * intros H. f_equal. apply IH. intros y Hy. apply H. by apply elem_of_cons; right.
    + split; [lia |]. intros H. specialize (H x). rewrite Hfx in H.
      discriminate H. apply elem_of_cons; by left.
Qed.

Lemma isSubset_true (set maybeSubset : list (list Z)) :
  isSubset set maybeSubset = true ↔ ∀ b, b ∈ maybeSubset → b ∈ set.
Proof.
  unfold isSubset. rewrite filter_all_length. split.
  - intros H b Hb. apply H in Hb. apply Boolean_find_spec in Hb as (o & Ho & Heq).
    apply byteEqual_eq in Heq. by subst.
  - intros H b Hb. apply Boolean_find_spec. exists b. split; [by apply H |].
    by apply byteEqual_eq.
Qed.

Lemma isSubset_iff_helper (A B : list (list Z)) :
  isSubset A B = true → ∀ b, b ∈ B → ∃ a, a ∈ A ∧ byteEqual b a.
Proof.
  rewrite isSubset_true. intros H b Hb. exists b.
  split; [by apply H | by apply byteEqual_eq].
Qed.

(** The cases of the repository's own test table. *)
Example isSubset_test_table :
  isSubset [[1;2;3]]%Z [[4;5;6]]%Z = false
  ∧ isSubset [[1;2;3];[4;5;6]]%Z [[1;2;3]]%Z = true
  ∧ isSubset [[1;2;3];[4;5;6]]%Z [] = true
  ∧ isSubset [] [[1;2;3]]%Z = false
  ∧ isSubset [] [] = true
  ∧ isSubset [[1;2;3]]%Z [[1;2;3];[4;5;6]]%Z = false
  ∧ isSubset [[1;2;3]]%Z [[1;2]]%Z = false.
Proof. repeat split; reflexivity. Qed.

(** C2: [isSubset A B] is true exactly when every element of [B] occurs in
    [A] under exact byte equality (same length, same byte at every index);
    [isSubset A []] is true for every [A], and [isSubset [] B] is false for
    every non-empty [B]. *)
Theorem isSubset_iff_every_element_present (A B : list (list Z)) :
  (isSubset A B = true ↔ ∀ b, b ∈ B → ∃ a, a ∈ A ∧ byteEqual b a)
  ∧ isSubset A [] = true
  ∧ (∀ b B', isSubset [] (b :: B') = false).
Proof.
  split; [| split].
  - rewrite isSubset_true. split.
    + intros H b Hb. exists b. split; [by apply H | by apply byteEqual_eq].
    + intros H b Hb. destruct (H b Hb) as (a & Ha & Heq).
      apply byteEqual_eq in Heq. by subst.
  - reflexivity.
  - intros b B'. apply not_true_is_false. rewrite isSubset_true.
    intros H. specialize (H b). rewrite elem_of_cons, elem_of_nil in H. tauto.
Qed.

End UtilsFacts.

(** ** parseMultiaddr *)

Module ParseFacts.
Import Types Transport Spec.

Lemma string_app_cons (ch : Ascii.ascii) (a b : string) :
  String ch a +:+ b = String ch (a +:+ b).
Proof. reflexivity. Qed.

Lemma string_app_assoc (a b c : string) : (a +:+ b) +:+ c = a +:+ (b +:+ c).
Proof. induction a as [| ch a IH]; [done |]. rewrite !string_app_cons. by f_equal. Qed.

Lemma string_app_nil_r (a : string) : a +:+ "" = a.
Proof. induction a as [| ch a IH]; [done |]. rewrite string_app_cons. by f_equal. Qed.

(** The five tests of the [switch] exclude one another. *)
Lemma tests_cases (proto : Z) :
  tests proto = (true, false, false, false, false)
  ∨ tests proto = (false, true, false, false, false)
  ∨ tests proto = (false, false, true, false, false)
  ∨ tests proto = (false, false, false, true, false)
  ∨ tests proto = (false, false, false, false, true)
  ∨ tests proto = (false, false, false, false, false).
Proof.
  unfold tests, isHost, isMarker.
  destruct (decide (proto = ip4)) as [-> | ?]; [by left |].
  destruct (decide (proto = ip6)) as [-> | ?]; [by left |].
  destruct (decide (proto = dns4)) as [-> | ?]; [by left |].
  destruct (decide (proto = dns6)) as [-> | ?]; [by left |].
  destruct (decide (proto = quic)) as [-> | ?]; [by right; left |].
  destruct (decide (proto = webtransport)) as [-> | ?]; [by right; left |].
  destruct (decide (proto = udp)) as [-> | ?]; [by right; right; left |].
  destruct (decide (proto = certhash)) as [-> | ?]; [by right; right; right; left |].
  destruct (decide (proto = p2p)) as [-> | ?]; [by right; right; right; right; left |].
  do 5 right. by rewrite !bool_decide_eq_false_2.
Qed.

Ltac by_kind proto :=
  let H := fresh "Hk" in
  let H1 := fresh "Hk" in let H2 := fresh "Hk" in let H3 := fresh "Hk" in
  let H4 := fresh "Hk" in let H5 := fresh "Hk" in
  destruct (tests_cases proto) as [H | [H | [H | [H | [H | H]]]]];
  unfold tests in H; injection H as H1 H2 H3 H4 H5;
  rewrite ?H1, ?H2, ?H3, ?H4, ?H5 in *.

Section WithCodecs.
Variable decodeCerthashStr : string -> option MultihashDigest.
Variable peerIdFromString : string -> option PeerId.

Local Abbreviation reduce := (reduce decodeCerthashStr peerIdFromString).
Local Abbreviation reducer := (reducer decodeCerthashStr peerIdFromString).
Local Abbreviation rejection := (rejection decodeCerthashStr peerIdFromString).

Lemma reduce_throws (parts : list (Z * option string)) (st : ParseState) :
  is_throw (reduce parts st) = rejection (seenHost st) (seenPort st) parts.
Proof.
  revert st. induction parts as [| [proto value] parts IH]; intros st; [done |].
  cbn [Transport.reduce Spec.rejection]. unfold Transport.reducer, recognized.
  destruct st as [u cs sh sp rp]; cbn [seenHost seenPort url certhashes remotePeer].
  by_kind proto; cbn [negb orb andb].
  - destruct sh, sp; cbn; done.
  - destruct sh, sp; cbn; done.
  - destruct sp; cbn; [by rewrite ?orb_true_r |].
    rewrite IH. cbn. by rewrite ?orb_false_r.
  - destruct sh, sp; cbn; try done.
    destruct (decodeCerthashStr (nullish value "")) as [d |] eqn:Hd; cbn;
      rewrite ?IH; cbn; by try case_bool_decide.
  - destruct (peerIdFromString (nullish value "")) as [p |] eqn:Hp; cbn;
      rewrite ?IH; cbn; rewrite ?orb_false_r, ?andb_false_r; by try case_bool_decide.
  - by rewrite ?andb_false_r, ?orb_false_r, ?orb_true_r.
Qed.

Lemma reduce_ok (parts : list (Z * option string)) (st st' : ParseState) :
  reduce parts st = Ok st' →
  url st' = url st +:+ foldr String.append "" (urlPiece <$> parts)
  ∧ certhashes st' = certhashes st ++ omap (digestOf decodeCerthashStr) parts
  ∧ remotePeer st' = match last (omap (peerOf peerIdFromString) parts) with
                     | Some p => Some p
                     | None => remotePeer st
                     end.
Proof.
  revert st. induction parts as [| [proto value] parts IH]; intros st.
  - intros [= <-]. cbn. by rewrite string_app_nil_r, app_nil_r.
  - cbn [Transport.reduce]. destruct (reducer st (proto, value)) as [st1 | e] eqn:Hred; [| done].
    intros Hrest. apply IH in Hrest as (Hu & Hc & Hp).
    rewrite Hu, Hc, Hp. clear Hu Hc Hp IH.
    unfold Transport.reducer in Hred.
    cbn [fmap list_fmap omap list_omap foldr].
    unfold urlPiece at 2, digestOf at 2, peerOf at 2. cbn [fst snd].
    destruct st as [u cs sh sp rp]; cbn [seenHost seenPort url certhashes remotePeer] in *.
    by_kind proto; cbn [negb orb andb] in *.
    + destruct (sh || sp); [done |]. injection Hred as <-. cbn.
      by rewrite string_app_assoc.
    + destruct (negb sh || negb sp); [done |]. injection Hred as <-. by cbn.
    + destruct sp; [done |]. injection Hred as <-. cbn.
      by rewrite !string_app_assoc.
    + destruct (negb sh || negb sp); [done |].
      destruct (decodeCerthashStr (nullish value "")) as [d |]; [| done].
      injection Hred as <-. cbn. by rewrite <- app_assoc.
    + destruct (peerIdFromString (nullish value "")) as [p |]; [| done].
      injection Hred as <-. cbn.
      destruct (omap (peerOf peerIdFromString) parts) as [| q qs] eqn:Hq; cbn; [done |].
      assert (is_Some (last (q :: qs))) as [x ->] by (by apply last_is_Some).
      done.
    + done.
Qed.

Lemma listed_is_rejection (parts : list (Z * option string)) (host port : bool) :
  listedRejection host port parts = true → rejection host port parts = true.
Proof.
  revert host port. induction parts as [| [proto value] parts IH]; intros host port; [done |].
  cbn [listedRejection Spec.rejection]. intros H.
  repeat (apply orb_true_iff in H as [H | H]).
  - rewrite H. done.
  - rewrite H. by rewrite ?orb_true_r.
  - rewrite H. by rewrite ?orb_true_r.
  - rewrite (IH _ _ H). by rewrite ?orb_true_r.
Qed.

Lemma parseMultiaddr_ok (parts : list (Z * option string)) (p : Parsed) :
  parseMultiaddr decodeCerthashStr peerIdFromString parts = Ok p →
  p = mkParsed (derivedUrl parts)
               (digestsInOrder decodeCerthashStr parts)
               (peerIdentity peerIdFromString parts).
Proof.
  unfold parseMultiaddr.
  destruct (reduce parts initialState) as [st |] eqn:Hred; [| done].
  intros [= <-]. apply reduce_ok in Hred as (Hu & Hc & Hp). cbn in Hu, Hc, Hp.
  unfold derivedUrl, digestsInOrder, peerIdentity. rewrite Hu, Hc, Hp.
  by destruct (last _).
Qed.

Lemma digestsInOrder_none (parts : list (Z * option string)) :
  (∀ part, part ∈ parts → fst part ≠ certhash) →
  digestsInOrder decodeCerthashStr parts = [].
Proof.
  unfold digestsInOrder. induction parts as [| part parts IH]; intros H; [done |].
  cbn. unfold digestOf at 1.
  rewrite bool_decide_eq_false_2 by (apply H; left).
  apply IH. intros q Hq. apply H. by right.
Qed.

(** C7, as amended: parsing throws exactly when one of the listed reasons
    holds, or a host component comes after a host or a port component, or a
    certificate-fingerprint or peer-identity value does not decode; otherwise
    it returns the derived https URL, the decoded digests in order of
    appearance and the optional peer identity. *)
Theorem parseMultiaddr_throws_or_returns (parts : list (Z * option string)) :
  (listedRejection false false parts = true →
     is_throw (parseMultiaddr decodeCerthashStr peerIdFromString parts) = true)
  ∧ is_throw (parseMultiaddr decodeCerthashStr peerIdFromString parts)
    = rejection false false parts
  ∧ (rejection false false parts = false →
     parseMultiaddr decodeCerthashStr peerIdFromString parts
     = Ok (mkParsed (derivedUrl parts)
                    (digestsInOrder decodeCerthashStr parts)
                    (peerIdentity peerIdFromString parts))).
Proof.
  assert (Hthrow : is_throw (parseMultiaddr decodeCerthashStr peerIdFromString parts)
                   = rejection false false parts).
  { change (rejection false false parts)
      with (rejection (seenHost initialState) (seenPort initialState) parts).
    rewrite <- reduce_throws. unfold parseMultiaddr.
    by destruct (reduce parts initialState). }
  split; [| split].
  - intros H. rewrite Hthrow. by apply listed_is_rejection.
  - done.
  - intros Hno. rewrite Hno in Hthrow. unfold parseMultiaddr in *.
    destruct (reduce parts initialState) as [st |] eqn:Hred; [| done].
    apply reduce_ok in Hred as (Hu & Hc & Hp). cbn in Hu, Hc, Hp.
    unfold derivedUrl, digestsInOrder, peerIdentity. rewrite Hu, Hc, Hp.
    by destruct (last _).
Qed.

End WithCodecs.

(** C7, as stated, fails: a second host component is none of the listed
    reasons, yet parsing /ip4/127.0.0.1/ip4/127.0.0.1 throws. *)
Lemma parseMultiaddr_second_host_throws :
  let parts := [(ip4, Some "127.0.0.1"); (ip4, Some "127.0.0.1")] in
  listedRejection false false parts = false
  ∧ parseMultiaddr (λ _, None) (λ _, None) parts
    = Throw (Err "Invalid multiaddr, saw host and already saw the host or port").
Proof. split; reflexivity. Qed.

(** A well-formed address, for comparison. *)
Example parseMultiaddr_well_formed :
  let d := {| code := 18; digest := [1; 2]%Z; bytes := [18; 2; 1; 2]%Z |} in
  parseMultiaddr (λ _, Some d) (λ s, Some {| peerIdText := s |})
    [(ip4, Some "127.0.0.1"); (udp, Some "4001"); (quic, None); (webtransport, None);
     (certhash, Some "uEiA"); (p2p, Some "12D3KooW")]
  = Ok (mkParsed "https://127.0.0.1:4001" [d] (Some {| peerIdText := "12D3KooW" |})).
Proof. reflexivity. Qed.

End ParseFacts.

(** ** dial and authenticateWebTransport *)

Module DialFacts.
Import Types Transport Spec.

Section WithCodecs.
Variable decodeCerthashStr : string -> option MultihashDigest.
Variable peerIdFromString : string -> option PeerId.

Local Abbreviation parseMultiaddr := (parseMultiaddr decodeCerthashStr peerIdFromString).
Local Abbreviation dial := (dial decodeCerthashStr peerIdFromString).

Lemma authenticate_after_handshake (env : DialEnv) (certhashes : list MultihashDigest)
    (stream : nat) (remote : option (list (list Z))) :
  createBidirectionalStream env = Ok stream →
  writerReady env = Ok tt →
  secureOutbound env = Ok remote →
  authenticateWebTransport env certhashes
  = (if Utils.isSubset (nullish remote []) (bytes <$> certhashes)
     then Ok true else Throw notSubsetError,
     [CreateBidirectionalStream; AuthWriterClose; AuthReaderCancel]).
Proof.
  intros Hs Hw Hh. unfold authenticateWebTransport. rewrite Hs, Hw, Hh.
  by destruct (Utils.isSubset _ _).
Qed.

(** C1: when the fingerprints taken from the dialed address are a non-empty
    set that is not contained, by exact byte equality, in the fingerprints the
    listener reported in the handshake, authentication fails, the native
    session is closed (once, as the last action on it) and [dial] rejects
    with that one error. *)
Theorem dial_rejects_fingerprint_mismatch
    (t : WebTransportTransport) (localPeer : PeerId)
    (parts : list (Z * option string)) (p : Parsed)
    (env : DialEnv) (stream : nat) (remote : option (list (list Z))) :
  components_peerId t = Some localPeer →
  parseMultiaddr parts = Ok p →
  wtReady env = Ok tt →
  createBidirectionalStream env = Ok stream →
  writerReady env = Ok tt →
  secureOutbound env = Ok remote →
  p_certhashes p ≠ [] →
  ¬ (∀ b, b ∈ bytes <$> p_certhashes p → ∃ a, a ∈ nullish remote [] ∧ byteEqual b a) →
  fst (authenticateWebTransport env (p_certhashes p)) = Throw notSubsetError
  ∧ dial t parts env
    = (Throw notSubsetError,
       [NewWebTransport (p_url p +:+ "/.well-known/libp2p-webtransport?type=noise")
                        (digest <$> p_certhashes p);
        CreateBidirectionalStream; AuthWriterClose; AuthReaderCancel; WtClose]).
Proof.
  intros Hpeer Hparse Hready Hs Hw Hh _ Hnot.
  assert (Hsub : Utils.isSubset (nullish remote []) (bytes <$> p_certhashes p) = false).
  { apply not_true_is_false. intros Hsub. apply Hnot.
    by apply UtilsFacts.isSubset_iff_helper. }
  pose proof (authenticate_after_handshake env (p_certhashes p) _ _ Hs Hw Hh) as Hauth.
  rewrite Hsub in Hauth. split; [by rewrite Hauth |].
  unfold Transport.dial, dial_try. rewrite Hpeer, Hparse.
  unfold wtReady in Hready. destruct (session env); try discriminate Hready.
  by rewrite Hauth.
Qed.

(** C10: an address without certificate-fingerprint components yields the
    empty fingerprint set, the subset check then holds whatever the remote
    reports, and the authentication step accepts. *)
Theorem authentication_accepts_without_fingerprints
    (parts : list (Z * option string)) (p : Parsed)
    (env : DialEnv) (stream : nat) (remote : option (list (list Z))) :
  (∀ part, part ∈ parts → fst part ≠ certhash) →
  parseMultiaddr parts = Ok p →
  createBidirectionalStream env = Ok stream →
  writerReady env = Ok tt →
  secureOutbound env = Ok remote →
  p_certhashes p = []
  ∧ Utils.isSubset (nullish remote []) (bytes <$> p_certhashes p) = true
  ∧ authenticateWebTransport env (p_certhashes p)
    = (Ok true, [CreateBidirectionalStream; AuthWriterClose; AuthReaderCancel]).
Proof.
  intros Hno Hparse Hs Hw Hh.
  apply ParseFacts.parseMultiaddr_ok in Hparse. subst p. cbn [p_certhashes].
  rewrite (ParseFacts.digestsInOrder_none _ _ Hno).
  split; [done |]. split; [done |].
  by rewrite (authenticate_after_handshake env [] _ _ Hs Hw Hh).
Qed.

End WithCodecs.

Lemma dial_rejects_fingerprint_mismatch_witness :
  fst (authenticateWebTransport Samples.listenerReportsY [Samples.digestX])
  = Throw notSubsetError
  ∧ dial Samples.decodeCerthashStr Samples.peerIdFromString
         Samples.defaultTransport Samples.addressWithX Samples.listenerReportsY
    = (Throw notSubsetError,
       [NewWebTransport "https://127.0.0.1:4001/.well-known/libp2p-webtransport?type=noise"
                        [[1; 2; 3]%Z];
        CreateBidirectionalStream; AuthWriterClose; AuthReaderCancel; WtClose]).
Proof.
  apply (dial_rejects_fingerprint_mismatch
           Samples.decodeCerthashStr Samples.peerIdFromString
           Samples.defaultTransport Samples.localPeer Samples.addressWithX
           (mkParsed "https://127.0.0.1:4001" [Samples.digestX]
                     (Some {| peerIdText := "12D3KooWRemote" |}))
           Samples.listenerReportsY 0 (Some [bytes Samples.digestY]));
    try reflexivity.
  - discriminate.
  - intros H. destruct (H (bytes Samples.digestX)) as (a & Ha & Heq).
    + apply list_elem_of_singleton. reflexivity.
    + apply list_elem_of_singleton in Ha. subst a.
      destruct Heq as [_ Hix]. specialize (Hix 2%nat). cbn in Hix.
      assert (Some 1%Z = Some 4%Z) as Habs by (apply Hix; lia). discriminate Habs.
Defined.

Lemma authentication_accepts_without_fingerprints_witness :
  p_certhashes (mkParsed "https://127.0.0.1:4001" []
                         (Some {| peerIdText := "12D3KooWRemote" |})) = []
  ∧ Utils.isSubset [bytes Samples.digestY] [] = true
  ∧ authenticateWebTransport Samples.listenerReportsY []
    = (Ok true, [CreateBidirectionalStream; AuthWriterClose; AuthReaderCancel]).
Proof.
  apply (authentication_accepts_without_fingerprints
           Samples.decodeCerthashStr Samples.peerIdFromString
           Samples.addressWithoutCerthash
           (mkParsed "https://127.0.0.1:4001" []
                     (Some {| peerIdText := "12D3KooWRemote" |}))
           Samples.listenerReportsY 0 (Some [bytes Samples.digestY]));
    try reflexivity.
  intros part Hpart.
  repeat (apply elem_of_cons in Hpart as [-> | Hpart]; [discriminate |]).
  by apply elem_of_nil in Hpart.
Defined.

End DialFacts.

(** ** The stream muxer *)

Module MuxerFacts.
Import Muxer Spec.

(** *** Counting *)

Lemma countIf_app (p : Effect → bool) (a b : list Effect) :
  countIf p (a ++ b) = (countIf p a + countIf p b)%nat.
Proof. unfold countIf. by rewrite List.filter_app, length_app. Qed.

Lemma countIf_native (p : Effect → bool) (es : list Effect) :
  (∀ e, p e = true → bookkeeping e = true) →
  forallb (λ e, negb (bookkeeping e)) es = true →
  countIf p es = 0%nat.
Proof.
  intros Hp. unfold countIf. induction es as [| e es IH]; [done |].
  cbn. intros [He Hes]%andb_true_iff. destruct (p e) eqn:Hpe.
  - apply Hp in Hpe. by rewrite Hpe in He.
  - by apply IH.
Qed.

Lemma occ_app (r : nat) (a b : list nat) : occ r (a ++ b) = (occ r a + occ r b)%nat.
Proof. unfold occ. by rewrite List.filter_app, length_app. Qed.

Lemma occ_cons (r x : nat) (l : list nat) :
  occ r (x :: l) = ((if bool_decide (x = r) then 1 else 0) + occ r l)%nat.
Proof.
  unfold occ. cbn. destruct (Nat.eqb_spec r x) as [-> | Hne].
  - by rewrite bool_decide_eq_true_2.
  - by rewrite bool_decide_eq_false_2 by congruence.
Qed.

Lemma occ_zero (r : nat) (l : list nat) : occ r l = 0%nat ↔ r ∉ l.
Proof.
  induction l as [| x l IH]; [by split; [intros _ ?%elem_of_nil |] |].
  rewrite occ_cons, not_elem_of_cons. case_bool_decide; subst.
  - split; [lia | intros [? _]; done].
  - rewrite <- IH. split; [intros H0; split; [congruence | lia] | intros [_ H0]; lia].
Qed.

Lemma occ_pos (r : nat) (l : list nat) : (0 < occ r l)%nat ↔ r ∈ l.
Proof.
  destruct (decide (r ∈ l)) as [Hin | Hnin].
  - split; [done |]. intros _. destruct (occ r l) eqn:Hocc; [| lia].
    by apply occ_zero in Hocc.
  - apply occ_zero in Hnin as Hz. rewrite Hz. split; [lia | done].
Qed.

Lemma findIndex_None (r : nat) (l : list nat) : findIndex r l = None ↔ r ∉ l.
Proof.
  induction l as [| x l IH]; [by split; [intros _ ?%elem_of_nil |] |].
  cbn. rewrite not_elem_of_cons. case_bool_decide; subst.
  - split; [done | intros [? _]; done].
  - destruct (findIndex r l); cbn.
    + split; [done |]. intros [_ Hn]. by apply IH in Hn.
    + split; [| done]. intros _. split; [congruence | by apply IH].
Qed.

Lemma findIndex_delete (r : nat) (l : list nat) (index : nat) :
  findIndex r l = Some index →
  ∀ r', occ r' l = ((if bool_decide (r' = r) then 1 else 0) + occ r' (delete index l))%nat.
Proof.
  revert index. induction l as [| x l IH]; intros index; [done |].
  cbn [findIndex]. case_bool_decide as Hx.
  - intros [= <-] r'. subst x. cbn [delete list_delete]. rewrite occ_cons.
    destruct (decide (r' = r)) as [-> | Hne].
    + by rewrite !bool_decide_eq_true_2.
    + by rewrite !bool_decide_eq_false_2 by congruence.
  - destruct (findIndex r l) as [i |] eqn:Hfind; [| done].
    intros Heq r'. cbn in Heq. injection Heq as <-.
    change (delete (S i) (x :: l)) with (x :: delete i l). rewrite !occ_cons.
    rewrite (IH i eq_refl r'). lia.
Qed.

Lemma elem_of_delete (r : nat) (l : list nat) (index : nat) :
  r ∈ delete index l → r ∈ l.
Proof.
  revert index. induction l as [| x l IH]; intros [| index]; cbn; try done.
  - by right.
  - intros [-> | H]%elem_of_cons; [by left | right; by eapply IH].
Qed.

(** *** The three primitive updates *)

Section WithInit.
Variable init : option StreamMuxerInit.

Local Abbreviation Inv := (Inv init).
Local Abbreviation cleanup := (cleanupStreamFromActiveStreams init).

Lemma Ext_refl (s : State) : Ext s s.
Proof. by split. Qed.

Lemma flag_upd_set (f : Stream → bool) (g : Stream → Stream) (r : nat) (s : State) :
  is_Some (streams s !! r) → (∀ c, f (g c) = true) → flag f r (upd r g s) = true.
Proof.
  intros [c Hc] Hfg. unfold flag, upd. cbn. rewrite lookup_alter_eq, Hc. cbn. apply Hfg.
Qed.

Lemma flag_upd_mono (f : Stream → bool) (g : Stream → Stream) (r r' : nat) (s : State) :
  (∀ c, f c = true → f (g c) = true) →
  flag f r' s = true → flag f r' (upd r g s) = true.
Proof.
  intros Hfg. unfold flag, upd. cbn.
  destruct (decide (r = r')) as [-> | Hne].
  - rewrite lookup_alter_eq. destruct (streams s !! r'); cbn; [apply Hfg | done].
  - by rewrite lookup_alter_ne.
Qed.

Lemma flag_upd_ne (f : Stream → bool) (g : Stream → Stream) (r r' : nat) (s : State) :
  r ≠ r' → flag f r' (upd r g s) = flag f r' s.
Proof. intros Hne. unfold flag, upd. cbn. by rewrite lookup_alter_ne. Qed.

Lemma flag_upd_same (f : Stream → bool) (g : Stream → Stream) (r r' : nat) (s : State) :
  (∀ c, f (g c) = f c) → flag f r' (upd r g s) = flag f r' s.
Proof.
  intros Hfg. unfold flag, upd. cbn.
  destruct (decide (r = r')) as [-> | Hne].
  - rewrite lookup_alter_eq. destruct (streams s !! r'); cbn; [apply Hfg | done].
  - by rewrite lookup_alter_ne.
Qed.

Lemma flag_cleanup (f : Stream → bool) (r r' : nat) (now : Z) (s : State) :
  (∀ c t, f (set_timeline_close t c) = f c) →
  flag f r' (cleanup r now s) = flag f r' s.
Proof.
  intros Hf. unfold cleanupStreamFromActiveStreams.
  destruct (findIndex r (activeStreams s)); [| done].
  destruct (has_onStreamEnd init); unfold flag; cbn;
    (destruct (decide (r = r')) as [-> | Hne];
     [rewrite lookup_alter_eq; destruct (streams s !! r'); cbn; [apply Hf | done]
     | by rewrite lookup_alter_ne]).
Qed.

Lemma adjacent_app (es es' : list Effect) :
  adjacent init es → forallb (λ e, negb (bookkeeping e)) es' = true →
  adjacent init (es ++ es').
Proof.
  intros Hadj Hes i r rc wc Hi.
  destruct (decide (i < length es)%nat) as [Hlt | Hge].
  - rewrite lookup_app_l in Hi by done. destruct (Hadj i r rc wc Hi) as [[t Ht] Hn].
    split.
    + exists t. by apply lookup_app_l_Some.
    + intros Hb. by apply lookup_app_l_Some, Hn.
  - rewrite lookup_app_r in Hi by lia. rewrite forallb_forall in Hes.
    apply list_elem_of_lookup_2, list_elem_of_In, Hes in Hi. done.
Qed.

Lemma adjacent_cleanup (es : list Effect) (r : nat) (rc wc : bool) (now : Z) :
  adjacent init es →
  adjacent init (es ++ [Spliced r rc wc; StampedClose r now]
                    ++ (if has_onStreamEnd init then [OnStreamEnd r] else [])).
Proof.
  intros Hadj i r' rc' wc' Hi.
  destruct (decide (i < length es)%nat) as [Hlt | Hge].
  - rewrite lookup_app_l in Hi by done. destruct (Hadj i r' rc' wc' Hi) as [[t Ht] Hn].
    split.
    + exists t. by apply lookup_app_l_Some.
    + intros Hb. by apply lookup_app_l_Some, Hn.
  - rewrite lookup_app_r in Hi by lia.
    rewrite (lookup_app_r es _ (S i)), (lookup_app_r es _ (S (S i))) by lia.
    replace (S i - length es)%nat with (S (i - length es)) by lia.
    replace (S (S i) - length es)%nat with (S (S (i - length es))) by lia.
    destruct (i - length es)%nat as [| [| [| k]]]; destruct (has_onStreamEnd init);
      cbn in Hi; try done; injection Hi as <- <- <-; cbn; split; eauto; done.
Qed.

Lemma step_emit (es : list Effect) (s0 s : State) :
  forallb (λ e, negb (bookkeeping e)) es = true →
  Inv s → Ext s0 s → Inv (emit es s) ∧ Ext s0 (emit es s).
Proof.
  intros Hes [I1 I2 I3 I4 I5 I6 I7 I8] [E1 E2 E3 E4 E5 E6 E7].
  assert (Hc : ∀ p, (∀ e, p e = true → bookkeeping e = true) →
               countIf p (effects (emit es s)) = countIf p (effects s)).
  { intros p Hp. change (effects (emit es s)) with (effects s ++ es).
    rewrite countIf_app, (countIf_native p es Hp Hes). lia. }
  assert (Hr : ∀ r, removals r (emit es s) = removals r s).
  { intros r. apply Hc. by intros []. }
  assert (Hs : ∀ r, stamps r (emit es s) = stamps r s).
  { intros r. apply Hc. by intros []. }
  assert (Hn : ∀ r, notifications r (emit es s) = notifications r s).
  { intros r. apply Hc. by intros []. }
  split; [| by split].
  split; [idtac .. | by apply adjacent_app]; intros r; rewrite ?Hr, ?Hs, ?Hn; try done.
  - apply (I1 r).
  - apply (I2 r).
  - apply (I3 r).
  - intros rc wc [Hin | Hin]%elem_of_app; [by eapply I4 |].
    exfalso. rewrite forallb_forall in Hes.
    apply list_elem_of_In, Hes in Hin. done.
  - intros c. apply (I7 r c).
Qed.

Lemma step_upd (g : Stream → Stream) (r : nat) (s0 s : State) :
  (∀ c, timeline_close (g c) = timeline_close c) →
  (∀ c, readerClosed c = true → readerClosed (g c) = true) →
  (∀ c, writerClosed c = true → writerClosed (g c) = true) →
  Inv s → Ext s0 s → Inv (upd r g s) ∧ Ext s0 (upd r g s).
Proof.
  intros Ht Hrc Hwc [I1 I2 I3 I4 I5 I6 I7 I8] [E1 E2 E3 E4 E5 E6 E7].
  assert (Hdom : ∀ r', is_Some (streams (upd r g s) !! r') ↔ is_Some (streams s !! r')).
  { intros r'. cbn. destruct (decide (r = r')) as [-> | Hne].
    - rewrite lookup_alter_eq. by rewrite fmap_is_Some.
    - by rewrite lookup_alter_ne. }
  split.
  - split; try done.
    + intros r' Hr'. destruct (I2 r' Hr') as (? & ? & Hnone). repeat split; try done.
      apply eq_None_not_Some. rewrite Hdom. by rewrite Hnone; intros [? ?].
    + intros r' Hr'. apply Hdom. by apply I3.
    + intros r' c. cbn. destruct (decide (r = r')) as [-> | Hne].
      * rewrite lookup_alter_eq. destruct (streams s !! r') as [c0 |] eqn:Hc0; [| done].
        cbn. intros [= <-]. rewrite Ht. by apply I7.
      * rewrite lookup_alter_ne by done. apply I7.
  - split; try done.
    + intros r'. rewrite Hdom. apply E2.
    + intros r' Hr'. apply flag_upd_mono; [done | by apply E5].
    + intros r' Hr'. apply flag_upd_mono; [done | by apply E6].
Qed.

Lemma cleanup_absent (r : nat) (now : Z) (s : State) :
  r ∉ activeStreams s → cleanup r now s = s.
Proof.
  intros Hnin. unfold cleanupStreamFromActiveStreams.
  by rewrite (proj2 (findIndex_None r _) Hnin).
Qed.

Lemma cleanup_fields (r : nat) (now : Z) (s : State) (index : nat) :
  findIndex r (activeStreams s) = Some index →
  cleanup r now s
  = mkState (streamIDCounter s) (nextRef s)
            (alter (set_timeline_close now) r (streams s))
            (delete index (activeStreams s)) (loop s) (pendingNew s)
            (effects s
             ++ [Spliced r (flag readerClosed r s) (flag writerClosed r s);
                 StampedClose r now]
             ++ (if has_onStreamEnd init then [OnStreamEnd r] else [])).
Proof.
  intros Hfind. unfold cleanupStreamFromActiveStreams. rewrite Hfind.
  destruct (has_onStreamEnd init); unfold emit, upd, set_activeStreams; cbn;
    by rewrite <- ?app_assoc.
Qed.

Lemma counts_cleanup (r r' : nat) (rc wc b : bool) (now : Z) :
  let es := [Spliced r rc wc; StampedClose r now] ++ (if b then [OnStreamEnd r] else []) in
  countIf (isSpliced r') es = (if bool_decide (r' = r) then 1 else 0)%nat
  ∧ countIf (isStamped r') es = (if bool_decide (r' = r) then 1 else 0)%nat
  ∧ countIf (isEnded r') es
    = (if b then if bool_decide (r' = r) then 1 else 0 else 0)%nat.
Proof.
  unfold countIf. destruct b; cbn;
    (destruct (Nat.eqb_spec r r') as [-> | Hne];
     [rewrite bool_decide_eq_true_2 by done
     | rewrite bool_decide_eq_false_2 by congruence]); done.
Qed.

Lemma step_cleanup (r : nat) (now : Z) (s0 s : State) :
  flag readerClosed r s = true → flag writerClosed r s = true →
  Inv s → Ext s0 s →
  Inv (cleanup r now s) ∧ Ext s0 (cleanup r now s) ∧ r ∉ activeStreams (cleanup r now s).
Proof.
  intros Hrc Hwc HI HE.
  destruct (findIndex r (activeStreams s)) as [index |] eqn:Hfind; cycle 1.
  { apply findIndex_None in Hfind. by rewrite cleanup_absent. }
  rewrite (cleanup_fields _ _ _ _ Hfind). rewrite Hrc, Hwc.
  pose proof (findIndex_delete _ _ _ Hfind) as Hocc.
  destruct HI as [I1 I2 I3 I4 I5 I6 I7 I8]. destruct HE as [E1 E2 E3 E4 E5 E6 E7].
  set (es := [Spliced r true true; StampedClose r now]
             ++ (if has_onStreamEnd init then [OnStreamEnd r] else [])).
  set (s' := mkState _ _ _ _ _ _ _).
  assert (Hlive : ∀ r', occ r' (live s)
                  = ((if bool_decide (r' = r) then 1 else 0) + occ r' (live s'))%nat).
  { intros r'. unfold live. subst s'. cbn [activeStreams pendingNew].
    rewrite !occ_app, (Hocc r').
    change (wrapping (mkState _ _ _ _ _ _ _)) with (wrapping s). lia. }
  assert (Hrem : ∀ r', removals r' s'
                 = (removals r' s + if bool_decide (r' = r) then 1 else 0)%nat).
  { intros r'. unfold removals. subst s'. cbn [effects]. unfold es. rewrite countIf_app.
    by rewrite (proj1 (counts_cleanup r r' true true _ now)). }
  assert (Hst : ∀ r', stamps r' s'
                = (stamps r' s + if bool_decide (r' = r) then 1 else 0)%nat).
  { intros r'. unfold stamps. subst s'. cbn [effects]. unfold es. rewrite countIf_app.
    by rewrite (proj1 (proj2 (counts_cleanup r r' true true _ now))). }
  assert (Hnt : ∀ r', notifications r' s'
                = (notifications r' s
                   + if has_onStreamEnd init
                     then if bool_decide (r' = r) then 1 else 0 else 0)%nat).
  { intros r'. unfold notifications. subst s'. cbn [effects]. unfold es. rewrite countIf_app.
    by rewrite (proj2 (proj2 (counts_cleanup r r' true true _ now))). }
  assert (Hlt : (r < nextRef s)%nat).
  { destruct (decide (r < nextRef s)%nat) as [? | Hge]; [done |].
    destruct (I2 r ltac:(lia)) as (Hz & _ & _).
    specialize (Hlive r). rewrite bool_decide_eq_true_2 in Hlive by done. lia. }
  assert (Hgone : r ∉ delete index (activeStreams s)).
  { apply occ_zero. specialize (I1 r Hlt). specialize (Hlive r).
    rewrite bool_decide_eq_true_2 in Hlive by done.
    assert (occ r (live s') = 0)%nat as Hz by lia.
    unfold live in Hz. subst s'. cbn [activeStreams] in Hz.
    rewrite occ_app in Hz. lia. }
  assert (Hdom : ∀ r', is_Some (streams s' !! r') ↔ is_Some (streams s !! r')).
  { intros r'. subst s'. cbn [streams]. destruct (decide (r = r')) as [-> | Hne].
    - rewrite lookup_alter_eq. by rewrite fmap_is_Some.
    - by rewrite lookup_alter_ne. }
  split; [| split]; [| | done].
  - split.
    + intros r' Hr'. specialize (I1 r' Hr'). rewrite Hrem. specialize (Hlive r'). lia.
    + intros r' Hr'. destruct (I2 r' Hr') as (Hz & Hr0 & Hnone).
      assert (r' ≠ r) as Hne by (change (nextRef s') with (nextRef s) in Hr'; lia).
      rewrite Hrem. specialize (Hlive r').
      rewrite bool_decide_eq_false_2 in * by done.
      repeat split; [lia | lia |].
      apply eq_None_not_Some. rewrite Hdom, Hnone. by intros [? ?].
    + intros r' Hr'. apply Hdom. by apply I3.
    + intros r' rc wc. subst s'. cbn [effects]. rewrite elem_of_app.
      intros [Hin | Hin]; [by eapply I4 |]. subst es.
      destruct (has_onStreamEnd init); cbn in Hin;
        repeat (apply elem_of_cons in Hin as [Hin | Hin]; [by simplify_eq |]);
        by apply elem_of_nil in Hin.
    + intros r'. rewrite Hst, Hrem, I5. done.
    + intros r'. rewrite Hnt, Hrem, I6. by destruct (has_onStreamEnd init).
    + intros r' c. subst s'. cbn [streams]. intros Hc.
      rewrite Hrem. destruct (decide (r = r')) as [-> | Hne].
      * rewrite lookup_alter_eq in Hc. rewrite bool_decide_eq_true_2 by done.
        destruct (streams s !! r'); [| done]. cbn in Hc. injection Hc as <-. cbn.
        split; [done | lia].
      * rewrite lookup_alter_ne in Hc by done.
        rewrite bool_decide_eq_false_2 by congruence.
        rewrite Nat.add_0_r. by apply I7.
    + subst s' es. cbn [effects]. by apply adjacent_cleanup.
  - split; try done.
    + intros r'. rewrite Hdom. apply E2.
    + intros r' Hr'. apply E5 in Hr'. revert Hr'. subst s'. unfold flag. cbn [streams].
      destruct (decide (r = r')) as [-> | Hne].
      * rewrite lookup_alter_eq. by destruct (streams s !! r').
      * by rewrite lookup_alter_ne.
    + intros r' Hr'. apply E6 in Hr'. revert Hr'. subst s'. unfold flag. cbn [streams].
      destruct (decide (r = r')) as [-> | Hne].
      * rewrite lookup_alter_eq. by destruct (streams s !! r').
      * by rewrite lookup_alter_ne.
    + intros r' Hr'. apply E7. subst s'. cbn [activeStreams] in Hr'.
      by eapply elem_of_delete.
Qed.

(** *** The operations of one stream *)

Lemma Ext_trans (s1 s2 s3 : State) : Ext s1 s2 → Ext s2 s3 → Ext s1 s3.
Proof.
  intros [A1 A2 A3 A4 A5 A6 A7] [B1 B2 B3 B4 B5 B6 B7]. split.
  - congruence.
  - intros r. by rewrite B2.
  - congruence.
  - congruence.
  - auto.
  - auto.
  - auto.
Qed.

Lemma set_readerClosed_good (r : nat) (s0 s : State) :
  Inv s → Ext s0 s → Inv (upd r set_readerClosed s) ∧ Ext s0 (upd r set_readerClosed s).
Proof. apply step_upd; by intros []. Qed.

Lemma set_writerClosed_good (r : nat) (s0 s : State) :
  Inv s → Ext s0 s → Inv (upd r set_writerClosed s) ∧ Ext s0 (upd r set_writerClosed s).
Proof. apply step_upd; by intros []. Qed.

Lemma guarded_cleanup_reader (r : nat) (now : Z) (s0 s : State) :
  flag readerClosed r s = true → Inv s → Ext s0 s →
  let s' := if flag writerClosed r s then cleanup r now s else s in
  Inv s' ∧ Ext s0 s' ∧ flag readerClosed r s' = true
  ∧ (flag writerClosed r s = true → r ∉ activeStreams s').
Proof.
  intros Hrc HI HE. destruct (flag writerClosed r s) eqn:Hwc; cbn zeta.
  - destruct (step_cleanup r now s0 s Hrc Hwc HI HE) as (? & ? & ?).
    split_and!; try done. rewrite flag_cleanup; [done | by intros []].
  - by split_and!.
Qed.

Lemma guarded_cleanup_writer (r : nat) (now : Z) (s0 s : State) :
  flag writerClosed r s = true → Inv s → Ext s0 s →
  let s' := if flag readerClosed r s then cleanup r now s else s in
  Inv s' ∧ Ext s0 s' ∧ flag writerClosed r s' = true
  ∧ (flag readerClosed r s = true → r ∉ activeStreams s').
Proof.
  intros Hwc HI HE. destruct (flag readerClosed r s) eqn:Hrc; cbn zeta.
  - destruct (step_cleanup r now s0 s Hrc Hwc HI HE) as (? & ? & ?).
    split_and!; try done. rewrite flag_cleanup; [done | by intros []].
  - by split_and!.
Qed.

Lemma closeRead_good (r : nat) (now : Z) (s : State) :
  is_Some (streams s !! r) → Inv s →
  let s' := closeRead init r now s in
  Inv s' ∧ Ext s s' ∧ flag readerClosed r s' = true
  ∧ (flag writerClosed r s = true → r ∉ activeStreams s').
Proof.
  intros Hal HI. unfold closeRead.
  destruct (flag readerClosed r s) eqn:Hrc; cbn [negb].
  - apply guarded_cleanup_reader; [done | done | apply Ext_refl].
  - set (s1 := upd r set_readerClosed (emit [ReaderCancel (nativeOf r s)] s)).
    destruct (step_emit [ReaderCancel (nativeOf r s)] s s eq_refl HI (Ext_refl s))
      as [HI0 HE0].
    destruct (set_readerClosed_good r s _ HI0 HE0) as [HI1 HE1]. fold s1 in HI1, HE1.
    assert (flag readerClosed r s1 = true) as Hrc1 by (by apply flag_upd_set).
    assert (flag writerClosed r s1 = flag writerClosed r s) as Hwc1
      by (subst s1; by rewrite flag_upd_same).
    pose proof (guarded_cleanup_reader r now s s1 Hrc1 HI1 HE1) as Hg. cbn zeta in Hg.
    by rewrite Hwc1 in *.
Qed.

Lemma sourceEnd_good (r : nat) (now : Z) (s : State) :
  is_Some (streams s !! r) → Inv s →
  let s' := sourceEnd init r now s in
  Inv s' ∧ Ext s s' ∧ flag readerClosed r s' = true
  ∧ (flag writerClosed r s = true → r ∉ activeStreams s').
Proof.
  intros Hal HI. unfold sourceEnd.
  set (s1 := upd r set_readerClosed s).
  destruct (set_readerClosed_good r s _ HI (Ext_refl s)) as [HI1 HE1]. fold s1 in HI1, HE1.
  assert (flag readerClosed r s1 = true) as Hrc1 by (by apply flag_upd_set).
  assert (flag writerClosed r s1 = flag writerClosed r s) as Hwc1
    by (subst s1; by rewrite flag_upd_same).
  pose proof (guarded_cleanup_reader r now s s1 Hrc1 HI1 HE1) as Hg. cbn zeta in Hg.
  by rewrite Hwc1 in *.
Qed.

Lemma closeWrite_good (r : nat) (now : Z) (s : State) :
  is_Some (streams s !! r) → Inv s →
  let s' := closeWrite init r now s in
  Inv s' ∧ Ext s s' ∧ flag writerClosed r s' = true
  ∧ (flag readerClosed r s = true → r ∉ activeStreams s').
Proof.
  intros Hal HI. unfold closeWrite.
  destruct (flag writerClosed r s) eqn:Hwc; cbn [negb].
  - apply guarded_cleanup_writer; [done | done | apply Ext_refl].
  - set (s1 := emit [WriterClose (nativeOf r s)] (upd r set_writerClosed s)).
    destruct (set_writerClosed_good r s _ HI (Ext_refl s)) as [HI0 HE0].
    destruct (step_emit [WriterClose (nativeOf r s)] s _ eq_refl HI0 HE0) as [HI1 HE1].
    fold s1 in HI1, HE1.
    assert (flag writerClosed r s1 = true) as Hwc1
      by (subst s1; change (flag writerClosed r (upd r set_writerClosed s) = true);
          by apply flag_upd_set).
    assert (flag readerClosed r s1 = flag readerClosed r s) as Hrc1
      by (subst s1; change (flag readerClosed r (upd r set_writerClosed s) = flag readerClosed r s);
          by rewrite flag_upd_same).
    pose proof (guarded_cleanup_writer r now s s1 Hwc1 HI1 HE1) as Hg. cbn zeta in Hg.
    by rewrite Hrc1 in *.
Qed.

Lemma close_good (r : nat) (now : Z) (s : State) :
  is_Some (streams s !! r) → Inv s →
  let s' := close init r now s in
  Inv s' ∧ Ext s s' ∧ flag readerClosed r s' = true ∧ flag writerClosed r s' = true
  ∧ r ∉ activeStreams s'.
Proof.
  intros Hal HI. unfold close.
  destruct (closeRead_good r now s Hal HI) as (HI1 & HE1 & Hrc1 & _).
  set (s1 := closeRead init r now s) in *.
  assert (is_Some (streams s1 !! r)) as Hal1 by (by apply (ext_dom _ _ HE1)).
  destruct (closeWrite_good r now s1 Hal1 HI1) as (HI2 & HE2 & Hwc2 & _).
  set (s2 := closeWrite init r now s1) in *.
  assert (flag readerClosed r s2 = true) as Hrc2 by (by apply (ext_reader _ _ HE2)).
  destruct (step_cleanup r now s s2 Hrc2 Hwc2 HI2 (Ext_trans _ _ _ HE1 HE2))
    as (HI3 & HE3 & Hgone).
  split_and!; try done; rewrite flag_cleanup; try done; by intros [].
Qed.

Lemma abort_good (r : nat) (now : Z) (s : State) :
  is_Some (streams s !! r) → Inv s →
  let s' := abort init r now s in
  Inv s' ∧ Ext s s' ∧ flag readerClosed r s' = true ∧ flag writerClosed r s' = true
  ∧ r ∉ activeStreams s'.
Proof.
  intros Hal HI. unfold abort.
  set (s1 := if negb (flag writerClosed r s)
             then upd r set_writerClosed (emit [WriterAbort (nativeOf r s)] s) else s).
  assert (Inv s1 ∧ Ext s s1 ∧ flag writerClosed r s1 = true) as (HI1 & HE1 & Hwc1).
  { subst s1. destruct (flag writerClosed r s) eqn:Hwc; cbn [negb].
    - split_and!; [done | apply Ext_refl | done].
    - destruct (step_emit [WriterAbort (nativeOf r s)] s s eq_refl HI (Ext_refl s))
        as [HI0 HE0].
      destruct (set_writerClosed_good r s _ HI0 HE0) as [HI1 HE1].
      split_and!; try done. by apply flag_upd_set. }
  assert (is_Some (streams s1 !! r)) as Hal1 by (by apply (ext_dom _ _ HE1)).
  destruct (closeRead_good r now s1 Hal1 HI1) as (HI2 & HE2 & Hrc2 & _).
  set (s2 := closeRead init r now s1) in *.
  destruct (set_readerClosed_good r s _ HI2 (Ext_trans _ _ _ HE1 HE2)) as [HI3 HE3].
  set (s3 := upd r set_readerClosed s2) in *.
  assert (flag readerClosed r s3 = true) as Hrc3
    by (subst s3; apply flag_upd_mono; [by intros [] | done]).
  assert (flag writerClosed r s3 = true) as Hwc3.
  { subst s3. apply flag_upd_mono; [by intros [] |]. by apply (ext_writer _ _ HE2). }
  destruct (step_cleanup r now s s3 Hrc3 Hwc3 HI3 HE3) as (HI4 & HE4 & Hgone).
  split_and!; try done; rewrite flag_cleanup; try done; by intros [].
Qed.

Lemma onWriterClosed_good (r : nat) (now : Z) (s : State) :
  Inv s → Inv (onWriterClosed init r now s) ∧ Ext s (onWriterClosed init r now s).
Proof.
  intros HI. unfold onWriterClosed.
  destruct (set_writerClosed_good r s _ HI (Ext_refl s)) as [HI1 HE1].
  set (s1 := upd r set_writerClosed s) in *.
  destruct (flag writerClosed r s1) eqn:Hwc, (flag readerClosed r s1) eqn:Hrc;
    cbn [andb]; try done.
  by destruct (step_cleanup r now s s1 Hrc Hwc HI1 HE1) as (? & ? & _).
Qed.

Lemma onReaderClosed_good (r : nat) (now : Z) (s : State) :
  Inv s → Inv (onReaderClosed init r now s) ∧ Ext s (onReaderClosed init r now s).
Proof.
  intros HI. unfold onReaderClosed.
  destruct (set_readerClosed_good r s _ HI (Ext_refl s)) as [HI1 HE1].
  set (s1 := upd r set_readerClosed s) in *.
  destruct (flag writerClosed r s1) eqn:Hwc, (flag readerClosed r s1) eqn:Hrc;
    cbn [andb]; try done.
  by destruct (step_cleanup r now s s1 Hrc Hwc HI1 HE1) as (? & ? & _).
Qed.

(** *** Allocation and the moves into the active set *)

Lemma rearrange_Inv (s s' : State) (es : list Effect) :
  Inv s →
  nextRef s' = nextRef s → streams s' = streams s →
  effects s' = effects s ++ es → forallb (λ e, negb (bookkeeping e)) es = true →
  (∀ r, occ r (live s') = occ r (live s)) →
  Inv s'.
Proof.
  intros HI Hn Hs He Hes Hl.
  destruct (step_emit es s s Hes HI (Ext_refl s)) as [[I1 I2 I3 I4 I5 I6 I7 I8] _].
  assert (Hc : ∀ p, countIf p (effects s') = countIf p (effects (emit es s)))
    by (intros p; by rewrite He).
  split; [idtac .. | by rewrite He]; unfold removals, stamps, notifications in *; intros r;
    rewrite ?Hc, ?Hn, ?Hs, ?Hl, ?He.
  - apply (I1 r).
  - apply (I2 r).
  - apply (I3 r).
  - apply (I4 r).
  - apply (I5 r).
  - apply (I6 r).
  - apply (I7 r).
Qed.

Lemma alloc_Inv (s s' : State) (c : Stream) :
  Inv s →
  nextRef s' = S (nextRef s) → streams s' = <[nextRef s := c]> (streams s) →
  timeline_close c = None →
  effects s' = effects s →
  (∀ r, occ r (live s')
        = ((if bool_decide (r = nextRef s) then 1 else 0) + occ r (live s))%nat) →
  Inv s'.
Proof.
  intros [I1 I2 I3 I4 I5 I6 I7 I8] Hn Hs Hc He Hl.
  split; [idtac .. | by rewrite He]; unfold removals, stamps, notifications in *; intros r;
    rewrite ?Hn, ?Hs, ?Hl, ?He.
  - intros Hr. case_bool_decide as Heq.
    + subst r. destruct (I2 (nextRef s) ltac:(lia)) as (-> & Hz & _).
      unfold removals in Hz. lia.
    + apply (I1 r). lia.
  - intros Hr. rewrite bool_decide_eq_false_2 by lia.
    destruct (I2 r ltac:(lia)) as (? & ? & ?). split_and!; try done.
    rewrite lookup_insert_ne by lia. done.
  - intros Hr. destruct (decide (r = nextRef s)) as [-> | Hne].
    + rewrite lookup_insert_eq. by eexists.
    + rewrite lookup_insert_ne by done. apply I3. lia.
  - apply (I4 r).
  - apply (I5 r).
  - apply (I6 r).
  - intros c0. destruct (decide (r = nextRef s)) as [-> | Hne].
    + rewrite lookup_insert_eq. intros [= <-].
      destruct (I2 (nextRef s) ltac:(lia)) as (_ & Hz & _). done.
    + rewrite lookup_insert_ne by done. apply (I7 r).
Qed.

Lemma occ_singleton (r x : nat) :
  occ r [x] = (if bool_decide (r = x) then 1 else 0)%nat.
Proof.
  rewrite occ_cons. unfold occ. cbn.
  destruct (decide (r = x)) as [-> | Hne].
  - by rewrite !bool_decide_eq_true_2.
  - by rewrite !bool_decide_eq_false_2 by congruence.
Qed.

Lemma occ_filter_ne (r x : nat) (l : list nat) :
  occ r (List.filter (λ y, negb (y =? x)%nat) l)
  = (if bool_decide (r = x) then 0 else occ r l)%nat.
Proof.
  induction l as [| y l IH]; [by case_bool_decide |].
  cbn [List.filter]. destruct (Nat.eqb_spec y x) as [-> | Hne]; cbn [negb].
  - rewrite IH, occ_cons. case_bool_decide as Heq; [done |].
    by rewrite bool_decide_eq_false_2 by congruence.
  - rewrite !occ_cons, IH. case_bool_decide as Heq; [| done].
    subst r. by rewrite bool_decide_eq_false_2 by done.
Qed.

Lemma Inv_initial (counter : nat) (l : LoopState) (es : list Effect) :
  (∀ r, l ≠ LoopWrapping r) →
  forallb (λ e, negb (bookkeeping e)) es = true →
  Inv (mkState counter 0 ∅ [] l [] es).
Proof.
  intros Hl Hes.
  assert (Hz : ∀ p, (∀ e, p e = true → bookkeeping e = true) → countIf p es = 0%nat)
    by (intros p Hp; by apply countIf_native).
  assert (Hw : wrapping (mkState counter 0 ∅ [] l [] es) = []).
  { unfold wrapping. cbn. destruct l; try done. by destruct (Hl r). }
  assert (Hadj : adjacent init es).
  { intros i r rc wc Hi. rewrite forallb_forall in Hes.
    apply list_elem_of_lookup_2, list_elem_of_In, Hes in Hi. done. }
  split; [idtac .. | done]; unfold removals, stamps, notifications, live; cbn [effects nextRef streams
    activeStreams pendingNew]; rewrite ?Hw; intros r.
  - lia.
  - intros _. split_and!; [done | apply Hz; by intros [] | done].
  - lia.
  - intros rc wc Hin. rewrite forallb_forall in Hes.
    apply list_elem_of_In, Hes in Hin. done.
  - rewrite !Hz; [done | by intros [] | by intros []].
  - rewrite !Hz; [by destruct (has_onStreamEnd init) | by intros [] | by intros []].
  - intros c Hc. by rewrite lookup_empty in Hc.
Qed.

End WithInit.

(** *** Every step keeps the invariant *)

Section WithConfig.
Variable config : WebTransportMuxerInit.
Variable init : option StreamMuxerInit.

Local Abbreviation Inv := (Inv init).
Local Abbreviation step := (step config init).
Local Abbreviation run := (run config init).

Ltac fields :=
  unfold live, wrapping, set_pendingNew, set_activeStreams, set_loop, emit, upd, bump;
  cbn [activeStreams pendingNew loop effects streams nextRef streamIDCounter].

Lemma handedOut_allocated (r : nat) (s : State) :
  handedOut r s = true → is_Some (streams s !! r).
Proof.
  unfold handedOut, allocated. intros [[Hal _]%andb_true_iff _]%andb_true_iff.
  by apply bool_decide_eq_true in Hal.
Qed.

Lemma guard_Some (b : bool) (s s' : State) : guard b s = Some s' → b = true ∧ s' = s.
Proof. destruct b; cbn; [by intros [= <-] | done]. Qed.

Lemma newStream_wrap_Inv (h : nat) (readyOk : bool) (now : Z) (s : State) :
  Inv s → Inv (snd (newStream_wrap init h readyOk now s)).
Proof.
  intros HI. unfold newStream_wrap. destruct readyOk; cbn.
  - eapply (alloc_Inv init s); [done | reflexivity | reflexivity | reflexivity | reflexivity |].
    intros r. fields. rewrite !occ_app, occ_singleton. lia.
  - by apply (rearrange_Inv init s _ []); [| | | cbn; by rewrite app_nil_r | |].
Qed.

Lemma pending_once (r : nat) (s : State) :
  Inv s → r ∈ pendingNew s →
  occ r (pendingNew s) = 1%nat ∧ occ r (activeStreams s) = 0%nat ∧ occ r (wrapping s) = 0%nat.
Proof.
  intros [I1 I2 _ _ _ _ _] Hin. apply occ_pos in Hin.
  assert (0 < occ r (live s))%nat as Hpos by (unfold live; rewrite !occ_app; lia).
  assert (r < nextRef s)%nat as Hlt.
  { destruct (decide (r < nextRef s)%nat); [done |].
    destruct (I2 r ltac:(lia)) as (? & _). lia. }
  specialize (I1 r Hlt). unfold live in I1. rewrite !occ_app in I1. lia.
Qed.

Lemma newStream_push_Inv (r : nat) (s : State) :
  Inv s → r ∈ pendingNew s → Inv (newStream_push r s).
Proof.
  intros HI Hin. destruct (pending_once r s HI Hin) as (Hp & Ha & Hw).
  apply (rearrange_Inv init s _ []); try done; [cbn; by rewrite app_nil_r |].
  intros r'. unfold newStream_push. fields. rewrite !occ_app, occ_singleton, occ_filter_ne.
  case_bool_decide as Heq; [subst r'; lia | lia].
Qed.

Lemma inbound_read_Inv (v : ReadResult) (readyOk : bool) (now : Z) (s : State) :
  Inv s → loop s = LoopReading → Inv (inbound_read config v readyOk now s).
Proof.
  intros HI Hloop.
  assert (Hw : wrapping s = []) by (unfold wrapping; by rewrite Hloop).
  assert (Hended : ∀ s1, nextRef s1 = nextRef s → streams s1 = streams s →
            effects s1 = effects s → activeStreams s1 = activeStreams s →
            pendingNew s1 = pendingNew s → Inv (set_loop LoopEnded s1)).
  { intros s1 ? ? He Ha Hp.
    apply (rearrange_Inv init s _ []); try done; [cbn; by rewrite He, app_nil_r |].
    intros r. fields. by rewrite Ha, Hp, Hloop. }
  destruct v as [| | h]; cbn [inbound_read]; [by apply Hended | by apply Hended |].
  destruct (atLimit config s).
  - by apply (step_emit init [WritableClose h; ReadableCancel h] s s eq_refl HI (Ext_refl s)).
  - destruct readyOk; [| by apply Hended].
    cbn. eapply (alloc_Inv init s); [done | reflexivity | reflexivity | reflexivity
                                    | reflexivity |].
    intros r. unfold webtransportBiDiStreamToStream. fields. rewrite Hloop.
    rewrite !occ_app, occ_singleton. change (occ r []) with 0%nat. lia.
Qed.

Lemma inbound_push_Inv (r : nat) (s : State) :
  Inv s → loop s = LoopWrapping r → Inv (inbound_push init r s).
Proof.
  intros HI Hloop.
  assert (Hw : wrapping s = [r]) by (unfold wrapping; by rewrite Hloop).
  apply (rearrange_Inv init s _
           (if has_onIncomingStream init then [OnIncomingStream r] else []));
    try done; unfold inbound_push.
  - by destruct (has_onIncomingStream init).
  - by destruct (has_onIncomingStream init).
  - destruct (has_onIncomingStream init); cbn; [done | by rewrite app_nil_r].
  - by destruct (has_onIncomingStream init).
  - intros r'. destruct (has_onIncomingStream init); fields; rewrite Hloop;
      rewrite !occ_app; change (occ r' []) with 0%nat; lia.
Qed.

Lemma step_Inv (e : Event) (s s' : State) : Inv s → step e s = Some s' → Inv s'.
Proof.
  intros HI. destruct e; cbn [Muxer.step].
  - intros [= <-]. by apply newStream_wrap_Inv.
  - intros [Hg ->]%guard_Some. apply bool_decide_eq_true in Hg.
    by apply newStream_push_Inv.
  - intros [Hg ->]%guard_Some. apply bool_decide_eq_true in Hg.
    by apply inbound_read_Inv.
  - destruct (loop s) eqn:Hloop; try done. intros [= <-]. by apply inbound_push_Inv.
  - intros [Hg%handedOut_allocated ->]%guard_Some. by apply abort_good.
  - intros [Hg%handedOut_allocated ->]%guard_Some. by apply close_good.
  - intros [Hg%handedOut_allocated ->]%guard_Some. by apply closeRead_good.
  - intros [Hg%handedOut_allocated ->]%guard_Some. by apply closeWrite_good.
  - intros [Hg%handedOut_allocated ->]%guard_Some. by apply close_good.
  - intros [Hg ->]%guard_Some. unfold sink_enter. destruct (flag sinkSunk r s); [done |].
    cbn. by apply (step_upd init set_sinkSunk r s s); [by intros [] .. | | apply Ext_refl].
  - intros [Hg ->]%guard_Some.
    by apply (step_emit init [WriterWrite _ buf] s s eq_refl HI (Ext_refl s)).
  - intros [Hg%handedOut_allocated ->]%guard_Some. by apply closeWrite_good.
  - intros [Hg%handedOut_allocated ->]%guard_Some. by apply sourceEnd_good.
  - intros [Hg ->]%guard_Some. by apply onWriterClosed_good.
  - intros [Hg ->]%guard_Some. by apply onReaderClosed_good.
  - intros [Hg ->]%guard_Some. unfold onCancelRejected. destruct isReset; [| done].
    by apply (set_writerClosed_good init r s s); [| apply Ext_refl].
  - intros [Hg ->]%guard_Some. unfold onCloseRejected. destruct isReset; [| done].
    by apply (set_readerClosed_good init r s s); [| apply Ext_refl].
  - intros [= <-]. by apply (step_emit init [SessionClose] s s eq_refl HI (Ext_refl s)).
Qed.

Lemma run_Inv (es : list Event) (s s' : State) : Inv s → run es s = Some s' → Inv s'.
Proof.
  revert s. induction es as [| e es IH]; intros s HI; cbn [Muxer.run].
  - by intros [= <-].
  - destruct (step e s) as [s1 |] eqn:Hstep; [| done].
    apply IH. by eapply step_Inv.
Qed.

Lemma createStreamMuxer_Inv (counter : nat) :
  Inv (snd (createStreamMuxer init counter)).
Proof.
  unfold createStreamMuxer. destruct (aborted init); cbn; by apply Inv_initial.
Qed.

(** *** Once both halves are closed the stream is gone *)

Lemma Ext_Keeps (r : nat) (s s' : State) : Ext s s' → Keeps r s s'.
Proof.
  intros [E1 E2 E3 E4 E5 E6 E7]. unfold Keeps, handedOut, allocated.
  rewrite E3, E4. split_and!; auto.
  - intros H. apply andb_true_iff in H as [[Hal%bool_decide_eq_true Hp]%andb_true_iff Hl].
    rewrite Hp, Hl, bool_decide_eq_true_2; [done | by apply E2].
Qed.

Lemma Keeps_fields (r : nat) (s s' : State) :
  Inv s →
  (∀ r', streams s !! r' = None ∨ streams s' !! r' = streams s !! r') →
  (∀ r', r' ∈ pendingNew s' → r' ∈ pendingNew s ∨ r' = nextRef s) →
  (∀ r', loop s' = LoopWrapping r' → loop s = LoopWrapping r' ∨ r' = nextRef s) →
  (∀ r', r' ∈ activeStreams s' →
         r' ∈ activeStreams s ∨ r' ∈ pendingNew s ∨ loop s = LoopWrapping r') →
  (∀ r', is_Some (streams s !! r') → is_Some (streams s' !! r')) →
  Keeps r s s'.
Proof.
  intros HI Hs Hp Hl Ha Hd.
  assert (Hfresh : ∀ r', is_Some (streams s !! r') → r' ≠ nextRef s).
  { intros r' [c Hc] ->. destruct (inv_fresh _ _ HI (nextRef s)) as (_ & _ & Hn); [lia |].
    congruence. }
  assert (Hflag : ∀ f, flag f r s = true → flag f r s' = true).
  { intros f. unfold flag. destruct (Hs r) as [-> | ->]; done. }
  unfold Keeps. split_and!; try apply Hflag.
  - unfold handedOut, allocated. intros H.
    apply andb_true_iff in H as [[Hal%bool_decide_eq_true Hnp]%andb_true_iff Hnl].
    apply negb_true_iff, bool_decide_eq_false in Hnp, Hnl.
    rewrite bool_decide_eq_true_2 by (by apply Hd). cbn.
    rewrite !bool_decide_eq_false_2; [done | |].
    + intros Heq. destruct (Hl r Heq) as [? | ?]; [done | by eapply Hfresh].
    + intros Hin. destruct (Hp r Hin) as [? | ?]; [done | by eapply Hfresh].
  - unfold handedOut. intros H Hnin Hin.
    apply andb_true_iff in H as [[_ Hnp]%andb_true_iff Hnl].
    apply negb_true_iff, bool_decide_eq_false in Hnp, Hnl.
    destruct (Ha r Hin) as [? | [? | ?]]; done.
Qed.

Lemma step_Keeps (r : nat) (e : Event) (s s' : State) :
  Inv s → step e s = Some s' → Keeps r s s'.
Proof.
  intros HI. destruct e; cbn [Muxer.step].
  - intros [= <-]. unfold newStream_wrap. destruct readyOk; cbn.
    + apply Keeps_fields; try done; fields.
      * intros r'. destruct (decide (r' = nextRef s)) as [-> | Hne].
        -- left. by destruct (inv_fresh _ _ HI (nextRef s)) as (_ & _ & ?); [lia |].
        -- right. by rewrite lookup_insert_ne.
      * intros r' [? | ->%list_elem_of_singleton]%elem_of_app; auto.
      * auto.
      * auto.
      * intros r' Hr'. destruct (decide (r' = nextRef s)) as [-> | Hne].
        -- by rewrite lookup_insert_eq.
        -- by rewrite lookup_insert_ne.
    + apply Keeps_fields; try done; fields; auto.
  - intros [Hg ->]%guard_Some. apply bool_decide_eq_true in Hg.
    apply Keeps_fields; try done; unfold newStream_push; fields; auto.
    + intros r' Hin. left. apply list_elem_of_In, filter_In in Hin as [Hin _].
      by apply list_elem_of_In.
    + intros r' [? | ->%list_elem_of_singleton]%elem_of_app; auto.
  - intros [Hg ->]%guard_Some. apply bool_decide_eq_true in Hg.
    destruct v as [| | h]; cbn [inbound_read].
    + apply Keeps_fields; try done; fields; auto.
    + apply Keeps_fields; try done; fields; auto.
    + destruct (atLimit config s).
      * apply Keeps_fields; try done; fields; auto.
      * destruct readyOk; cbn.
        -- apply Keeps_fields; try done; fields; auto.
           ++ intros r'. destruct (decide (r' = nextRef s)) as [-> | Hne].
              ** left. by destruct (inv_fresh _ _ HI (nextRef s)) as (_ & _ & ?); [lia |].
              ** right. by rewrite lookup_insert_ne.
           ++ intros r' [= <-]. auto.
           ++ intros r' Hr'. destruct (decide (r' = nextRef s)) as [-> | Hne].
              ** by rewrite lookup_insert_eq.
              ** by rewrite lookup_insert_ne.
        -- apply Keeps_fields; try done; fields; auto.
  - destruct (loop s) eqn:Hloop; try done. intros [= <-].
    apply Keeps_fields; try done; unfold inbound_push;
      destruct (has_onIncomingStream init); fields; auto; try done.
    + intros r' [? | ->%list_elem_of_singleton]%elem_of_app; auto.
    + intros r' [? | ->%list_elem_of_singleton]%elem_of_app; auto.
  - intros [Hg%handedOut_allocated ->]%guard_Some. by apply Ext_Keeps, abort_good.
  - intros [Hg%handedOut_allocated ->]%guard_Some. by apply Ext_Keeps, close_good.
  - intros [Hg%handedOut_allocated ->]%guard_Some. by apply Ext_Keeps, closeRead_good.
  - intros [Hg%handedOut_allocated ->]%guard_Some. by apply Ext_Keeps, closeWrite_good.
  - intros [Hg%handedOut_allocated ->]%guard_Some. by apply Ext_Keeps, close_good.
  - intros [Hg ->]%guard_Some. unfold sink_enter. destruct (flag sinkSunk r0 s); cbn.
    + apply Ext_Keeps, Ext_refl.
    + by apply Ext_Keeps, (step_upd init set_sinkSunk r0 s s);
        [by intros [] .. | | apply Ext_refl].
  - intros [Hg ->]%guard_Some.
    by apply Ext_Keeps, (step_emit init [WriterWrite _ buf] s s eq_refl HI (Ext_refl s)).
  - intros [Hg%handedOut_allocated ->]%guard_Some. by apply Ext_Keeps, closeWrite_good.
  - intros [Hg%handedOut_allocated ->]%guard_Some. by apply Ext_Keeps, sourceEnd_good.
  - intros [Hg ->]%guard_Some. by apply Ext_Keeps, onWriterClosed_good.
  - intros [Hg ->]%guard_Some. by apply Ext_Keeps, onReaderClosed_good.
  - intros [Hg ->]%guard_Some. unfold onCancelRejected. destruct isReset.
    + by apply Ext_Keeps, (set_writerClosed_good init r0 s s); [| apply Ext_refl].
    + apply Ext_Keeps, Ext_refl.
  - intros [Hg ->]%guard_Some. unfold onCloseRejected. destruct isReset.
    + by apply Ext_Keeps, (set_readerClosed_good init r0 s s); [| apply Ext_refl].
    + apply Ext_Keeps, Ext_refl.
  - intros [= <-].
    by apply Ext_Keeps, (step_emit init [SessionClose] s s eq_refl HI (Ext_refl s)).
Qed.

Lemma closesRead_post (r : nat) (e : Event) (s s' : State) :
  Inv s → step e s = Some s' → closesRead r e = true →
  handedOut r s = true ∧ flag readerClosed r s' = true
  ∧ (flag writerClosed r s = true ∨ closesWrite r e = true → r ∉ activeStreams s').
Proof.
  intros HI Hstep Hcl.
  destruct e; cbn in Hcl; try done; apply Nat.eqb_eq in Hcl; subst r0;
    cbn [Muxer.step] in Hstep; apply guard_Some in Hstep as [Hg ->];
    pose proof (handedOut_allocated _ _ Hg) as Hal.
  - destruct (abort_good init r now s Hal HI) as (_ & _ & ? & ? & ?). by split_and!.
  - destruct (close_good init r now s Hal HI) as (_ & _ & ? & ? & ?). by split_and!.
  - destruct (closeRead_good init r now s Hal HI) as (_ & _ & ? & Hgone).
    split_and!; try done. intros [? | ?]; [by apply Hgone | done].
  - destruct (close_good init r now s Hal HI) as (_ & _ & ? & ? & ?). by split_and!.
  - destruct (sourceEnd_good init r now s Hal HI) as (_ & _ & ? & Hgone).
    split_and!; try done. intros [? | ?]; [by apply Hgone | done].
Qed.

Lemma closesWrite_post (r : nat) (e : Event) (s s' : State) :
  Inv s → step e s = Some s' → closesWrite r e = true →
  handedOut r s = true ∧ flag writerClosed r s' = true
  ∧ (flag readerClosed r s = true ∨ closesRead r e = true → r ∉ activeStreams s').
Proof.
  intros HI Hstep Hcl.
  destruct e; cbn in Hcl; try done; apply Nat.eqb_eq in Hcl; subst r0;
    cbn [Muxer.step] in Hstep; apply guard_Some in Hstep as [Hg ->];
    pose proof (handedOut_allocated _ _ Hg) as Hal.
  - destruct (abort_good init r now s Hal HI) as (_ & _ & ? & ? & ?). by split_and!.
  - destruct (close_good init r now s Hal HI) as (_ & _ & ? & ? & ?). by split_and!.
  - destruct (closeWrite_good init r now s Hal HI) as (_ & _ & ? & Hgone).
    split_and!; try done. intros [? | ?]; [by apply Hgone | done].
  - destruct (close_good init r now s Hal HI) as (_ & _ & ? & ? & ?). by split_and!.
  - destruct (closeWrite_good init r now s Hal HI) as (_ & _ & ? & Hgone).
    split_and!; try done. intros [? | ?]; [by apply Hgone | done].
Qed.

Lemma closedSoFar_step (r : nat) (rd wr : bool) (e : Event) (s s' : State) :
  Inv s → closedSoFar r rd wr s → step e s = Some s' →
  closedSoFar r (rd || closesRead r e) (wr || closesWrite r e) s'.
Proof.
  intros HI (J1 & J2 & J3 & J4) Hstep.
  destruct (step_Keeps r e s s' HI Hstep) as (K1 & K2 & K3 & K4).
  pose proof (closesRead_post r e s s' HI Hstep) as PR.
  pose proof (closesWrite_post r e s s' HI Hstep) as PW.
  destruct rd, wr, (closesRead r e), (closesWrite r e); cbn [orb] in *;
    unfold closedSoFar; split_and!; intros; try done; intuition auto.
Qed.

Lemma closedSoFar_run (r : nat) (rd wr : bool) (es : list Event) (s s' : State) :
  Inv s → closedSoFar r rd wr s → run es s = Some s' →
  closedSoFar r (rd || existsb (closesRead r) es) (wr || existsb (closesWrite r) es) s'.
Proof.
  revert rd wr s. induction es as [| e es IH]; intros rd wr s HI HJ; cbn [Muxer.run existsb].
  - intros [= <-]. by rewrite !orb_false_r.
  - destruct (step e s) as [s1 |] eqn:Hstep; [| done]. intros Hrun.
    rewrite !orb_assoc.
    apply (IH _ _ s1); [exact (step_Inv _ _ _ HI Hstep) | | done].
    exact (closedSoFar_step r rd wr e s s1 HI HJ Hstep).
Qed.

Lemma removed_once (r : nat) (s : State) :
  Inv s → handedOut r s = true → r ∉ activeStreams s → removals r s = 1%nat.
Proof.
  intros HI Hh Hnin. pose proof (handedOut_allocated _ _ Hh) as [c Hc].
  unfold handedOut in Hh.
  apply andb_true_iff in Hh as [[_ Hnp]%andb_true_iff Hnl].
  apply negb_true_iff, bool_decide_eq_false in Hnp, Hnl.
  assert (r < nextRef s)%nat as Hlt.
  { destruct (decide (r < nextRef s)%nat); [done |].
    destruct (inv_fresh _ _ HI r) as (_ & _ & Hn); [lia | congruence]. }
  pose proof (inv_once _ _ HI r Hlt) as Hone.
  assert (occ r (live s) = 0%nat) as Hz; [| lia].
  apply occ_zero. unfold live, wrapping. rewrite !elem_of_app.
  intros [? | [? | Hw]]; try done.
  destruct (loop s) as [| | r' |]; try by apply elem_of_nil in Hw.
  apply list_elem_of_singleton in Hw. by subst r'.
Qed.

(** *** Finalization *)

(** C3: in every interleaving of the steps of a muxer, a stream is removed
    from the active set at most once; a removal happens only with both the
    read-closed and the write-closed flag set; it is followed at once by
    the close stamp and the notification of the stream-end observer, and
    there are as many stamps and notifications as removals; the close time
    is set exactly when the stream has been removed; and once a call that
    closes the read half (closeRead, source end, close, abort) and one that
    closes the write half (closeWrite, sink completion, close, abort) have
    been made, in either order, the stream has been removed exactly once. *)
Theorem stream_removed_exactly_once
    (counter : nat) (es : list Event) (s : State) (r : nat) :
  run es (snd (createStreamMuxer init counter)) = Some s →
  (removals r s ≤ 1)%nat
  ∧ (∀ rc wc, Spliced r rc wc ∈ effects s → rc = true ∧ wc = true)
  ∧ adjacent init (effects s)
  ∧ stamps r s = removals r s
  ∧ notifications r s = (if has_onStreamEnd init then removals r s else 0%nat)
  ∧ (∀ c, streams s !! r = Some c → (timeline_close c = None ↔ removals r s = 0%nat))
  ∧ (bothHalvesClosed r es = true → removals r s = 1%nat ∧ r ∉ activeStreams s).
Proof.
  intros Hrun.
  pose proof (run_Inv es _ s (createStreamMuxer_Inv counter) Hrun) as HI.
  split_and!.
  - destruct (decide (r < nextRef s)%nat) as [Hlt | Hge].
    + pose proof (inv_once _ _ HI r Hlt). lia.
    + destruct (inv_fresh _ _ HI r) as (_ & -> & _); lia.
  - apply (inv_flags _ _ HI).
  - apply (inv_adjacent _ _ HI).
  - apply (inv_stamps _ _ HI).
  - apply (inv_notes _ _ HI).
  - apply (inv_close _ _ HI).
  - unfold bothHalvesClosed. intros [Hrd Hwr]%andb_true_iff.
    assert (closedSoFar r false false (snd (createStreamMuxer init counter))) as HJ
      by (by unfold closedSoFar).
    pose proof (closedSoFar_run r false false es _ s (createStreamMuxer_Inv counter) HJ Hrun)
      as (_ & _ & Hgone & Hheld).
    cbn [orb] in Hgone, Hheld. rewrite Hrd, Hwr in *.
    split; [| by apply Hgone]. apply removed_once; [done | by apply Hheld | by apply Hgone].
Qed.

(** *** Idempotence *)

Lemma closeRead_writerClosed (r : nat) (now : Z) (s : State) :
  flag writerClosed r (closeRead init r now s) = flag writerClosed r s.
Proof.
  unfold closeRead. destruct (flag readerClosed r s); cbn [negb].
  - destruct (flag writerClosed r s) eqn:Hwc; [| done].
    rewrite flag_cleanup; [done | by intros []].
  - set (s1 := upd r set_readerClosed _).
    assert (flag writerClosed r s1 = flag writerClosed r s) as Hwc1
      by (subst s1; by rewrite flag_upd_same).
    destruct (flag writerClosed r s1) eqn:Hwc; [| congruence].
    rewrite flag_cleanup; [congruence | by intros []].
Qed.

Lemma closeWrite_readerClosed (r : nat) (now : Z) (s : State) :
  flag readerClosed r (closeWrite init r now s) = flag readerClosed r s.
Proof.
  unfold closeWrite. destruct (flag writerClosed r s); cbn [negb].
  - destruct (flag readerClosed r s) eqn:Hrc; [| done].
    rewrite flag_cleanup; [done | by intros []].
  - set (s1 := emit _ (upd r set_writerClosed s)).
    assert (flag readerClosed r s1 = flag readerClosed r s) as Hrc1.
    { subst s1. change (flag readerClosed r (upd r set_writerClosed s) = flag readerClosed r s).
      by rewrite flag_upd_same. }
    destruct (flag readerClosed r s1) eqn:Hrc; [| congruence].
    rewrite flag_cleanup; [congruence | by intros []].
Qed.

(** C6: on a stream the caller holds, a second [closeRead] changes nothing:
    the state after two calls, the list of native operations and of
    finalizations included, is the state after one; likewise [closeWrite]. *)
Theorem closeRead_closeWrite_idempotent
    (counter : nat) (es : list Event) (s : State) (r : nat) (t1 t2 : Z) :
  run es (snd (createStreamMuxer init counter)) = Some s →
  handedOut r s = true →
  closeRead init r t2 (closeRead init r t1 s) = closeRead init r t1 s
  ∧ closeWrite init r t2 (closeWrite init r t1 s) = closeWrite init r t1 s.
Proof.
  intros Hrun Hheld.
  pose proof (run_Inv es _ s (createStreamMuxer_Inv counter) Hrun) as HI.
  pose proof (handedOut_allocated _ _ Hheld) as Hal.
  split.
  - destruct (closeRead_good init r t1 s Hal HI) as (_ & _ & Hrc & Hgone).
    pose proof (closeRead_writerClosed r t1 s) as Hwc.
    set (s1 := closeRead init r t1 s) in *.
    unfold closeRead at 1. rewrite Hrc. cbn [negb].
    destruct (flag writerClosed r s1) eqn:Hwc1; [| done].
    apply cleanup_absent, Hgone. congruence.
  - destruct (closeWrite_good init r t1 s Hal HI) as (_ & _ & Hwc & Hgone).
    pose proof (closeWrite_readerClosed r t1 s) as Hrc.
    set (s1 := closeWrite init r t1 s) in *.
    unfold closeWrite at 1. rewrite Hwc. cbn [negb].
    destruct (flag readerClosed r s1) eqn:Hrc1; [| done].
    apply cleanup_absent, Hgone. congruence.
Qed.

End WithConfig.

Lemma stream_removed_exactly_once_witness :
  ∃ s, run Samples.muxerConfig Samples.muxerInit Samples.openThenCloseBothHalves
           Samples.freshMuxer = Some s
       ∧ removals 0 s = 1%nat ∧ 0%nat ∉ activeStreams s.
Proof.
  destruct (run Samples.muxerConfig Samples.muxerInit Samples.openThenCloseBothHalves
                Samples.freshMuxer) as [s |] eqn:Hrun; [| by vm_compute in Hrun].
  exists s. split; [done |].
  by apply (stream_removed_exactly_once Samples.muxerConfig Samples.muxerInit 0
              Samples.openThenCloseBothHalves s 0 Hrun).
Defined.

Lemma closeRead_closeWrite_idempotent_witness :
  ∃ s, run Samples.muxerConfig Samples.muxerInit Samples.openOnly Samples.freshMuxer = Some s
       ∧ closeRead Samples.muxerInit 0 300 (closeRead Samples.muxerInit 0 200 s)
         = closeRead Samples.muxerInit 0 200 s
       ∧ closeWrite Samples.muxerInit 0 300 (closeWrite Samples.muxerInit 0 200 s)
         = closeWrite Samples.muxerInit 0 200 s.
Proof.
  destruct (run Samples.muxerConfig Samples.muxerInit Samples.openOnly Samples.freshMuxer)
    as [s |] eqn:Hrun; [| by vm_compute in Hrun].
  exists s. split; [done |].
  apply (closeRead_closeWrite_idempotent Samples.muxerConfig Samples.muxerInit 0
           Samples.openOnly s 0 200 300 Hrun).
  vm_compute in Hrun. injection Hrun as <-. reflexivity.
Defined.

(** *** sink *)

Lemma emit_nil (s : State) : emit [] s = s.
Proof. destruct s. unfold emit. cbn. by rewrite app_nil_r. Qed.

Lemma emit_emit (es1 es2 : list Effect) (s : State) :
  emit es2 (emit es1 s) = emit (es1 ++ es2) s.
Proof. unfold emit. cbn. by rewrite app_assoc. Qed.

Lemma writeBufs_spec (r : nat) (bufs : list (list Z)) (n : nat) (failAt : option nat)
    (s : State) :
  (∀ k, failAt = Some k → (n ≤ k)%nat) →
  writeBufs r bufs n failAt s
  = (if rejectsFrom n failAt bufs then Throw (External "writer.write")
     else Ok (n + length bufs)%nat,
     emit (WriterWrite (nativeOf r s) <$> issuedFrom n failAt bufs) s).
Proof.
  revert n s. induction bufs as [| b bs IH]; intros n s Hn.
  - cbn [writeBufs]. unfold rejectsFrom, issuedFrom. destruct failAt as [k |].
    + specialize (Hn k eq_refl). cbn [length]. rewrite (proj2 (Nat.ltb_ge _ _)) by lia.
      rewrite take_nil. cbn. by rewrite emit_nil, Nat.add_0_r.
    + cbn. by rewrite emit_nil, Nat.add_0_r.
  - cbn [writeBufs]. unfold write. case_bool_decide as Hfail.
    + subst failAt. unfold rejectsFrom, issuedFrom. cbn [length].
      rewrite (proj2 (Nat.ltb_lt _ _)) by lia.
      replace (S n - n)%nat with 1%nat by lia. done.
    + rewrite IH; cycle 1.
      { intros k Hk. specialize (Hn k Hk). assert (k ≠ n) by congruence. lia. }
      change (nativeOf r (emit _ s)) with (nativeOf r s). rewrite emit_emit.
      unfold rejectsFrom, issuedFrom. cbn [length]. destruct failAt as [k |].
      * specialize (Hn k eq_refl). assert (k ≠ n) by congruence.
        replace (S k - n)%nat with (S (S k - S n)) by lia. cbn [take fmap list_fmap].
        replace (S n + length bs)%nat with (n + S (length bs))%nat by lia. done.
      * cbn [fmap list_fmap].
        replace (S n + length bs)%nat with (n + S (length bs))%nat by lia. done.
Qed.

Lemma consume_spec (r : nat) (cs : list Chunk) (n : nat) (failAt : option nat) (s : State) :
  (∀ k, failAt = Some k → (n ≤ k)%nat) →
  consume r cs n failAt s
  = (if rejectsFrom n failAt (allBufs cs) then Throw (External "writer.write")
     else Ok (n + length (allBufs cs))%nat,
     emit (WriterWrite (nativeOf r s) <$> issuedFrom n failAt (allBufs cs)) s).
Proof.
  revert n s. induction cs as [| c cs IH]; intros n s Hn.
  - cbn [consume]. change (allBufs []) with (@nil (list Z)).
    unfold rejectsFrom, issuedFrom. cbn [length]. destruct failAt as [k |].
    + specialize (Hn k eq_refl). rewrite (proj2 (Nat.ltb_ge _ _)) by lia.
      rewrite take_nil. cbn. by rewrite emit_nil, Nat.add_0_r.
    + cbn. by rewrite emit_nil, Nat.add_0_r.
  - cbn [consume]. rewrite writeBufs_spec by done.
    change (allBufs (c :: cs)) with (bufsOf c ++ allBufs cs).
    destruct (rejectsFrom n failAt (bufsOf c)) eqn:Hrej.
    + unfold rejectsFrom, issuedFrom in *. destruct failAt as [k |]; [| done].
      apply Nat.ltb_lt in Hrej. specialize (Hn k eq_refl).
      rewrite length_app, (proj2 (Nat.ltb_lt _ _)) by lia.
      by rewrite take_app_le by lia.
    + rewrite IH; cycle 1.
      { intros k ->. unfold rejectsFrom in Hrej. apply Nat.ltb_ge in Hrej. lia. }
      change (nativeOf r (emit _ s)) with (nativeOf r s). rewrite emit_emit.
      unfold rejectsFrom, issuedFrom in *. destruct failAt as [k |].
      * apply Nat.ltb_ge in Hrej. rewrite length_app, <- fmap_app.
        rewrite (take_ge (bufsOf c)) by lia.
        rewrite (take_app_ge (bufsOf c)) by lia.
        replace (S k - n - length (bufsOf c))%nat
          with (S k - (n + length (bufsOf c)))%nat by lia.
        by rewrite !Nat.add_assoc.
      * by rewrite length_app, <- fmap_app, !Nat.add_assoc.
Qed.

Section Claims.
Variable config : WebTransportMuxerInit.
Variable init : option StreamMuxerInit.

Lemma closeWrite_sets_writerClosed (r : nat) (now : Z) (s : State) :
  is_Some (streams s !! r) → flag writerClosed r (closeWrite init r now s) = true.
Proof.
  intros Hal. unfold closeWrite. destruct (flag writerClosed r s) eqn:Hwc; cbn [negb].
  - destruct (flag readerClosed r s); [| done]. rewrite flag_cleanup; [done | by intros []].
  - set (s1 := emit _ (upd r set_writerClosed s)).
    assert (flag writerClosed r s1 = true) as Hwc1.
    { subst s1. change (flag writerClosed r (upd r set_writerClosed s) = true).
      by apply flag_upd_set. }
    destruct (flag readerClosed r s1); [| done]. rewrite flag_cleanup; [done | by intros []].
Qed.

Lemma closeWrite_sinkSunk (r : nat) (now : Z) (s : State) :
  flag sinkSunk r (closeWrite init r now s) = flag sinkSunk r s.
Proof.
  unfold closeWrite.
  assert (Hs1 : flag sinkSunk r (emit [WriterClose (nativeOf r s)] (upd r set_writerClosed s))
                = flag sinkSunk r s).
  { change (flag sinkSunk r (upd r set_writerClosed s) = flag sinkSunk r s).
    by rewrite flag_upd_same. }
  destruct (flag writerClosed r s); cbn [negb];
    match goal with |- context [if ?b then _ else _] => destruct b end;
    rewrite ?flag_cleanup; try done; by intros [].
Qed.

(** C5: the first [sink] on a stream marks the sink as used, writes the
    buffers of its source in the order the source yields them (up to and
    including a write that rejects), and then closes the write half, whether
    the source completed, the source threw or a write rejected; it fails
    with the error of the source or of the write.  Any further [sink] on the
    stream throws the already-called error and leaves the state as it is. *)
Theorem sink_once_then_closes_write
    (r : nat) (source : Source) (failAt : option nat) (now : Z) (s : State) :
  is_Some (streams s !! r) →
  flag sinkSunk r s = false →
  snd (sink init r source failAt now s)
  = closeWrite init r now
      (emit (WriterWrite (nativeOf r s) <$> issued failAt (allBufs (chunks source)))
            (upd r set_sinkSunk s))
  ∧ fst (sink init r source failAt now s)
    = (if writeRejects failAt (allBufs (chunks source))
       then Throw (External "writer.write")
       else match thrown source with Some e => Throw e | None => Ok tt end)
  ∧ flag writerClosed r (snd (sink init r source failAt now s)) = true
  ∧ (∀ source' failAt' now',
       sink init r source' failAt' now' (snd (sink init r source failAt now s))
       = (Throw (Err "sink already called on stream"),
          snd (sink init r source failAt now s))).
Proof.
  intros Hal Hfresh.
  assert (Hsink : sink init r source failAt now s
    = (if writeRejects failAt (allBufs (chunks source))
       then Throw (External "writer.write")
       else match thrown source with Some e => Throw e | None => Ok tt end,
       closeWrite init r now
         (emit (WriterWrite (nativeOf r s) <$> issued failAt (allBufs (chunks source)))
               (upd r set_sinkSunk s)))).
  { unfold sink, sink_enter. rewrite Hfresh.
    rewrite consume_spec by (intros; lia).
    assert (nativeOf r (upd r set_sinkSunk s) = nativeOf r s) as ->.
    { unfold nativeOf, upd. cbn. rewrite lookup_alter_eq. by destruct (streams s !! r). }
    unfold writeRejects, issued.
    by destruct (rejectsFrom 0 failAt (allBufs (chunks source))). }
  rewrite Hsink. cbn [fst snd].
  set (s2 := emit _ (upd r set_sinkSunk s)).
  assert (is_Some (streams s2 !! r)) as Hal2.
  { subst s2. cbn. rewrite lookup_alter_eq. by rewrite fmap_is_Some. }
  split_and!; try done.
  - by apply closeWrite_sets_writerClosed.
  - intros source' failAt' now'. unfold sink, sink_enter.
    rewrite closeWrite_sinkSunk.
    assert (flag sinkSunk r s2 = true) as ->; [| done].
    subst s2. change (flag sinkSunk r (upd r set_sinkSunk s) = true).
    by apply flag_upd_set.
Qed.

(** *** Inbound admission *)

Lemma inbound_iteration_full (h : nat) (readyOk : bool) (now : Z) (s : State) :
  loop s = LoopReading →
  (maxInboundStreams config ≤ Z.of_nat (length (activeStreams s)))%Z →
  inbound_iteration config init (ReadStream h) readyOk now s
  = emit [WritableClose h; ReadableCancel h] s.
Proof.
  intros Hloop Hge. unfold inbound_iteration, inbound_read, atLimit.
  rewrite (proj2 (Z.leb_le _ _) Hge). cbn [loop emit]. by rewrite Hloop.
Qed.

Lemma inbound_iteration_room (h : nat) (now : Z) (s : State) :
  (Z.of_nat (length (activeStreams s)) < maxInboundStreams config)%Z →
  let s' := inbound_iteration config init (ReadStream h) true now s in
  activeStreams s' = activeStreams s ++ [nextRef s]
  ∧ streams s'
    = <[nextRef s := mkStream (pretty (streamIDCounter s)) inbound now None h
                              false false false]> (streams s)
  ∧ effects s'
    = effects s ++ (if has_onIncomingStream init
                    then [OnIncomingStream (nextRef s)] else [])
  ∧ loop s' = LoopReading.
Proof.
  intros Hlt. unfold inbound_iteration, inbound_read, atLimit.
  rewrite (proj2 (Z.leb_gt _ _) Hlt). cbn.
  unfold inbound_push.
  destruct (has_onIncomingStream init); cbn; rewrite ?app_nil_r; done.
Qed.

(** C4: one iteration of the inbound loop on an arriving native stream.
    With the active count at or above the ceiling its only effect is to
    close the write side and cancel the read side of the native stream: no
    stream object, no change of the active set, no call of the
    incoming-stream callback.  With the count strictly below the ceiling
    (and the writer ready) the stream is wrapped as an inbound stream with
    both flags false, appended to the active set and handed to the callback.
    So any of wrapping, appending or surfacing implies a count strictly
    below the ceiling. *)
Theorem inbound_admission_only_below_ceiling
    (h : nat) (readyOk : bool) (now : Z) (s : State) :
  loop s = LoopReading →
  ((maxInboundStreams config ≤ Z.of_nat (length (activeStreams s)))%Z →
     inbound_iteration config init (ReadStream h) readyOk now s
     = emit [WritableClose h; ReadableCancel h] s)
  ∧ ((Z.of_nat (length (activeStreams s)) < maxInboundStreams config)%Z →
     readyOk = true →
     let s' := inbound_iteration config init (ReadStream h) readyOk now s in
     activeStreams s' = activeStreams s ++ [nextRef s]
     ∧ streams s'
       = <[nextRef s := mkStream (pretty (streamIDCounter s)) inbound now None h
                                 false false false]> (streams s)
     ∧ effects s'
       = effects s ++ (if has_onIncomingStream init
                       then [OnIncomingStream (nextRef s)] else [])
     ∧ loop s' = LoopReading)
  ∧ (let s' := inbound_iteration config init (ReadStream h) readyOk now s in
     activeStreams s' ≠ activeStreams s ∨ streams s' ≠ streams s
     ∨ (∃ r, OnIncomingStream r ∈ effects s' ∧ OnIncomingStream r ∉ effects s) →
     (Z.of_nat (length (activeStreams s)) < maxInboundStreams config)%Z).
Proof.
  intros Hloop. split_and!.
  - by apply inbound_iteration_full.
  - intros Hlt ->. by apply inbound_iteration_room.
  - cbn zeta. intros Hchange.
    destruct (Z.leb_spec (maxInboundStreams config) (Z.of_nat (length (activeStreams s))))
      as [Hge | Hlt]; [| done].
    exfalso. rewrite (inbound_iteration_full h readyOk now s Hloop Hge) in Hchange.
    destruct Hchange as [Ha | [Hs | (r & Hin & Hnin)]]; [done | done |].
    cbn in Hin. apply elem_of_app in Hin as [Hin | Hin]; [done |].
    repeat (apply elem_of_cons in Hin as [Hin | Hin]; [done |]).
    by apply elem_of_nil in Hin.
Qed.

(** With ceiling [N] and an empty active set, of the streams arriving one
    after the other the first [N] are admitted and every later one is turned
    away. *)
Lemma inbound_iterations_count (hs : list nat) (now : Z) (s : State) :
  loop s = LoopReading →
  (0 ≤ maxInboundStreams config)%Z →
  (length (activeStreams s) ≤ Z.to_nat (maxInboundStreams config))%nat →
  length (activeStreams (inbound_iterations config init hs now s))
  = (length (activeStreams s) + length hs) `min` Z.to_nat (maxInboundStreams config)
  ∧ loop (inbound_iterations config init hs now s) = LoopReading.
Proof.
  intros Hloop HN. revert s Hloop. induction hs as [| h hs IH]; intros s Hloop Hle.
  - cbn. split; [lia | done].
  - cbn [inbound_iterations length].
    destruct (Z.leb_spec (maxInboundStreams config) (Z.of_nat (length (activeStreams s))))
      as [Hge | Hlt].
    + rewrite (inbound_iteration_full h true now s Hloop Hge).
      destruct (IH (emit [WritableClose h; ReadableCancel h] s) Hloop Hle) as [-> ->].
      cbn [activeStreams emit]. split; [lia | done].
    + destruct (inbound_iteration_room h now s Hlt) as (Ha & _ & _ & Hl).
      set (s' := inbound_iteration config init (ReadStream h) true now s) in *.
      assert (length (activeStreams s') = S (length (activeStreams s))) as Hlen
        by (rewrite Ha, length_app; cbn; lia).
      destruct (IH s' Hl ltac:(lia)) as [-> ->]. split; [lia | done].
Qed.

(** *** Cancellation at creation *)


End Claims.

Lemma sink_once_then_closes_write_witness :
  fst (sink Samples.muxerInit 0 Samples.threeChunks None 200 Samples.oneOpenStream) = Ok tt
  ∧ effects (snd (sink Samples.muxerInit 0 Samples.threeChunks None 200
                       Samples.oneOpenStream))
    = [WriterWrite 7 [0]%Z; WriterWrite 7 [1; 2]%Z; WriterWrite 7 [3]%Z;
       WriterWrite 7 [4; 5]%Z; WriterClose 7]
  ∧ fst (sink Samples.muxerInit 0 Samples.threeChunks None 300
              (snd (sink Samples.muxerInit 0 Samples.threeChunks None 200
                         Samples.oneOpenStream)))
    = Throw (Err "sink already called on stream").
Proof.
  destruct (sink_once_then_closes_write Samples.muxerInit 0 Samples.threeChunks None 200
              Samples.oneOpenStream)
    as (Hstate & Hres & _ & Hagain).
  - apply (bool_decide_unpack _). vm_compute. exact I.
  - vm_compute. reflexivity.
  - split_and!.
    + rewrite Hres. reflexivity.
    + rewrite Hstate. vm_compute. reflexivity.
    + by rewrite Hagain.
Defined.

Lemma inbound_admission_only_below_ceiling_witness :
  inbound_iteration Samples.muxerConfig Samples.muxerInit (ReadStream 9) true 50
    (mkState 2 2 ∅ [0; 1]%nat LoopReading [] [])
  = emit [WritableClose 9; ReadableCancel 9] (mkState 2 2 ∅ [0; 1]%nat LoopReading [] [])
  ∧ activeStreams (inbound_iteration Samples.muxerConfig Samples.muxerInit (ReadStream 9)
                     true 50 (mkState 1 1 ∅ [0%nat] LoopReading [] []))
    = [0; 1]%nat.
Proof.
  split.
  - by apply (inbound_admission_only_below_ceiling Samples.muxerConfig Samples.muxerInit
                9 true 50 (mkState 2 2 ∅ [0; 1]%nat LoopReading [] []) eq_refl).
  - by apply (inbound_admission_only_below_ceiling Samples.muxerConfig Samples.muxerInit
                9 true 50 (mkState 1 1 ∅ [0%nat] LoopReading [] []) eq_refl).
Defined.



(** The task scheduled before the failed call does run: should the reader
    still deliver a native stream, it is wrapped and surfaced. *)
Example loop_after_aborted_creation :
  effects <$> run Samples.muxerConfig Samples.abortedInit
                  [EvInboundRead (ReadStream 5) true 10; EvInboundPush]
                  (snd (createStreamMuxer Samples.abortedInit 0))
  = Some [SessionClose; OnIncomingStream 0].
Proof. reflexivity. Qed.

End MuxerFacts.

(** ** Configuration of the ceiling *)

Module ConfigFacts.
Import Types Transport.

Lemma maxInboundStreams_default (peerId : option PeerId)
    (certs : option (list WebTransportCertificate)) :
  maxInboundStreams (config (webTransport None peerId)) = 1000%Z
  ∧ maxInboundStreams
      (config (webTransport (Some {| init_maxInboundStreams := None;
                                     init_certificates := certs |}) peerId)) = 1000%Z.
Proof. by split. Qed.

Lemma maxInboundStreams_configured (peerId : option PeerId) (n : Z)
    (certs : option (list WebTransportCertificate)) :
  dial_muxerConfig (webTransport (Some {| init_maxInboundStreams := Some n;
                                          init_certificates := certs |}) peerId)
  = {| Muxer.maxInboundStreams := n |}.
Proof. reflexivity. Qed.

Lemma sessionTimeout_default : Server.sessionTimeout Server.createServer = 1000%Z.
Proof. reflexivity. Qed.

Lemma onSession_ceiling (l : Listener.WebTransportListener) :
  Listener.onSession_muxerConfig l = {| Muxer.maxInboundStreams := 1000 |}.
Proof. reflexivity. Qed.

(** C9 at a transport configured with [maxInboundStreams = 5]: the muxer of
    a dialed connection gets the ceiling 5 and turns a sixth stream away; the
    listener of the same transport hands its muxer the ceiling 1000, which
    lets the sixth stream in. *)
Lemma listener_ignores_configured_ceiling :
  maxInboundStreams (config Samples.transportLimitedTo5) = 5%Z
  ∧ dial_muxerConfig Samples.transportLimitedTo5 = {| Muxer.maxInboundStreams := 5 |}
  ∧ Muxer.atLimit (dial_muxerConfig Samples.transportLimitedTo5) Samples.fiveActive = true
  ∧ ∃ l, createListener Samples.transportLimitedTo5 = Ok l
       ∧ snd (Listener.onSession l Samples.acceptedSession)
         = [Listener.UpgradeInbound {| Muxer.maxInboundStreams := 1000 |};
            Listener.AuthWriterClose; Listener.Handler 1; Listener.DispatchConnection 1]
       ∧ Muxer.atLimit (Listener.onSession_muxerConfig l) Samples.fiveActive = false.
Proof.
  split_and!; try reflexivity.
  eexists. split_and!; reflexivity.
Qed.

End ConfigFacts.

(** ** More on the stream muxer *)

Module StepFacts.
Import Muxer Spec Steps MuxerFacts.

Ltac basic :=
  cbv zeta;
  repeat match goal with |- context [if ?b then _ else _] => destruct b end;
  repeat first
    [ apply basic_refl
    | apply basic_cleanup
    | apply basic_upd; [| constructor]
    | apply basic_emit; [| reflexivity] ].

Section WithInit.
Variable config : WebTransportMuxerInit.
Variable init : option StreamMuxerInit.

Local Abbreviation step := (step config init).
Local Abbreviation run := (run config init).
Local Abbreviation Basic := (Basic init).

Lemma closeRead_Basic (r : nat) (now : Z) (s : State) : Basic now s (closeRead init r now s).
Proof. unfold closeRead. basic. Qed.

Lemma closeWrite_Basic (r : nat) (now : Z) (s : State) : Basic now s (closeWrite init r now s).
Proof. unfold closeWrite. basic. Qed.

Lemma close_Basic (r : nat) (now : Z) (s : State) : Basic now s (close init r now s).
Proof. unfold close, closeWrite, closeRead. basic. Qed.

Lemma abort_Basic (r : nat) (now : Z) (s : State) : Basic now s (abort init r now s).
Proof. unfold abort, closeRead. basic. Qed.

Lemma sourceEnd_Basic (r : nat) (now : Z) (s : State) : Basic now s (sourceEnd init r now s).
Proof. unfold sourceEnd. basic. Qed.

Lemma onWriterClosed_Basic (r : nat) (now : Z) (s : State) :
  Basic now s (onWriterClosed init r now s).
Proof. unfold onWriterClosed. basic. Qed.

Lemma onReaderClosed_Basic (r : nat) (now : Z) (s : State) :
  Basic now s (onReaderClosed init r now s).
Proof. unfold onReaderClosed. basic. Qed.

Lemma onStream_Basic (e : Event) (s s' : State) :
  onStream e = true → step e s = Some s' → Basic (timeOf e) s s'.
Proof.
  destruct e; cbn [onStream Muxer.step timeOf]; try done; intros _.
  - intros [_ ->]%guard_Some. apply abort_Basic.
  - intros [_ ->]%guard_Some. apply close_Basic.
  - intros [_ ->]%guard_Some. apply closeRead_Basic.
  - intros [_ ->]%guard_Some. apply closeWrite_Basic.
  - intros [_ ->]%guard_Some. apply close_Basic.
  - intros [_ ->]%guard_Some. unfold sink_enter. destruct (flag sinkSunk r s); cbn; basic.
  - intros [_ ->]%guard_Some. basic.
  - intros [_ ->]%guard_Some. apply closeWrite_Basic.
  - intros [_ ->]%guard_Some. apply sourceEnd_Basic.
  - intros [_ ->]%guard_Some. apply onWriterClosed_Basic.
  - intros [_ ->]%guard_Some. apply onReaderClosed_Basic.
  - intros [_ ->]%guard_Some. unfold onCancelRejected. basic.
  - intros [_ ->]%guard_Some. unfold onCloseRejected. basic.
  - intros [= <-]. unfold muxer_close. basic.
Qed.

Lemma Basic_frame (now : Z) (s s' : State) :
  Basic now s s' →
  streamIDCounter s' = streamIDCounter s ∧ nextRef s' = nextRef s
  ∧ loop s' = loop s ∧ pendingNew s' = pendingNew s.
Proof.
  induction 1 as [s | s s1 es _ IH _ | s s1 r g _ IH _ | s s1 r _ IH]; try done.
  destruct (findIndex r (activeStreams s1)) as [index |] eqn:Hfind.
  - by rewrite (cleanup_fields init r now s1 index Hfind).
  - apply findIndex_None in Hfind. by rewrite (cleanup_absent init r now s1 Hfind).
Qed.

Lemma Basic_active (now : Z) (s s' : State) :
  Basic now s s' → ∀ r, r ∈ activeStreams s' → r ∈ activeStreams s.
Proof.
  induction 1 as [s | s s1 es _ IH _ | s s1 r g _ IH _ | s s1 r _ IH]; try done.
  intros r'. destruct (findIndex r (activeStreams s1)) as [index |] eqn:Hfind.
  - rewrite (cleanup_fields init r now s1 index Hfind). cbn [activeStreams].
    intros Hin. apply IH. by eapply elem_of_delete.
  - apply findIndex_None in Hfind. rewrite (cleanup_absent init r now s1 Hfind). apply IH.
Qed.

Lemma sameStatic_refl (c : Stream) : sameStatic c c.
Proof. by unfold sameStatic. Qed.

Lemma flagsKept_refl (c : Stream) : flagsKept c c.
Proof. by unfold flagsKept. Qed.

Lemma Grows_alter (g : Stream → Stream) (r : nat) (s s1 s2 : State) :
  (∀ c, sameStatic c (g c) ∧ flagsKept c (g c)) →
  streams s2 = alter g r (streams s1) →
  Grows s s1 → Grows s s2.
Proof.
  intros Hg Hs HG r' c Hc. destruct (HG r' c Hc) as (c1 & Hc1 & Hst & Hfl).
  rewrite Hs. destruct (decide (r = r')) as [-> | Hne].
  - exists (g c1). rewrite lookup_alter_eq, Hc1. split; [done |].
    destruct (Hg c1) as [Hst1 Hfl1]. unfold sameStatic, flagsKept in *.
    destruct Hst as (? & ? & ? & ?), Hst1 as (? & ? & ? & ?).
    destruct Hfl as (? & ? & ?), Hfl1 as (? & ? & ?).
    split_and!; first [congruence | auto].
  - exists c1. by rewrite lookup_alter_ne.
Qed.

Lemma FlagSetter_ok (g : Stream → Stream) :
  FlagSetter g →
  ∀ c, sameStatic c (g c) ∧ flagsKept c (g c) ∧ timeline_close (g c) = timeline_close c.
Proof. intros [] c; unfold sameStatic, flagsKept; cbn; by split_and!. Qed.

Lemma Basic_Grows (now : Z) (s s' : State) :
  Basic now s s' →
  Grows s s' ∧ ∀ r, streams s' !! r = None ↔ streams s !! r = None.
Proof.
  induction 1 as [s | s s1 es _ IH _ | s s1 r g _ IH Hg | s s1 r _ IH].
  - split; [| done]. intros r c Hc. exists c.
    split_and!; [done | apply sameStatic_refl | apply flagsKept_refl].
  - done.
  - destruct IH as [HG Hdom]. split.
    + apply (Grows_alter g r s s1); [| done | done].
      intros c. by destruct (FlagSetter_ok g Hg c) as (? & ? & _).
    + intros r'. rewrite <- Hdom. cbn. destruct (decide (r = r')) as [-> | Hne].
      * rewrite lookup_alter_eq. by rewrite fmap_None.
      * by rewrite lookup_alter_ne.
  - destruct IH as [HG Hdom].
    destruct (findIndex r (activeStreams s1)) as [index |] eqn:Hfind; cycle 1.
    { apply findIndex_None in Hfind. by rewrite (cleanup_absent init r now s1 Hfind). }
    rewrite (cleanup_fields init r now s1 index Hfind). split.
    + apply (Grows_alter (set_timeline_close now) r s s1); [| done | done].
      intros c. unfold sameStatic, flagsKept. cbn. by split_and!.
    + intros r'. rewrite <- Hdom. cbn. destruct (decide (r = r')) as [-> | Hne].
      * rewrite lookup_alter_eq. by rewrite fmap_None.
      * by rewrite lookup_alter_ne.
Qed.

Lemma Basic_effects (now : Z) (s s' : State) :
  Basic now s s' →
  ∃ es, effects s' = effects s ++ es
        ∧ ∀ e, e ∈ es → streamNative e = true ∨ finalization now e.
Proof.
  induction 1 as [s | s s1 es _ IH Hes | s s1 r g _ IH _ | s s1 r _ IH].
  - exists []. split; [by rewrite app_nil_r | by intros e ?%elem_of_nil].
  - destruct IH as (es1 & He & Hall). exists (es1 ++ es). split.
    + cbn. by rewrite He, app_assoc.
    + intros e [Hin | Hin]%elem_of_app; [by apply Hall |]. left.
      rewrite forallb_forall in Hes. by apply Hes, list_elem_of_In.
  - done.
  - destruct IH as (es1 & He & Hall).
    destruct (findIndex r (activeStreams s1)) as [index |] eqn:Hfind; cycle 1.
    { apply findIndex_None in Hfind. rewrite (cleanup_absent init r now s1 Hfind). eauto. }
    rewrite (cleanup_fields init r now s1 index Hfind). cbn [effects].
    eexists. split; [by rewrite He, <- app_assoc |].
    intros e [Hin | Hin]%elem_of_app; [by apply Hall |]. right. exists r.
    destruct (has_onStreamEnd init); cbn in Hin;
      repeat (apply elem_of_cons in Hin as [-> | Hin]; [by eauto |]);
      by apply elem_of_nil in Hin.
Qed.

Lemma Basic_stampsLogged (now : Z) (s s' : State) :
  Basic now s s' → stampsLogged s → stampsLogged s'.
Proof.
  induction 1 as [s | s s1 es _ IH _ | s s1 r g _ IH Hg | s s1 r _ IH]; intros HL.
  - done.
  - intros r c t Hc Ht. cbn. apply elem_of_app. left. by eapply (IH HL).
  - intros r' c t. cbn. destruct (decide (r = r')) as [-> | Hne].
    + rewrite lookup_alter_eq. destruct (streams s1 !! r') as [c1 |] eqn:Hc1; [| done].
      cbn. intros [= <-]. destruct (FlagSetter_ok g Hg c1) as (_ & _ & ->).
      by apply (IH HL).
    + rewrite lookup_alter_ne by done. by apply (IH HL).
  - destruct (findIndex r (activeStreams s1)) as [index |] eqn:Hfind; cycle 1.
    { apply findIndex_None in Hfind. rewrite (cleanup_absent init r now s1 Hfind). auto. }
    rewrite (cleanup_fields init r now s1 index Hfind).
    intros r' c t. cbn [streams effects]. rewrite elem_of_app.
    destruct (decide (r = r')) as [-> | Hne].
    + rewrite lookup_alter_eq. destruct (streams s1 !! r') as [c1 |] eqn:Hc1; [| done].
      cbn. intros [= <-]. cbn. intros [= <-]. right.
      apply elem_of_cons. right. by apply elem_of_cons; left.
    + rewrite lookup_alter_ne by done. intros Hc Ht. left. by eapply (IH HL).
Qed.

(** *** The steps of [newStream] and of the inbound loop *)

Lemma setup_facts (e : Event) (s s' : State) :
  Inv init s → onStream e = false → step e s = Some s' →
  (∀ r, r ∈ activeStreams s → r ∈ activeStreams s')
  ∧ (∃ es, effects s' = effects s ++ es
           ∧ ∀ x, x ∈ es → streamNative x = false ∧ bookkeeping x = false)
  ∧ (streamIDCounter s ≤ streamIDCounter s')%nat
  ∧ (streams s' = streams s
     ∨ streams s !! nextRef s = None
       ∧ streamIDCounter s' = S (streamIDCounter s)
       ∧ ∃ h dir now,
           streams s'
           = <[nextRef s := mkStream (pretty (streamIDCounter s)) dir now None h
                                     false false false]> (streams s)).
Proof.
  intros HI.
  assert (Hfresh : streams s !! nextRef s = None)
    by (by destruct (inv_fresh _ _ HI (nextRef s)) as (_ & _ & ?); [lia |]).
  assert (Hnone : ∀ es0 : list Effect, es0 = es0 ++ []) by (intros; by rewrite app_nil_r).
  destruct e; cbn [onStream Muxer.step]; try done; intros _.
  - intros [= <-]. unfold newStream_wrap. destruct readyOk; cbn.
    + split_and!; [done | exists []; split; [apply Hnone | by intros x ?%elem_of_nil] | lia |].
      right. split_and!; [done | done |]. by eexists _, _, _.
    + split_and!; [done | exists []; split; [apply Hnone | by intros x ?%elem_of_nil] | lia |].
      by left.
  - intros [_ ->]%guard_Some. unfold newStream_push. cbn.
    split_and!; [| exists []; split; [apply Hnone | by intros x ?%elem_of_nil] | lia | by left].
    intros r0 Hin. apply elem_of_app. by left.
  - intros [_ ->]%guard_Some. destruct v as [| | h]; cbn [inbound_read].
    + split_and!; [done | exists []; split; [apply Hnone | by intros x ?%elem_of_nil] | done
                  | by left].
    + split_and!; [done | exists []; split; [apply Hnone | by intros x ?%elem_of_nil] | done
                  | by left].
    + destruct (atLimit config s).
      * split_and!; [done | | done | by left].
        exists [WritableClose h; ReadableCancel h]. split; [done |].
        intros x Hx. repeat (apply elem_of_cons in Hx as [-> | Hx]; [done |]).
        by apply elem_of_nil in Hx.
      * destruct readyOk; cbn.
        -- split_and!; [done | exists []; split; [apply Hnone | by intros x ?%elem_of_nil]
                       | lia |].
           right. split_and!; [done | done |]. by eexists _, _, _.
        -- split_and!; [done | exists []; split; [apply Hnone | by intros x ?%elem_of_nil]
                       | lia | by left].
  - destruct (loop s) eqn:Hloop; try done. intros [= <-]. unfold inbound_push.
    destruct (has_onIncomingStream init); cbn.
    + split_and!; [| | done | by left].
      * intros r0 Hin. apply elem_of_app. by left.
      * exists [OnIncomingStream r]. split; [done |].
        intros x Hx. apply list_elem_of_singleton in Hx. by subst x.
    + split_and!; [| exists []; split; [apply Hnone | by intros x ?%elem_of_nil] | done
                  | by left].
      intros r0 Hin. apply elem_of_app. by left.
Qed.

Lemma step_effects (e : Event) (s s' : State) :
  Inv init s → step e s = Some s' → ∃ es, effects s' = effects s ++ es.
Proof.
  intros HI Hstep. destruct (onStream e) eqn:Hon.
  - destruct (Basic_effects _ _ _ (onStream_Basic e s s' Hon Hstep)) as (es & ? & _). eauto.
  - destruct (setup_facts e s s' HI Hon Hstep) as (_ & (es & ? & _) & _). eauto.
Qed.

Lemma step_origin (e : Event) (s s' : State) :
  Inv init s → step e s = Some s' →
  (streamIDCounter s ≤ streamIDCounter s')%nat
  ∧ Grows s s'
  ∧ ∀ r c', streams s' !! r = Some c' →
      (∃ c, streams s !! r = Some c ∧ id c' = id c)
      ∨ (r = nextRef s ∧ streams s !! r = None
         ∧ id c' = pretty (streamIDCounter s) ∧ timeline_close c' = None
         ∧ (streamIDCounter s < streamIDCounter s')%nat).
Proof.
  intros HI Hstep. destruct (onStream e) eqn:Hon.
  - pose proof (onStream_Basic e s s' Hon Hstep) as HB.
    destruct (Basic_frame _ _ _ HB) as (Hc & _).
    destruct (Basic_Grows _ _ _ HB) as [HG Hdom].
    split_and!; [lia | done |]. intros r c' Hc'. left.
    destruct (streams s !! r) as [c |] eqn:Hcs.
    + destruct (HG r c Hcs) as (c'' & Hc'' & (Hid & _) & _). exists c.
      split; [done | congruence].
    + apply Hdom in Hcs. congruence.
  - destruct (setup_facts e s s' HI Hon Hstep) as (_ & _ & Hle & [Hs | (Hf & Hcn & Hs)]).
    + split_and!; [done | |].
      * intros r c Hc. exists c. rewrite Hs.
        split_and!; [done | apply sameStatic_refl | apply flagsKept_refl].
      * intros r c' Hc'. left. exists c'. by rewrite <- Hs.
    + destruct Hs as (h & dir & now & Hs). split_and!; [done | |].
      * intros r c Hc. exists c. rewrite Hs.
        split_and!; [| apply sameStatic_refl | apply flagsKept_refl].
        rewrite lookup_insert_ne; [done | congruence].
      * intros r c'. rewrite Hs. destruct (decide (nextRef s = r)) as [<- | Hne].
        -- rewrite lookup_insert_eq. intros [= <-]. right. split_and!; try done. lia.
        -- rewrite lookup_insert_ne by done. intros Hc'. left. eauto.
Qed.

Lemma Grows_trans (s1 s2 s3 : State) : Grows s1 s2 → Grows s2 s3 → Grows s1 s3.
Proof.
  intros H12 H23 r c Hc. destruct (H12 r c Hc) as (c2 & Hc2 & Hst & Hfl).
  destruct (H23 r c2 Hc2) as (c3 & Hc3 & Hst' & Hfl'). exists c3.
  unfold sameStatic, flagsKept in *.
  destruct Hst as (? & ? & ? & ?), Hst' as (? & ? & ? & ?).
  destruct Hfl as (? & ? & ?), Hfl' as (? & ? & ?).
  split_and!; first [done | congruence | auto].
Qed.

Lemma run_Grows (es : list Event) (s s' : State) :
  Inv init s → run es s = Some s' → Grows s s'.
Proof.
  revert s. induction es as [| e es IH]; intros s HI; cbn [Muxer.run].
  - intros [= <-]. intros r c Hc. exists c.
    split_and!; [done | apply sameStatic_refl | apply flagsKept_refl].
  - destruct (step e s) as [s1 |] eqn:Hstep; [| done]. intros Hrun.
    destruct (step_origin e s s1 HI Hstep) as (_ & HG & _).
    apply (Grows_trans s s1 s'); [done |].
    apply IH; [| done]. exact (step_Inv config init e s s1 HI Hstep).
Qed.

Lemma reachable_Inv (s : State) : reachable config init s → Inv init s.
Proof.
  intros (counter & es & Hrun).
  exact (run_Inv config init es _ s (createStreamMuxer_Inv init counter) Hrun).
Qed.

(** X1: Stream objects are never released, their identifier, direction, open
    time and native stream never change, and a flag that is set stays set. *)
Theorem stream_attributes_stable
    (s : State) (es : list Event) (s' : State) (r : nat) (c : Stream) :
  reachable config init s →
  run es s = Some s' →
  streams s !! r = Some c →
  ∃ c', streams s' !! r = Some c'
        ∧ id c' = id c ∧ stat_direction c' = stat_direction c
        ∧ timeline_open c' = timeline_open c ∧ native c' = native c
        ∧ (readerClosed c = true → readerClosed c' = true)
        ∧ (writerClosed c = true → writerClosed c' = true)
        ∧ (sinkSunk c = true → sinkSunk c' = true).
Proof.
  intros Hreach Hrun Hc.
  destruct (run_Grows es s s' (reachable_Inv s Hreach) Hrun r c Hc)
    as (c' & Hc' & (? & ? & ? & ?) & (? & ? & ?)).
  exists c'. by split_and!.
Qed.

(** *** Identifiers *)

Lemma step_idsDistinct (e : Event) (s s' : State) :
  Inv init s → idsDistinct s → step e s = Some s' → idsDistinct s'.
Proof.
  intros HI [Hnum Hdist] Hstep.
  destruct (step_origin e s s' HI Hstep) as (Hle & _ & Horigin).
  assert (Hnum' : ∀ r c, streams s' !! r = Some c →
            ∃ k, id c = pretty k ∧ (k < streamIDCounter s')%nat).
  { intros r c' Hc'. destruct (Horigin r c' Hc') as [(c & Hc & Hid) | (_ & _ & Hid & _ & Hlt)].
    - destruct (Hnum r c Hc) as (k & Hk & Hlt). exists k. split; [congruence | lia].
    - exists (streamIDCounter s). by split. }
  split; [done |].
  intros r1 r2 c1 c2 Hc1 Hc2 Hid.
  destruct (Horigin r1 c1 Hc1) as [(d1 & Hd1 & Hid1) | (Hr1 & _ & Hid1 & _)],
           (Horigin r2 c2 Hc2) as [(d2 & Hd2 & Hid2) | (Hr2 & _ & Hid2 & _)].
  - apply (Hdist r1 r2 d1 d2 Hd1 Hd2). congruence.
  - destruct (Hnum r1 d1 Hd1) as (k & Hk & Hlt).
    assert (pretty k = pretty (streamIDCounter s)) as Heq by congruence.
    apply (inj pretty) in Heq. lia.
  - destruct (Hnum r2 d2 Hd2) as (k & Hk & Hlt).
    assert (pretty k = pretty (streamIDCounter s)) as Heq by congruence.
    apply (inj pretty) in Heq. lia.
  - congruence.
Qed.

Lemma run_idsDistinct (es : list Event) (s s' : State) :
  Inv init s → idsDistinct s → run es s = Some s' → idsDistinct s'.
Proof.
  revert s. induction es as [| e es IH]; intros s HI Hids; cbn [Muxer.run].
  - by intros [= <-].
  - destruct (step e s) as [s1 |] eqn:Hstep; [| done].
    apply IH; [exact (step_Inv config init e s s1 HI Hstep) |].
    exact (step_idsDistinct e s s1 HI Hids Hstep).
Qed.

(** X2: In every state a muxer reaches, the identifier of each stream is the
    decimal rendering of a value the factory's counter has already passed,
    and two different stream objects never carry the same identifier. *)
Theorem stream_ids_distinct (s : State) :
  reachable config init s →
  (∀ r c, streams s !! r = Some c →
     ∃ k, id c = pretty k ∧ (k < streamIDCounter s)%nat)
  ∧ (∀ r r' c c', streams s !! r = Some c → streams s !! r' = Some c' →
       id c = id c' → r = r').
Proof.
  intros (counter & es & Hrun).
  apply (run_idsDistinct es _ s (createStreamMuxer_Inv init counter)); [| done].
  assert (Hs : streams (snd (createStreamMuxer init counter)) = ∅)
    by (unfold createStreamMuxer; by destruct (aborted init)).
  split; intros *; rewrite Hs, lookup_empty; done.
Qed.

(** *** The active set *)

Lemma occ_NoDup (l : list nat) : (∀ r, (occ r l ≤ 1)%nat) → NoDup l.
Proof.
  induction l as [| x l IH]; intros Hocc; [by apply NoDup_nil |].
  apply NoDup_cons. split.
  - apply occ_zero. specialize (Hocc x). rewrite occ_cons in Hocc.
    rewrite bool_decide_eq_true_2 in Hocc by done. lia.
  - apply IH. intros r. specialize (Hocc r). rewrite occ_cons in Hocc. lia.
Qed.

Lemma Inv_occ_le (s : State) (r : nat) : Inv init s → (occ r (live s) + removals r s ≤ 1)%nat.
Proof.
  intros HI. destruct (decide (r < nextRef s)%nat) as [Hlt | Hge].
  - rewrite (inv_once _ _ HI r Hlt). lia.
  - destruct (inv_fresh _ _ HI r) as (-> & -> & _); lia.
Qed.

Lemma active_not_removed (s : State) (r : nat) :
  Inv init s → r ∈ activeStreams s →
  removals r s = 0%nat ∧ (r ∉ pendingNew s) ∧ loop s ≠ LoopWrapping r
  ∧ ∃ c, streams s !! r = Some c ∧ timeline_close c = None.
Proof.
  intros HI Hin. pose proof (Inv_occ_le s r HI) as Hle.
  apply occ_pos in Hin. unfold live in Hle. rewrite !occ_app in Hle.
  assert (removals r s = 0%nat) as Hrem by lia.
  split_and!; [done | | |].
  - apply occ_zero. lia.
  - intros Hl. unfold wrapping in Hle. rewrite Hl, occ_singleton in Hle.
    rewrite bool_decide_eq_true_2 in Hle by done. lia.
  - assert (r < nextRef s)%nat as Hlt.
    { destruct (decide (r < nextRef s)%nat); [done |].
      destruct (inv_fresh _ _ HI r) as (Hz & _); [lia |].
      unfold live in Hz. rewrite !occ_app in Hz. lia. }
    destruct (inv_alloc _ _ HI r Hlt) as [c Hc]. exists c. split; [done |].
    by apply (inv_close _ _ HI r c Hc).
Qed.

(** X3: In every state a muxer reaches, the active set holds no stream twice;
    each stream in it is an allocated stream object that has never been
    removed, whose close time is unset and whose [newStream] call or inbound
    iteration has completed; and a stream object with a close time is not in
    the active set. *)
Theorem active_set_well_formed (s : State) :
  reachable config init s →
  NoDup (activeStreams s)
  ∧ (∀ r, r ∈ activeStreams s →
       handedOut r s = true ∧ removals r s = 0%nat
       ∧ ∃ c, streams s !! r = Some c ∧ timeline_close c = None)
  ∧ (∀ r c t, streams s !! r = Some c → timeline_close c = Some t →
       (r ∉ activeStreams s) ∧ removals r s = 1%nat).
Proof.
  intros Hreach. pose proof (reachable_Inv s Hreach) as HI. split_and!.
  - apply occ_NoDup. intros r. pose proof (Inv_occ_le s r HI) as Hle.
    unfold live in Hle. rewrite !occ_app in Hle. lia.
  - intros r Hin. destruct (active_not_removed s r HI Hin) as (Hrem & Hp & Hl & c & Hc & Ht).
    split_and!; [| done | by exists c].
    unfold handedOut, allocated.
    rewrite bool_decide_eq_true_2 by (by rewrite Hc).
    by rewrite !bool_decide_eq_false_2.
  - intros r c t Hc Ht.
    assert (removals r s ≠ 0%nat) as Hne.
    { intros Hz. apply (inv_close _ _ HI r c Hc) in Hz. congruence. }
    pose proof (Inv_occ_le s r HI) as Hle. split; [| lia].
    apply occ_zero. unfold live in Hle. rewrite !occ_app in Hle. lia.
Qed.

(** *** The close time *)

Lemma step_stampsLogged (e : Event) (s s' : State) :
  Inv init s → stampsLogged s → step e s = Some s' → stampsLogged s'.
Proof.
  intros HI HL Hstep. destruct (onStream e) eqn:Hon.
  - exact (Basic_stampsLogged _ _ _ (onStream_Basic e s s' Hon Hstep) HL).
  - destruct (setup_facts e s s' HI Hon Hstep)
      as (_ & (es & He & _) & _ & [Hs | (Hf & _ & h & dir & now & Hs)]).
    + intros r c t. rewrite Hs, He. intros Hc Ht. apply elem_of_app. left. by eapply HL.
    + intros r c t. rewrite Hs, He. destruct (decide (nextRef s = r)) as [<- | Hne].
      * rewrite lookup_insert_eq. by intros [= <-].
      * rewrite lookup_insert_ne by done. intros Hc Ht. apply elem_of_app. left.
        by eapply HL.
Qed.

Lemma run_stampsLogged (es : list Event) (s s' : State) :
  Inv init s → stampsLogged s → run es s = Some s' → stampsLogged s'.
Proof.
  revert s. induction es as [| e es IH]; intros s HI HL; cbn [Muxer.run].
  - by intros [= <-].
  - destruct (step e s) as [s1 |] eqn:Hstep; [| done].
    apply IH; [exact (step_Inv config init e s s1 HI Hstep) |].
    exact (step_stampsLogged e s s1 HI HL Hstep).
Qed.

Lemma reachable_stampsLogged (s : State) : reachable config init s → stampsLogged s.
Proof.
  intros (counter & es & Hrun).
  apply (run_stampsLogged es _ s (createStreamMuxer_Inv init counter)); [| done].
  assert (Hs : streams (snd (createStreamMuxer init counter)) = ∅)
    by (unfold createStreamMuxer; by destruct (aborted init)).
  intros r c t. rewrite Hs, lookup_empty. done.
Qed.

Lemma run_effects (es : list Event) (s s' : State) :
  Inv init s → run es s = Some s' → ∃ xs, effects s' = effects s ++ xs.
Proof.
  revert s. induction es as [| e es IH]; intros s HI; cbn [Muxer.run].
  - intros [= <-]. exists []. by rewrite app_nil_r.
  - destruct (step e s) as [s1 |] eqn:Hstep; [| done]. intros Hrun.
    destruct (step_effects e s s1 HI Hstep) as (xs1 & H1).
    destruct (IH s1 (step_Inv config init e s s1 HI Hstep) Hrun) as (xs2 & H2).
    exists (xs1 ++ xs2). by rewrite H2, H1, app_assoc.
Qed.

Lemma stamp_unique (r : nat) (t t' : Z) (es : list Effect) :
  (countIf (isStamped r) es ≤ 1)%nat →
  StampedClose r t ∈ es → StampedClose r t' ∈ es → t = t'.
Proof.
  unfold countIf. induction es as [| e es IH]; [by intros _ ?%elem_of_nil |].
  cbn [List.filter]. intros Hle Hin Hin'.
  assert (Hzero : ∀ u, StampedClose r u ∈ es →
            (0 < length (List.filter (isStamped r) es))%nat).
  { clear. intros u Hu. induction es as [| e es IH]; [by apply elem_of_nil in Hu |].
    cbn [List.filter]. apply elem_of_cons in Hu as [<- | Hu].
    - cbn. rewrite Nat.eqb_refl. cbn. lia.
    - destruct (isStamped r e); cbn; [lia | by apply IH]. }
  apply elem_of_cons in Hin as [<- | Hin], Hin' as [Heq | Hin'].
  - congruence.
  - cbn in Hle. rewrite Nat.eqb_refl in Hle. cbn in Hle. apply Hzero in Hin'. lia.
  - subst e. cbn in Hle. rewrite Nat.eqb_refl in Hle. cbn in Hle. apply Hzero in Hin. lia.
  - apply IH; [| done | done]. destruct (isStamped r e); cbn in Hle; lia.
Qed.

(** X4: Once the close time of a stream is set, it keeps that value for good. *)
Theorem close_time_never_changes
    (s : State) (es : list Event) (s' : State) (r : nat) (c : Stream) (t : Z) :
  reachable config init s →
  run es s = Some s' →
  streams s !! r = Some c → timeline_close c = Some t →
  ∃ c', streams s' !! r = Some c' ∧ timeline_close c' = Some t.
Proof.
  intros Hreach Hrun Hc Ht.
  pose proof (reachable_Inv s Hreach) as HI.
  pose proof (run_Inv config init es s s' HI Hrun) as HI'.
  pose proof (run_stampsLogged es s s' HI (reachable_stampsLogged s Hreach) Hrun) as HL'.
  destruct (run_Grows es s s' HI Hrun r c Hc) as (c' & Hc' & _ & _).
  destruct (run_effects es s s' HI Hrun) as (xs & Hxs).
  exists c'. split; [done |].
  assert (StampedClose r t ∈ effects s') as Hin.
  { rewrite Hxs. apply elem_of_app. left. by apply (reachable_stampsLogged s Hreach r c t). }
  destruct (timeline_close c') as [t' |] eqn:Ht'.
  - f_equal. symmetry. apply (stamp_unique r t t' (effects s')); [| done | by eapply HL'].
    pose proof (Inv_occ_le s' r HI') as Hle. pose proof (inv_stamps _ _ HI' r) as Hst.
    unfold stamps, removals in *. lia.
  - apply (inv_close _ _ HI' r c' Hc') in Ht'.
    pose proof (inv_stamps _ _ HI' r) as Hst. unfold stamps, removals in *.
    assert (0 < countIf (isStamped r) (effects s'))%nat; [| lia].
    clear -Hin. unfold countIf. induction (effects s') as [| e l IH];
      [by apply elem_of_nil in Hin |].
    cbn [List.filter]. apply elem_of_cons in Hin as [<- | Hin].
    + cbn. rewrite Nat.eqb_refl. cbn. lia.
    + destruct (isStamped r e); cbn; [lia | by apply IH].
Qed.

Lemma stamp_counted (r : nat) (t : Z) (es : list Effect) :
  StampedClose r t ∈ es → (0 < countIf (isStamped r) es)%nat.
Proof.
  unfold countIf. induction es as [| e l IH]; [by intros ?%elem_of_nil |].
  cbn [List.filter]. intros [<- | Hin]%elem_of_cons.
  - cbn. rewrite Nat.eqb_refl. cbn. lia.
  - destruct (isStamped r e); cbn; [lia | by apply IH].
Qed.

Lemma removal_stamps_now (now : Z) (s s' : State) (r : nat) :
  Inv init s → stampsLogged s → Basic now s s' → Inv init s' →
  r ∈ activeStreams s → r ∉ activeStreams s' →
  removals r s' = 1%nat
  ∧ ∃ c', streams s' !! r = Some c' ∧ timeline_close c' = Some now.
Proof.
  intros HI HL HB HI' Hin Hnin.
  destruct (active_not_removed s r HI Hin) as (Hrem & Hp & Hl & c & Hc & Ht).
  destruct (Basic_frame _ _ _ HB) as (_ & Hnext & Hloop & Hpend).
  destruct (Basic_Grows _ _ _ HB) as [HG _].
  destruct (HG r c Hc) as (c' & Hc' & _ & _).
  assert (r < nextRef s')%nat as Hlt.
  { destruct (decide (r < nextRef s')%nat); [done |].
    destruct (inv_fresh _ _ HI' r) as (_ & _ & Hn); [lia | congruence]. }
  assert (removals r s' = 1%nat) as Hone.
  { pose proof (inv_once _ _ HI' r Hlt) as Hone.
    assert (occ r (live s') = 0%nat) as Hz; [| lia].
    apply occ_zero. unfold live, wrapping. rewrite Hloop, Hpend, !elem_of_app.
    intros [? | [? | Hw]]; try done.
    destruct (loop s) as [| | r0 |]; try by apply elem_of_nil in Hw.
    apply list_elem_of_singleton in Hw. by subst r0. }
  split; [done |]. exists c'. split; [done |].
  destruct (timeline_close c') as [t' |] eqn:Ht'; cycle 1.
  { apply (inv_close _ _ HI' r c' Hc') in Ht'. lia. }
  pose proof (Basic_stampsLogged _ _ _ HB HL r c' t' Hc' Ht') as Hlogged.
  destruct (Basic_effects _ _ _ HB) as (es & He & Hall).
  rewrite He in Hlogged. apply elem_of_app in Hlogged as [Hold | Hnew].
  - apply stamp_counted in Hold. pose proof (inv_stamps _ _ HI r) as Hst.
    unfold stamps, removals in *. lia.
  - destruct (Hall _ Hnew) as [Hnat | (r0 & [(rc & wc & Heq) | [Heq | Heq]])]; try done.
    by injection Heq as _ ->.
Qed.

(** X5: A stream leaves the active set only in a step on a stream, and its
    close time is then the clock reading of that step. *)
Theorem close_time_is_time_of_removal (s : State) (e : Event) (s' : State) (r : nat) :
  reachable config init s →
  step e s = Some s' →
  r ∈ activeStreams s → r ∉ activeStreams s' →
  onStream e = true
  ∧ removals r s' = 1%nat
  ∧ ∃ c', streams s' !! r = Some c' ∧ timeline_close c' = Some (timeOf e).
Proof.
  intros Hreach Hstep Hin Hnin. pose proof (reachable_Inv s Hreach) as HI.
  destruct (onStream e) eqn:Hon.
  - split; [done |].
    apply (removal_stamps_now (timeOf e) s s' r); try done.
    + by apply reachable_stampsLogged.
    + by apply onStream_Basic.
    + exact (step_Inv config init e s s' HI Hstep).
  - destruct (setup_facts e s s' HI Hon Hstep) as (Hkeep & _). by apply Hkeep in Hin.
Qed.

Lemma run_Keeps (r : nat) (es : list Event) (s s' : State) :
  Inv init s → run es s = Some s' →
  handedOut r s = true →
  handedOut r s' = true ∧ (r ∉ activeStreams s → r ∉ activeStreams s').
Proof.
  revert s. induction es as [| e es IH]; intros s HI; cbn [Muxer.run].
  - by intros [= <-].
  - destruct (step e s) as [s1 |] eqn:Hstep; [| done]. intros Hrun Hheld.
    destruct (step_Keeps config init r e s s1 HI Hstep) as (_ & _ & K3 & K4).
    destruct (IH s1 (step_Inv config init e s s1 HI Hstep) Hrun (K3 Hheld)) as [H1 H2].
    split; [done |]. intros Hnin. apply H2. by apply K4.
Qed.

(** X6: A stream the caller holds stays held, and once it is out of the active
    set no later step puts it back. *)
Theorem finalized_stream_stays_out (s : State) (es : list Event) (s' : State) (r : nat) :
  reachable config init s →
  run es s = Some s' →
  handedOut r s = true → r ∉ activeStreams s →
  handedOut r s' = true ∧ (r ∉ activeStreams s') ∧ removals r s' = removals r s.
Proof.
  intros Hreach Hrun Hheld Hnin. pose proof (reachable_Inv s Hreach) as HI.
  destruct (run_Keeps r es s s' HI Hrun Hheld) as [Hheld' Hout].
  split_and!; [done | by apply Hout |].
  pose proof (run_Inv config init es s s' HI Hrun) as HI'.
  rewrite (removed_once init r s HI Hheld Hnin).
  exact (removed_once init r s' HI' Hheld' (Hout Hnin)).
Qed.

(** X7: [close], [reset] and [abort] finalize whatever the state of the halves:
    afterwards both flags are set, the stream is out of the active set and
    has been removed exactly once, and its close time is set; if the call
    itself took the stream out, the close time is the time of the call. *)
Theorem close_and_abort_finalize (s : State) (r : nat) (now : Z) (s' : State) :
  reachable config init s →
  handedOut r s = true →
  s' = close init r now s ∨ s' = reset init r now s ∨ s' = abort init r now s →
  flag readerClosed r s' = true ∧ flag writerClosed r s' = true
  ∧ (r ∉ activeStreams s') ∧ removals r s' = 1%nat
  ∧ ∃ c' t, streams s' !! r = Some c' ∧ timeline_close c' = Some t
            ∧ (r ∈ activeStreams s → t = now).
Proof.
  intros Hreach Hheld Hop. pose proof (reachable_Inv s Hreach) as HI.
  pose proof (handedOut_allocated r s Hheld) as Hal.
  assert (Inv init s' ∧ Ext s s' ∧ flag readerClosed r s' = true
          ∧ flag writerClosed r s' = true ∧ (r ∉ activeStreams s') ∧ Basic now s s')
    as (HI' & HE & Hrc & Hwc & Hout & HB).
  { destruct Hop as [-> | [-> | ->]].
    - destruct (close_good init r now s Hal HI) as (? & ? & ? & ? & ?).
      split_and!; try done. apply close_Basic.
    - destruct (close_good init r now s Hal HI) as (? & ? & ? & ? & ?).
      split_and!; try done. apply close_Basic.
    - destruct (abort_good init r now s Hal HI) as (? & ? & ? & ? & ?).
      split_and!; try done. apply abort_Basic. }
  destruct (Ext_Keeps r s s' HE) as (_ & _ & K3 & _).
  pose proof (removed_once init r s' HI' (K3 Hheld) Hout) as Hone.
  split_and!; try done.
  destruct Hal as [c Hc]. destruct (Basic_Grows _ _ _ HB) as [HG _].
  destruct (HG r c Hc) as (c' & Hc' & _ & _).
  destruct (timeline_close c') as [t |] eqn:Ht; cycle 1.
  { apply (inv_close _ _ HI' r c' Hc') in Ht. lia. }
  exists c', t. split_and!; [done | done |]. intros Hin.
  destruct (removal_stamps_now now s s' r HI (reachable_stampsLogged s Hreach) HB HI' Hin Hout)
    as (_ & c'' & Hc'' & Ht''). congruence.
Qed.

(** *** Native calls *)

Lemma natives_emit (es : list Effect) (s : State) :
  natives (emit es s) = natives s ++ List.filter streamNative es.
Proof. unfold natives. cbn. by rewrite List.filter_app. Qed.

Lemma natives_upd (r : nat) (g : Stream → Stream) (s : State) :
  natives (upd r g s) = natives s.
Proof. reflexivity. Qed.

Lemma natives_cleanup (r : nat) (now : Z) (s : State) :
  natives (cleanupStreamFromActiveStreams init r now s) = natives s.
Proof.
  destruct (findIndex r (activeStreams s)) as [index |] eqn:Hfind.
  - rewrite (cleanup_fields init r now s index Hfind). unfold natives. cbn [effects].
    rewrite List.filter_app. destruct (has_onStreamEnd init); cbn; by rewrite app_nil_r.
  - apply findIndex_None in Hfind. by rewrite (cleanup_absent init r now s Hfind).
Qed.

Lemma nativeOf_Basic (now : Z) (s s' : State) (r : nat) :
  Basic now s s' → nativeOf r s' = nativeOf r s.
Proof.
  intros HB. destruct (Basic_Grows _ _ _ HB) as [HG Hdom]. unfold nativeOf.
  destruct (streams s !! r) as [c |] eqn:Hc.
  - by destruct (HG r c Hc) as (c' & -> & (_ & _ & _ & ?) & _).
  - apply Hdom in Hc. by rewrite Hc.
Qed.

Lemma natives_closeRead (r : nat) (now : Z) (s : State) :
  natives (closeRead init r now s)
  = natives s ++ (if flag readerClosed r s then [] else [ReaderCancel (nativeOf r s)]).
Proof.
  unfold closeRead. destruct (flag readerClosed r s); cbn [negb];
    match goal with |- context [if ?b then _ else _] => destruct b end;
    rewrite ?natives_cleanup, ?natives_upd, ?natives_emit; by rewrite ?app_nil_r.
Qed.

Lemma natives_closeWrite (r : nat) (now : Z) (s : State) :
  natives (closeWrite init r now s)
  = natives s ++ (if flag writerClosed r s then [] else [WriterClose (nativeOf r s)]).
Proof.
  unfold closeWrite. destruct (flag writerClosed r s); cbn [negb];
    match goal with |- context [if ?b then _ else _] => destruct b end;
    rewrite ?natives_cleanup, ?natives_emit, ?natives_upd; by rewrite ?app_nil_r.
Qed.

(** X8: The native calls of the four closing methods.  [closeRead] cancels the
    reader and [closeWrite] closes the writer, each only if that half is
    still open; [close] does both, reader first; [abort] aborts the writer
    instead of closing it, and then cancels the reader.  No method makes any
    other native call, and none makes a call on a half that is closed. *)
Theorem native_calls_of_closing (r : nat) (now : Z) (s : State) :
  let h := nativeOf r s in
  let cancel := if flag readerClosed r s then [] else [ReaderCancel h] in
  natives (closeRead init r now s) = natives s ++ cancel
  ∧ natives (closeWrite init r now s)
    = natives s ++ (if flag writerClosed r s then [] else [WriterClose h])
  ∧ natives (close init r now s)
    = natives s ++ cancel ++ (if flag writerClosed r s then [] else [WriterClose h])
  ∧ natives (abort init r now s)
    = natives s ++ (if flag writerClosed r s then [] else [WriterAbort h]) ++ cancel.
Proof.
  cbn zeta. split_and!.
  - apply natives_closeRead.
  - apply natives_closeWrite.
  - unfold close. rewrite natives_cleanup, natives_closeWrite, natives_closeRead.
    rewrite (closeRead_writerClosed init r now s).
    rewrite (nativeOf_Basic now s _ r (closeRead_Basic r now s)).
    by rewrite app_assoc.
  - unfold abort. rewrite natives_cleanup, natives_upd, natives_closeRead.
    destruct (flag writerClosed r s) eqn:Hwc; cbn [negb].
    + by rewrite app_nil_l.
    + rewrite flag_upd_same by done.
      change (flag readerClosed r (emit _ s)) with (flag readerClosed r s).
      assert (nativeOf r (upd r set_writerClosed (emit [WriterAbort (nativeOf r s)] s))
              = nativeOf r s) as ->.
      { unfold nativeOf, upd. cbn. rewrite lookup_alter_eq. by destruct (streams s !! r). }
      rewrite natives_upd, natives_emit. cbn. by rewrite <- app_assoc.
Qed.

(** *** The end of the inbound loop *)

Lemma step_after_loop_end (e : Event) (s s' : State) :
  loop s = LoopEnded → step e s = Some s' →
  loop s' = LoopEnded ∧ inboundEvent e = false
  ∧ List.filter inboundEffect (effects s') = List.filter inboundEffect (effects s).
Proof.
  intros Hloop Hstep. destruct (onStream e) eqn:Hon.
  - pose proof (onStream_Basic e s s' Hon Hstep) as HB.
    destruct (Basic_frame _ _ _ HB) as (_ & _ & Hl & _).
    destruct (Basic_effects _ _ _ HB) as (es & -> & Hall).
    split_and!; [congruence | by destruct e |].
    rewrite List.filter_app.
    assert (List.filter inboundEffect es = []) as ->; [| by rewrite app_nil_r].
    clear -Hall. induction es as [| x es IH]; [done |]. cbn.
    assert (inboundEffect x = false) as ->.
    { destruct (Hall x) as [Hn | (r0 & [(? & ? & ->) | [-> | ->]])]; try done.
      - by left.
      - by destruct x. }
    apply IH. intros y Hy. apply Hall. by right.
  - destruct e; cbn [onStream Muxer.step] in *; try done.
    + injection Hstep as <-. unfold newStream_wrap. by destruct readyOk.
    + apply guard_Some in Hstep as [_ ->]. done.
    + apply guard_Some in Hstep as [Hg _]. apply bool_decide_eq_true in Hg. congruence.
    + by rewrite Hloop in Hstep.
Qed.

(** X9: Once an iteration has left the inbound loop (the reader reported done
    or an undefined value, or the writer of an admitted stream did not become
    ready) the loop stays ended: the reader is never read again, and no
    native stream is surfaced or turned away from then on. *)
Theorem inbound_loop_end_is_final
    (v : ReadResult) (readyOk : bool) (now : Z) (s s1 : State) (es : list Event) (s' : State) :
  step (EvInboundRead v readyOk now) s = Some s1 →
  endsLoop config v readyOk s = true →
  run es s1 = Some s' →
  loop s' = LoopEnded
  ∧ (∀ e, e ∈ es → inboundEvent e = false)
  ∧ List.filter inboundEffect (effects s') = List.filter inboundEffect (effects s).
Proof.
  intros Hstep Hends Hrun.
  assert (loop s1 = LoopEnded
          ∧ List.filter inboundEffect (effects s1) = List.filter inboundEffect (effects s))
    as [Hl1 He1].
  { cbn in Hstep. apply guard_Some in Hstep as [_ ->].
    destruct v as [| | h]; cbn in *; try done.
    destruct (atLimit config s); [done |]. by destruct readyOk. }
  rewrite <- He1. clear Hstep Hends He1. revert s1 Hl1 Hrun.
  induction es as [| e es IH]; intros s1 Hl1; cbn [Muxer.run].
  - intros [= <-]. split_and!; [done | by intros e ?%elem_of_nil | done].
  - destruct (step e s1) as [s2 |] eqn:Hstep; [| done]. intros Hrun.
    destruct (step_after_loop_end e s1 s2 Hl1 Hstep) as (Hl2 & He & Hf).
    destruct (IH s2 Hl2 Hrun) as (? & Hall & ?).
    split_and!; [done | | congruence].
    intros x [-> | Hx]%elem_of_cons; [done | by apply Hall].
Qed.

(** *** Outbound streams and the ceiling *)

Lemma newStream_ready (h : nat) (now : Z) (s : State) :
  fst (newStream init h true now s) = Ok (nextRef s)
  ∧ activeStreams (snd (newStream init h true now s)) = activeStreams s ++ [nextRef s]
  ∧ loop (snd (newStream init h true now s)) = loop s.
Proof. by unfold newStream, newStream_wrap. Qed.

Lemma newStreams_count (hs : list nat) (now : Z) (s : State) :
  length (activeStreams (newStreams init hs now s))
  = (length (activeStreams s) + length hs)%nat
  ∧ loop (newStreams init hs now s) = loop s.
Proof.
  revert s. induction hs as [| h hs IH]; intros s; cbn [newStreams length].
  - split; [lia | done].
  - destruct (newStream_ready h now s) as (_ & Ha & Hl).
    destruct (IH (snd (newStream init h true now s))) as [-> ->].
    rewrite Ha, Hl, length_app. cbn. split; [lia | done].
Qed.

(** X10: [newStream] is not subject to the ceiling: each call whose writer
    becomes ready adds a stream to the active set, whatever the count.
    Outbound streams count against inbound ones, though: as soon as the
    active set has reached the ceiling, an arriving native stream is turned
    away, even if no inbound stream is open. *)
Theorem outbound_streams_count_against_inbound
    (hs : list nat) (now : Z) (s : State) (h : nat) (readyOk : bool) (now' : Z) :
  loop s = LoopReading →
  (maxInboundStreams config ≤ Z.of_nat (length (activeStreams s) + length hs))%Z →
  let s' := newStreams init hs now s in
  length (activeStreams s') = (length (activeStreams s) + length hs)%nat
  ∧ inbound_iteration config init (ReadStream h) readyOk now' s'
    = emit [WritableClose h; ReadableCancel h] s'.
Proof.
  intros Hloop Hfull. cbn zeta. destruct (newStreams_count hs now s) as [Hlen Hl].
  split; [done |].
  apply inbound_iteration_full; [congruence | by rewrite Hlen].
Qed.

(** *** Streams the remote side closes, and rejected cancels *)

(** X11: When the native writer and the native reader of a stream have both
    reported that they are closed, in either order, the stream is out of the
    active set, and the muxer made no native call for that. *)
Theorem remote_close_finalizes (s : State) (r : nat) (now : Z) (e : Event) (s' : State) :
  reachable config init s →
  (e = EvWriterClosed r now ∧ flag readerClosed r s = true)
  ∨ (e = EvReaderClosed r now ∧ flag writerClosed r s = true) →
  step e s = Some s' →
  flag readerClosed r s' = true ∧ flag writerClosed r s' = true
  ∧ (r ∉ activeStreams s') ∧ natives s' = natives s.
Proof.
  intros Hreach Hcase Hstep. pose proof (reachable_Inv s Hreach) as HI.
  destruct Hcase as [[-> Hrc] | [-> Hwc]]; cbn [Muxer.step] in Hstep;
    apply guard_Some in Hstep as [Hal ->]; apply bool_decide_eq_true in Hal.
  - unfold onWriterClosed. set (s1 := upd r set_writerClosed s).
    assert (flag writerClosed r s1 = true) as Hwc1
      by (apply flag_upd_set; [done | by intros []]).
    assert (flag readerClosed r s1 = true) as Hrc1
      by (subst s1; rewrite flag_upd_same; [done | by intros []]).
    rewrite Hwc1, Hrc1. cbn [andb].
    destruct (set_writerClosed_good init r s s HI (Ext_refl s)) as [HI1 HE1].
    destruct (step_cleanup init r now s s1 Hrc1 Hwc1 HI1 HE1) as (_ & _ & Hout).
    rewrite !(flag_cleanup init) by (by intros []).
    by rewrite natives_cleanup.
  - unfold onReaderClosed. set (s1 := upd r set_readerClosed s).
    assert (flag readerClosed r s1 = true) as Hrc1
      by (apply flag_upd_set; [done | by intros []]).
    assert (flag writerClosed r s1 = true) as Hwc1
      by (subst s1; rewrite flag_upd_same; [done | by intros []]).
    rewrite Hwc1, Hrc1. cbn [andb].
    destruct (set_readerClosed_good init r s s HI (Ext_refl s)) as [HI1 HE1].
    destruct (step_cleanup init r now s s1 Hrc1 Hwc1 HI1 HE1) as (_ & _ & Hout).
    rewrite !(flag_cleanup init) by (by intros []).
    by rewrite natives_cleanup.
Qed.

(** X12: A rejection of [reader.cancel()] that mentions RESET_STREAM marks the
    write half of the stream as closed, and nothing more: after [closeRead]
    and such a rejection both halves are marked closed while the stream is
    still in the active set.  A later [close] takes it out, and by then the
    native writer is not closed any more: the cancel of the reader is the
    only native call of the three steps. *)
Theorem reset_rejection_skips_writer_close (s : State) (r : nat) (now now' : Z) :
  reachable config init s →
  handedOut r s = true →
  r ∈ activeStreams s →
  flag writerClosed r s = false →
  let s1 := closeRead init r now s in
  let s2 := onCancelRejected r true s1 in
  let s3 := close init r now' s2 in
  run [EvCloseRead r now; EvCancelRejected r true; EvClose r now'] s = Some s3
  ∧ r ∈ activeStreams s2
  ∧ flag readerClosed r s2 = true ∧ flag writerClosed r s2 = true
  ∧ (r ∉ activeStreams s3)
  ∧ natives s3
    = natives s ++ (if flag readerClosed r s then [] else [ReaderCancel (nativeOf r s)]).
Proof.
  intros Hreach Hheld Hin Hwc. cbn zeta.
  pose proof (reachable_Inv s Hreach) as HI.
  set (s1 := closeRead init r now s).
  set (s2 := onCancelRejected r true s1).
  assert (step (EvCloseRead r now) s = Some s1) as Hstep1
    by (cbn [Muxer.step]; by rewrite Hheld).
  pose proof (step_Inv config init _ _ _ HI Hstep1) as HI1.
  destruct (step_Keeps config init r _ _ _ HI Hstep1) as (_ & _ & K13 & _).
  pose proof (K13 Hheld) as Hheld1.
  pose proof (handedOut_allocated r s1 Hheld1) as Hal1.
  assert (step (EvCancelRejected r true) s1 = Some s2) as Hstep2.
  { cbn [Muxer.step]. unfold allocated. by rewrite bool_decide_eq_true_2. }
  pose proof (step_Inv config init _ _ _ HI1 Hstep2) as HI2.
  destruct (step_Keeps config init r _ _ _ HI1 Hstep2) as (K21 & _ & K23 & _).
  pose proof (K23 Hheld1) as Hheld2.
  pose proof (handedOut_allocated r s2 Hheld2) as Hal2.
  destruct (closeRead_good init r now s (handedOut_allocated r s Hheld) HI)
    as (_ & _ & Hrc1 & _). fold s1 in Hrc1.
  assert (activeStreams s1 = activeStreams s) as Hact1.
  { subst s1. unfold closeRead.
    destruct (flag readerClosed r s); cbn [negb]; [by rewrite Hwc |].
    rewrite flag_upd_same by (by intros []).
    change (flag writerClosed r (emit ?es s)) with (flag writerClosed r s). by rewrite Hwc. }
  assert (flag readerClosed r s2 = true) as Hrc2 by (by apply K21).
  assert (flag writerClosed r s2 = true) as Hwc2
    by (subst s2; apply flag_upd_set; [done | by intros []]).
  destruct (close_good init r now' s2 Hal2 HI2) as (_ & _ & _ & _ & Hout).
  split_and!; try done.
  - cbn [Muxer.run]. rewrite Hstep1, Hstep2. cbn [Muxer.step]. by rewrite Hheld2.
  - change (activeStreams s2) with (activeStreams s1). by rewrite Hact1.
  - unfold close. rewrite natives_cleanup, natives_closeWrite, natives_closeRead.
    rewrite closeRead_writerClosed, Hrc2, Hwc2, !app_nil_r.
    change (natives s2) with (natives s1). subst s1. apply natives_closeRead.
Qed.

End WithInit.

Lemma stream_attributes_stable_witness :
  ∃ c', streams MoreSamples.oneClosedStream !! 0%nat = Some c'
        ∧ id c' = "0" ∧ stat_direction c' = outbound
        ∧ timeline_open c' = 100%Z ∧ native c' = 7%nat
        ∧ (false = true → readerClosed c' = true)
        ∧ (false = true → writerClosed c' = true)
        ∧ (false = true → sinkSunk c' = true).
Proof.
  apply (stream_attributes_stable Samples.muxerConfig Samples.muxerInit
           Samples.oneOpenStream [EvCloseRead 0 200; EvSinkFinally 0 300]
           MoreSamples.oneClosedStream 0 MoreSamples.openCell).
  - exists 0%nat, Samples.openOnly. vm_compute. reflexivity.
  - by vm_compute.
  - by vm_compute.
Defined.

Lemma stream_ids_distinct_witness :
  (∀ r c, streams Samples.oneOpenStream !! r = Some c →
     ∃ k, id c = pretty k ∧ (k < streamIDCounter Samples.oneOpenStream)%nat)
  ∧ (∀ r r' c c', streams Samples.oneOpenStream !! r = Some c →
       streams Samples.oneOpenStream !! r' = Some c' → id c = id c' → r = r').
Proof.
  apply (stream_ids_distinct Samples.muxerConfig Samples.muxerInit Samples.oneOpenStream).
  exists 0%nat, Samples.openOnly. vm_compute. reflexivity.
Defined.

Lemma active_set_well_formed_witness :
  NoDup (activeStreams Samples.oneOpenStream)
  ∧ (∀ r, r ∈ activeStreams Samples.oneOpenStream →
       handedOut r Samples.oneOpenStream = true ∧ removals r Samples.oneOpenStream = 0%nat
       ∧ ∃ c, streams Samples.oneOpenStream !! r = Some c ∧ timeline_close c = None)
  ∧ (∀ r c t, streams Samples.oneOpenStream !! r = Some c → timeline_close c = Some t →
       (r ∉ activeStreams Samples.oneOpenStream)
       ∧ removals r Samples.oneOpenStream = 1%nat).
Proof.
  apply (active_set_well_formed Samples.muxerConfig Samples.muxerInit Samples.oneOpenStream).
  exists 0%nat, Samples.openOnly. vm_compute. reflexivity.
Defined.

Lemma close_time_never_changes_witness :
  ∃ c', streams MoreSamples.oneClosedStream !! 0%nat = Some c'
        ∧ timeline_close c' = Some 300%Z.
Proof.
  apply (close_time_never_changes Samples.muxerConfig Samples.muxerInit
           MoreSamples.oneClosedStream [EvClose 0 900; EvAbort 0 950]
           MoreSamples.oneClosedStream 0 MoreSamples.closedCell 300).
  - exists 0%nat, Samples.openThenCloseBothHalves. vm_compute. reflexivity.
  - by vm_compute.
  - by vm_compute.
  - reflexivity.
Defined.

Lemma close_time_is_time_of_removal_witness :
  onStream (EvClose 0 400) = true
  ∧ removals 0 (close Samples.muxerInit 0 400 Samples.oneOpenStream) = 1%nat
  ∧ ∃ c', streams (close Samples.muxerInit 0 400 Samples.oneOpenStream) !! 0%nat = Some c'
          ∧ timeline_close c' = Some (timeOf (EvClose 0 400)).
Proof.
  apply (close_time_is_time_of_removal Samples.muxerConfig Samples.muxerInit
           Samples.oneOpenStream (EvClose 0 400)).
  - exists 0%nat, Samples.openOnly. vm_compute. reflexivity.
  - by vm_compute.
  - apply (bool_decide_unpack _). by vm_compute.
  - apply (bool_decide_unpack _). by vm_compute.
Defined.

Lemma finalized_stream_stays_out_witness :
  handedOut 0 MoreSamples.oneClosedStream = true
  ∧ (0%nat ∉ activeStreams MoreSamples.oneClosedStream)
  ∧ removals 0 MoreSamples.oneClosedStream = removals 0 MoreSamples.oneClosedStream.
Proof.
  apply (finalized_stream_stays_out Samples.muxerConfig Samples.muxerInit
           MoreSamples.oneClosedStream [EvClose 0 900; EvAbort 0 950]
           MoreSamples.oneClosedStream 0).
  - exists 0%nat, Samples.openThenCloseBothHalves. vm_compute. reflexivity.
  - by vm_compute.
  - by vm_compute.
  - apply (bool_decide_unpack _). by vm_compute.
Defined.

Lemma close_and_abort_finalize_witness :
  let s' := abort Samples.muxerInit 0 400 Samples.oneOpenStream in
  flag readerClosed 0 s' = true ∧ flag writerClosed 0 s' = true
  ∧ (0%nat ∉ activeStreams s') ∧ removals 0 s' = 1%nat
  ∧ ∃ c' t, streams s' !! 0%nat = Some c' ∧ timeline_close c' = Some t
            ∧ (0%nat ∈ activeStreams Samples.oneOpenStream → t = 400%Z).
Proof.
  apply (close_and_abort_finalize Samples.muxerConfig Samples.muxerInit
           Samples.oneOpenStream 0 400).
  - exists 0%nat, Samples.openOnly. vm_compute. reflexivity.
  - by vm_compute.
  - right. by right.
Defined.

Lemma inbound_loop_end_is_final_witness :
  loop (default Samples.freshMuxer
          (run Samples.muxerConfig Samples.muxerInit
               [EvInboundRead ReadDone true 10; EvNewStreamWrap 7 true 100;
                EvNewStreamPush 0; EvClose 0 200]
               Samples.freshMuxer)) = LoopEnded
  ∧ (∀ e, e ∈ [EvNewStreamWrap 7 true 100; EvNewStreamPush 0; EvClose 0 200] →
          inboundEvent e = false)
  ∧ List.filter inboundEffect
      (effects (default Samples.freshMuxer
                  (run Samples.muxerConfig Samples.muxerInit
                       [EvInboundRead ReadDone true 10; EvNewStreamWrap 7 true 100;
                        EvNewStreamPush 0; EvClose 0 200]
                       Samples.freshMuxer)))
    = List.filter inboundEffect (effects Samples.freshMuxer).
Proof.
  apply (inbound_loop_end_is_final Samples.muxerConfig Samples.muxerInit
           ReadDone true 10 Samples.freshMuxer
           (set_loop LoopEnded Samples.freshMuxer)).
  - reflexivity.
  - reflexivity.
  - by vm_compute.
Defined.

Lemma outbound_streams_count_against_inbound_witness :
  let s' := newStreams Samples.muxerInit [7; 8]%nat 100 Samples.freshMuxer in
  length (activeStreams s') = (length (activeStreams Samples.freshMuxer) + 2)%nat
  ∧ inbound_iteration Samples.muxerConfig Samples.muxerInit (ReadStream 9) true 300 s'
    = emit [WritableClose 9; ReadableCancel 9] s'.
Proof.
  apply (outbound_streams_count_against_inbound Samples.muxerConfig Samples.muxerInit
           [7; 8]%nat 100 Samples.freshMuxer 9 true 300).
  - reflexivity.
  - by vm_compute.
Defined.

Lemma remote_close_finalizes_witness :
  let s' := onWriterClosed Samples.muxerInit 0 300 MoreSamples.readHalfClosed in
  flag readerClosed 0 s' = true ∧ flag writerClosed 0 s' = true
  ∧ (0%nat ∉ activeStreams s') ∧ natives s' = natives MoreSamples.readHalfClosed.
Proof.
  apply (remote_close_finalizes Samples.muxerConfig Samples.muxerInit
           MoreSamples.readHalfClosed 0 300 (EvWriterClosed 0 300)).
  - exists 0%nat, (Samples.openOnly ++ [EvCloseRead 0 200]). vm_compute. reflexivity.
  - left. split; [reflexivity | vm_compute; reflexivity].
  - vm_compute. reflexivity.
Defined.

Lemma reset_rejection_skips_writer_close_witness :
  let s1 := closeRead Samples.muxerInit 0 200 Samples.oneOpenStream in
  let s2 := onCancelRejected 0 true s1 in
  let s3 := close Samples.muxerInit 0 300 s2 in
  run Samples.muxerConfig Samples.muxerInit
      [EvCloseRead 0 200; EvCancelRejected 0 true; EvClose 0 300] Samples.oneOpenStream
  = Some s3
  ∧ 0%nat ∈ activeStreams s2
  ∧ flag readerClosed 0 s2 = true ∧ flag writerClosed 0 s2 = true
  ∧ (0%nat ∉ activeStreams s3)
  ∧ natives s3
    = natives Samples.oneOpenStream
      ++ (if flag readerClosed 0 Samples.oneOpenStream then []
          else [ReaderCancel (nativeOf 0 Samples.oneOpenStream)]).
Proof.
  apply (reset_rejection_skips_writer_close Samples.muxerConfig Samples.muxerInit
           Samples.oneOpenStream 0 200 300).
  - exists 0%nat, Samples.openOnly. vm_compute. reflexivity.
  - vm_compute. reflexivity.
  - apply (bool_decide_unpack _). vm_compute. exact I.
  - vm_compute. reflexivity.
Defined.

End StepFacts.

(** ** dial, end to end *)

Module TransportFacts.
Import Types Transport DialTrace ParseFacts.

Section WithCodecs.
Variable decodeCerthashStr : string -> option MultihashDigest.
Variable peerIdFromString : string -> option PeerId.

Local Abbreviation reduce := (Transport.reduce decodeCerthashStr peerIdFromString).
Local Abbreviation reducer := (Transport.reducer decodeCerthashStr peerIdFromString).
Local Abbreviation parseMultiaddr := (Transport.parseMultiaddr decodeCerthashStr peerIdFromString).
Local Abbreviation dial := (Transport.dial decodeCerthashStr peerIdFromString).

(** The outcome of [authenticateWebTransport], by the handshake. *)
Lemma authenticate_by_handshake (env : DialEnv) (hs : list MultihashDigest) :
  match handshake env with
  | Some ext =>
      authenticateWebTransport env hs
      = (if Utils.isSubset (nullish ext []) (bytes <$> hs)
         then Ok true else Throw notSubsetError,
         [CreateBidirectionalStream; AuthWriterClose; AuthReaderCancel])
  | None =>
      snd (authenticateWebTransport env hs) = [CreateBidirectionalStream]
      ∧ ∃ e, fst (authenticateWebTransport env hs) = Throw e
             ∧ (createBidirectionalStream env = Throw e ∨ writerReady env = Throw e
                ∨ secureOutbound env = Throw e)
  end.
Proof.
  unfold handshake, authenticateWebTransport.
  destruct (createBidirectionalStream env) as [h | e];
    [| cbn; split; [done |]; exists e; auto].
  destruct (writerReady env) as [[] | e];
    [| cbn; split; [done |]; exists e; auto].
  destruct (secureOutbound env) as [ext | e];
    [| cbn; split; [done |]; exists e; auto].
  by destruct (Utils.isSubset _ _).
Qed.

Ltac dial_cases t parts env :=
  unfold Transport.dial, dial_try;
  destruct (components_peerId t) as [localPeer |]; cbn [fst snd];
  [destruct (Transport.parseMultiaddr _ _ parts) as [p | eParse]; cbn [fst snd];
   [unfold wtReady; destruct (session env) as [eNew | eReady |] eqn:Hsession;
    cbn [fst snd is_throw];
    [ | | pose proof (authenticate_by_handshake env (p_certhashes p)) as Hauth;
     destruct (handshake env) as [ext |];
     [rewrite Hauth; clear Hauth;
      destruct (Utils.isSubset (nullish ext []) (bytes <$> p_certhashes p)) eqn:Hsub;
      cbn [fst snd];
      [destruct (signalAborted env) eqn:Hsig; cbn [fst snd];
       [| destruct (upgradeOutbound env) as [connection | eUp] eqn:Hup; cbn [fst snd]] |]
     | destruct Hauth as (Htrace & eAuth & Hres & Hwhy);
       destruct (authenticateWebTransport env (p_certhashes p)) as [res tr];
       cbn [fst snd] in Htrace, Hres; subst res tr; cbn [fst snd]]
    ] |] |].

(** X13: [dial] returns a connection exactly when there is a local peer id, the
    address parses, the session becomes ready, the handshake on the
    authentication stream goes through, the hashes of the address are among
    those the remote reports, the signal is not aborted and the upgrader
    returns that connection. *)
Theorem dial_succeeds_iff
    (t : WebTransportTransport) (parts : list (Z * option string)) (env : DialEnv) (conn : nat) :
  fst (dial t parts env) = Ok conn
  ↔ ∃ p ext,
      is_Some (components_peerId t)
      ∧ parseMultiaddr parts = Ok p
      ∧ is_throw (wtReady env) = false
      ∧ handshake env = Some ext
      ∧ Utils.isSubset (nullish ext []) (bytes <$> p_certhashes p) = true
      ∧ signalAborted env = false
      ∧ upgradeOutbound env = Ok conn.
Proof.
  split.
  - dial_cases t parts env; try done.
    intros [= ->]. exists p, ext. split_and!; eauto.
  - intros (p & ext & [lp Hlp] & Hparse & Hready & Hhs & Hsub & Hsig & Hup).
    unfold Transport.dial, dial_try. rewrite Hlp, Hparse.
    unfold wtReady in Hready. destruct (session env); try discriminate Hready.
    pose proof (authenticate_by_handshake env (p_certhashes p)) as Hauth.
    rewrite Hhs, Hsub in Hauth. by rewrite Hauth, Hsig, Hup.
Qed.

(** X14: [dial] and the native session.  Without a local peer id or a parsed
    address no session is made.  A session whose [ready] rejects is left as
    it is: [dial] does not close it.  After that, every failure closes the
    session, as the last thing [dial] does, and a successful dial never
    closes it.  The session is closed twice when the signal is found aborted
    after the authentication, once on every other failure. *)
Theorem dial_session_closing
    (t : WebTransportTransport) (parts : list (Z * option string)) (env : DialEnv) :
  let res := fst (dial t parts env) in
  let es := snd (dial t parts env) in
  (sessionMade es = false
   ↔ components_peerId t = None ∨ is_throw (parseMultiaddr parts) = true)
  ∧ (sessionMade es = false → es = [] ∧ is_throw res = true)
  ∧ (is_throw res = false → sessionCloses es = 0%nat)
  ∧ (is_throw (wtReady env) = true → sessionCloses es = 0%nat ∧ is_throw res = true)
  ∧ (∀ p, sessionMade es = true → parseMultiaddr parts = Ok p →
          is_throw (wtReady env) = false → is_throw res = true →
          last es = Some WtClose
          ∧ sessionCloses es
            = if authenticates env (p_certhashes p) && signalAborted env then 2%nat else 1%nat).
Proof.
  cbn zeta. unfold authenticates.
  dial_cases t parts env; rewrite ?Hsub, ?Hsig; cbn [andb];
    split_and!; try done; try (intros; split; done);
    try (by split; [intros ? | intros [? | ?]]);
    try (by split; [intros ? | auto]);
    try (intros q _ [= <-] _ _; by rewrite ?Hsub);
    split; auto.
Qed.

(** X15: The upgrader is called only for an authenticated session: by then the
    handshake went through, the hashes of the address were found among the
    reported ones, the authentication stream was closed, and the signal was
    not aborted.  It is called at most once, with the configuration of the
    transport. *)
Theorem upgrader_called_only_once_authenticated
    (t : WebTransportTransport) (parts : list (Z * option string)) (env : DialEnv)
    (c : Muxer.WebTransportMuxerInit) :
  UpgradeOutbound c ∈ snd (dial t parts env) →
  c = dial_muxerConfig t
  ∧ signalAborted env = false
  ∧ ∃ p rest,
      parseMultiaddr parts = Ok p
      ∧ authenticates env (p_certhashes p) = true
      ∧ snd (dial t parts env)
        = [NewWebTransport (p_url p +:+ "/.well-known/libp2p-webtransport?type=noise")
                           (digest <$> p_certhashes p);
           CreateBidirectionalStream; AuthWriterClose; AuthReaderCancel; UpgradeOutbound c]
          ++ rest
      ∧ (rest = [] ∨ rest = [WtClose]).
Proof.
  unfold authenticates.
  dial_cases t parts env; intros Hin;
    repeat (apply elem_of_cons in Hin as [Hin | Hin]; [try done |]);
    try (by apply elem_of_nil in Hin);
    injection Hin as ->; (split; [done |]); (split; [done |]).
  - exists p, []. rewrite Hsub. split_and!; auto.
  - exists p, [WtClose]. rewrite Hsub. split_and!; auto.
Qed.

(** X16: Where the errors of [dial] come from.  An error of [dial] is the
    missing local peer id, an error of the parser, an error thrown by the
    constructor of the session, a rejection of [wt.ready], of
    [createBidirectionalStream], of [writer.ready], of the handshake or of
    the upgrader, the failed subset test, or the abort.  So [dial] itself
    never raises its authentication error: [authenticateWebTransport]
    returns true or throws. *)
Theorem dial_error_provenance
    (t : WebTransportTransport) (parts : list (Z * option string)) (env : DialEnv)
    (e : Error) :
  fst (dial t parts env) = Throw e →
  e = Err "Need a local peerid"
  ∨ parseMultiaddr parts = Throw e
  ∨ session env = ConstructorThrows e
  ∨ session env = ReadyRejects e
  ∨ createBidirectionalStream env = Throw e
  ∨ writerReady env = Throw e
  ∨ secureOutbound env = Throw e
  ∨ e = notSubsetError
  ∨ e = AbortError
  ∨ upgradeOutbound env = Throw e.
Proof.
  dial_cases t parts env; intros [= <-]; auto 11.
  destruct Hwhy as [? | [? | ?]]; auto 11.
Qed.

(** *** The shape of an accepted address *)

Lemma reduce_without_markers (parts : list (Z * option string)) (st st' : ParseState) :
  reduce parts st = Ok st' → reduce (withoutMarkers parts) st = Ok st'.
Proof.
  revert st. induction parts as [| [proto value] parts IH]; intros st; [done |].
  cbn [Transport.reduce withoutMarkers List.filter fst].
  destruct (reducer st (proto, value)) as [st1 | e] eqn:Hred; [| done].
  intros Hrest. fold (withoutMarkers parts).
  destruct (isMarker proto) eqn:Hm; cbn [negb].
  - assert (st1 = st) as ->; [| by apply IH].
    unfold Transport.reducer in Hred. by_kind proto; try done.
    destruct (negb (seenHost st) || negb (seenPort st)); congruence.
  - cbn [Transport.reduce]. rewrite Hred. by apply IH.
Qed.

(** X17: The [quic] and [webtransport] components carry no information: they are
    checked for their position only, and an accepted address is parsed to the
    same URL, hashes and peer without them.  The parser does not ask for
    them either. *)
Theorem markers_carry_no_information (parts : list (Z * option string)) (p : Parsed) :
  parseMultiaddr parts = Ok p → parseMultiaddr (withoutMarkers parts) = Ok p.
Proof.
  unfold Transport.parseMultiaddr.
  destruct (reduce parts initialState) as [st |] eqn:Hred; [| done].
  intros [= <-]. by rewrite (reduce_without_markers _ _ _ Hred).
Qed.

Lemma reduce_shape (parts : list (Z * option string)) (st st' : ParseState) :
  reduce parts st = Ok st' →
  (seenHost st || seenPort st = true → hosts parts = [])
  ∧ (seenPort st = true → ports parts = [])
  ∧ (length (hosts parts) ≤ 1)%nat ∧ (length (ports parts) ≤ 1)%nat
  ∧ url st' = url st +:+ hostText parts +:+ portText parts
  ∧ (marked parts = true →
     (seenHost st = true ∨ length (hosts parts) = 1%nat)
     ∧ (seenPort st = true ∨ length (ports parts) = 1%nat)).
Proof.
  revert st. induction parts as [| [proto value] parts IH]; intros st.
  - intros [= <-]. unfold hostText, portText, marked, hosts, ports.
    cbn [List.filter fmap list_fmap foldr existsb length].
    rewrite !string_app_nil_r. split_and!; done || lia.
  - cbn [Transport.reduce].
    destruct (reducer st (proto, value)) as [st1 | e] eqn:Hred; [| done].
    intros Hrest. apply IH in Hrest as (Hh & Hp & Hlh & Hlp & Hu & Hm). clear IH.
    unfold hostText, portText, marked, hosts, ports in *.
    cbn [List.filter existsb fst snd].
    unfold Transport.reducer in Hred.
    destruct st as [u cs sh sp rp]; cbn [seenHost seenPort url certhashes remotePeer] in *.
    by_kind proto; cbn [negb orb andb] in *.
    + destruct sh, sp; try done. injection Hred as <-.
      cbn [seenHost seenPort url orb] in *. rewrite Hu, (Hh eq_refl).
      cbn [length fmap list_fmap foldr snd].
      rewrite ?string_app_assoc, ?string_app_nil_r.
      split_and!; try done; try lia.
      intros Hmk. destruct (Hm Hmk) as [_ Hport]. auto.
    + destruct sh, sp; try done. injection Hred as <-.
      cbn [seenHost seenPort url orb] in *. split_and!; auto.
    + destruct sp; try done. injection Hred as <-.
      cbn [seenHost seenPort url orb] in *.
      rewrite orb_true_r in Hh. rewrite Hu, (Hh eq_refl), (Hp eq_refl).
      cbn [length fmap list_fmap foldr snd].
      rewrite ?string_app_assoc, ?string_app_nil_r.
      split_and!; try done; try lia; try (by destruct sh).
      intros Hmk. destruct (Hm Hmk) as [Hhost _]. split; [| by right].
      destruct Hhost as [? | Hhost]; [by left | by rewrite (Hh eq_refl) in Hhost].
    + destruct sh, sp; try done.
      destruct (decodeCerthashStr (nullish value "")) as [d |]; [| done].
      injection Hred as <-. cbn [seenHost seenPort url orb] in *. split_and!; auto.
    + destruct (peerIdFromString (nullish value "")) as [q |]; [| done].
      injection Hred as <-. cbn [seenHost seenPort url orb] in *. split_and!; auto.
    + done.
Qed.

(** X18: An accepted address has at most one host component and at most one port
    component, and its URL is [https://], the host, and the port after a
    colon; an accepted address with a [quic], [webtransport] or [certhash]
    component has both a host and a port. *)
Theorem accepted_address_shape (parts : list (Z * option string)) (p : Parsed) :
  parseMultiaddr parts = Ok p →
  (length (hosts parts) ≤ 1)%nat
  ∧ (length (ports parts) ≤ 1)%nat
  ∧ p_url p = "https://" +:+ hostText parts +:+ portText parts
  ∧ (marked parts = true →
     length (hosts parts) = 1%nat ∧ length (ports parts) = 1%nat).
Proof.
  unfold Transport.parseMultiaddr.
  destruct (reduce parts initialState) as [st |] eqn:Hred; [| done].
  intros [= <-]. cbn [p_url].
  destruct (reduce_shape _ _ _ Hred) as (_ & _ & Hlh & Hlp & Hu & Hm).
  split_and!; try done.
  intros Hmk. destruct (Hm Hmk) as [[? | ?] [? | ?]]; done.
Qed.

End WithCodecs.

Lemma upgrader_called_only_once_authenticated_witness :
  dial_muxerConfig Samples.defaultTransport = dial_muxerConfig Samples.defaultTransport
  ∧ signalAborted Samples.listenerReportsY = false
  ∧ ∃ p rest,
      Transport.parseMultiaddr Samples.decodeCerthashStr Samples.peerIdFromString
                               Samples.addressWithoutCerthash = Ok p
      ∧ authenticates Samples.listenerReportsY (p_certhashes p) = true
      ∧ snd (Transport.dial Samples.decodeCerthashStr Samples.peerIdFromString
                            Samples.defaultTransport Samples.addressWithoutCerthash
                            Samples.listenerReportsY)
        = [NewWebTransport (p_url p +:+ "/.well-known/libp2p-webtransport?type=noise")
                           (digest <$> p_certhashes p);
           CreateBidirectionalStream; AuthWriterClose; AuthReaderCancel;
           UpgradeOutbound (dial_muxerConfig Samples.defaultTransport)]
          ++ rest
      ∧ (rest = [] ∨ rest = [WtClose]).
Proof.
  apply (upgrader_called_only_once_authenticated
           Samples.decodeCerthashStr Samples.peerIdFromString
           Samples.defaultTransport Samples.addressWithoutCerthash Samples.listenerReportsY).
  apply (bool_decide_unpack _). vm_compute. exact I.
Defined.

Lemma dial_error_provenance_witness :
  let e := External "new WebTransport" in
  let env := MoreSamples.constructorThrows in
  e = Err "Need a local peerid"
  ∨ Transport.parseMultiaddr Samples.decodeCerthashStr Samples.peerIdFromString
                             MoreSamples.addressIp6 = Throw e
  ∨ session env = ConstructorThrows e
  ∨ session env = ReadyRejects e
  ∨ createBidirectionalStream env = Throw e
  ∨ writerReady env = Throw e
  ∨ secureOutbound env = Throw e
  ∨ e = notSubsetError
  ∨ e = AbortError
  ∨ upgradeOutbound env = Throw e.
Proof.
  apply (dial_error_provenance Samples.decodeCerthashStr Samples.peerIdFromString
           Samples.defaultTransport MoreSamples.addressIp6 MoreSamples.constructorThrows).
  vm_compute. reflexivity.
Defined.

Lemma markers_carry_no_information_witness :
  Transport.parseMultiaddr Samples.decodeCerthashStr Samples.peerIdFromString
                           (withoutMarkers Samples.addressWithoutCerthash)
  = Ok MoreSamples.parsedWithoutCerthash.
Proof.
  apply (markers_carry_no_information Samples.decodeCerthashStr Samples.peerIdFromString
           Samples.addressWithoutCerthash).
  vm_compute. reflexivity.
Defined.

Lemma accepted_address_shape_witness :
  (length (hosts Samples.addressWithoutCerthash) ≤ 1)%nat
  ∧ (length (ports Samples.addressWithoutCerthash) ≤ 1)%nat
  ∧ p_url MoreSamples.parsedWithoutCerthash
    = "https://" +:+ hostText Samples.addressWithoutCerthash
      +:+ portText Samples.addressWithoutCerthash
  ∧ (marked Samples.addressWithoutCerthash = true →
     length (hosts Samples.addressWithoutCerthash) = 1%nat
     ∧ length (ports Samples.addressWithoutCerthash) = 1%nat).
Proof.
  apply (accepted_address_shape Samples.decodeCerthashStr Samples.peerIdFromString
           Samples.addressWithoutCerthash).
  vm_compute. reflexivity.
Defined.

End TransportFacts.

(** ** The listener: sessions, close and addresses *)

Module ListenerFacts.
Import Types Listener ListenerSession.

(** On the sessions of [Listener.SessionEnv], the two descriptions of
    [onSession] agree. *)
Lemma onSession_ofSessionEnv (l : WebTransportListener) (env : SessionEnv) :
  ListenerSession.onSession l (ofSessionEnv env) = Listener.onSession l env.
Proof.
  unfold ListenerSession.onSession, Listener.onSession, ofSessionEnv; cbn.
  destruct (firstRead env); [| done].
  destruct (secureInbound env); [| done].
  destruct (upgradeInbound env); [| done].
  by destruct (hasHandler env).
Qed.

Ltac mem_inv H :=
  repeat (apply elem_of_cons in H as [H | H]; [try discriminate H |]);
  try (apply elem_of_nil in H; destruct H).

Ltac session_cases env :=
  unfold ListenerSession.handleSession, ListenerSession.onSession, upgraded;
  destruct (read env) as [[bidistream |] | eRead] eqn:Hread; cbn [fst snd];
  [destruct (secure env) as [remotePeer | eSecure] eqn:Hsecure; cbn [fst snd];
   [destruct (upgrade env) as [connection | eUpgrade] eqn:Hupgrade; cbn [fst snd];
    [destruct (handler env) as [[[] | eHandler] |] eqn:Hhandler; cbn [fst snd] | ] | ] | | ].

(** X19: What [listen]'s session handler does to a session.  It closes the
    session at most once, and then as its last action; it leaves the session
    open exactly when the first read reports the end of the streams or the
    connection is announced.  The plain close is the answer to a rejected
    read or handshake, the close with code 500 the answer to a failed upgrade
    or a throwing handler.  The connection is announced exactly when the
    session was upgraded and the handler, if there is one, returned. *)
Theorem session_closed_exactly_when_it_fails (l : WebTransportListener) (env : Env) :
  let es := snd (ListenerSession.handleSession l env) in
  (length (List.filter isClose es) ≤ 1)%nat
  ∧ (length (List.filter isClose es) = 0%nat
     ↔ read env = Ok None ∨ ∃ c, DispatchConnection c ∈ es)
  ∧ (length (List.filter isClose es) = 1%nat →
     ∃ e, last es = Some e ∧ isClose e = true)
  ∧ (SessionClose ∈ es
     ↔ is_throw (read env) = true
       ∨ (∃ b, read env = Ok (Some b)) ∧ is_throw (secure env) = true)
  ∧ (∀ code reason, SessionCloseWith code reason ∈ es →
       code = 500%Z
       ∧ ∃ err, reason = message err
                ∧ (upgrade env = Throw err ∨ handler env = Some (Throw err)))
  ∧ (∀ c, DispatchConnection c ∈ es
          ↔ upgraded env = Some c ∧ ∀ err, handler env ≠ Some (Throw err)).
Proof.
  cbn zeta. session_cases env; cbn [List.filter isClose length app];
  (split_and!;
   [ lia
   | split;
     [ intros Hn;
       first [ discriminate Hn | by left
             | right; eexists; rewrite !elem_of_cons; by auto 10 ]
     | intros [Heq | [c Hc]]; first [ done | discriminate Heq | by mem_inv Hc ] ]
   | intros Hn; first [ discriminate Hn | by eexists ]
   | split;
     [ intros Hc; mem_inv Hc; first [ by left | right; (split; [by eexists | done]) ]
     | intros [Ht | [[b Hb] Ht]];
       first [ discriminate | rewrite !elem_of_cons; by auto 10 ] ]
   | intros code reason Hc; mem_inv Hc; injection Hc as -> ->;
     (split; [done | eexists; (split; [reflexivity | by auto]) ])
   | intros c; split;
     [ intros Hc; mem_inv Hc; injection Hc as ->; (split; [done | by intros err])
     | intros [Hup Hh];
       first [ discriminate Hup
             | injection Hup as <-;
               first [ rewrite !elem_of_cons; by auto 10 | by destruct (Hh _ eq_refl) ] ] ]
   ]).
Qed.

(** *** The connections of a listener *)

Lemma handleSession_listener (l : WebTransportListener) (env : Env) :
  connections (fst (ListenerSession.handleSession l env))
  = connections l ++ option_list (upgraded env)
  ∧ certificates (fst (ListenerSession.handleSession l env)) = certificates l
  ∧ peerId (fst (ListenerSession.handleSession l env)) = peerId l.
Proof. session_cases env; cbn; by rewrite ?app_nil_r. Qed.

Lemma handleSessions_listener (l : WebTransportListener) (envs : list Env) :
  connections (handleSessions l envs) = connections l ++ omap upgraded envs
  ∧ certificates (handleSessions l envs) = certificates l
  ∧ peerId (handleSessions l envs) = peerId l.
Proof.
  revert l. induction envs as [| env envs IH]; intros l; cbn [handleSessions omap list_omap].
  - by rewrite app_nil_r.
  - destruct (IH (fst (ListenerSession.handleSession l env))) as (-> & -> & ->).
    destruct (handleSession_listener l env) as (-> & -> & ->).
    rewrite <- app_assoc. by destruct (upgraded env).
Qed.

Lemma mapResult_attemptClose (closes : nat → Result unit) (conns : list nat) :
  ∃ us, mapResult (attemptClose closes) conns = Ok us.
Proof.
  induction conns as [| conn conns [us IH]]; cbn [mapResult]; [by eexists |].
  rewrite IH. unfold attemptClose. destruct (closes conn); by eexists.
Qed.

(** X20: The listener keeps every connection it has upgraded, in the order of the
    upgrades, also those whose handler threw and whose session it therefore
    closed; sessions that were not upgraded leave no trace in it.  [close]
    on a listening listener calls [close] on each of them, in that order,
    then stops the server, and it does not reject even if every one of those
    calls does. *)
Theorem close_closes_every_upgraded_connection
    (l : WebTransportListener) (envs : list Env) (closes : nat → Result unit) :
  connections (handleSessions l envs) = connections l ++ omap upgraded envs
  ∧ ListenerSession.close (handleSessions l envs) true closes
    = (Ok tt, (ConnClose <$> connections l ++ omap upgraded envs) ++ [ServerClose]).
Proof.
  destruct (handleSessions_listener l envs) as (Hc & _ & _).
  split; [done |]. unfold ListenerSession.close.
  destruct (mapResult_attemptClose closes (connections (handleSessions l envs))) as [us ->].
  by rewrite Hc.
Qed.

(** *** The addresses of a listener *)

Section WithLibraries.
Import Transport ListenerAddrs Announced DialTrace.
Variable networks : list (option (list NetAddr)).
Variable base64url : list Z → string.
Variable ipText : Z → string → option string.
Variable decodeCerthashStr : string → option MultihashDigest.
Variable peerIdFromString : string → option PeerId.

Local Abbreviation reduce := (Transport.reduce decodeCerthashStr peerIdFromString).
Local Abbreviation parseMultiaddr := (Transport.parseMultiaddr decodeCerthashStr peerIdFromString).
Local Abbreviation getAddrs := (ListenerAddrs.getAddrs networks base64url ipText).

Lemma mapResult_elem {A B} (f : A → Result B) (xs : list A) (ys : list B) (y : B) :
  mapResult f xs = Ok ys → y ∈ ys → ∃ x, x ∈ xs ∧ f x = Ok y.
Proof.
  revert ys. induction xs as [| x xs IH]; intros ys; cbn [mapResult].
  - intros [= <-] Hy. by apply elem_of_nil in Hy.
  - destruct (f x) as [y0 |] eqn:Hx; [| done].
    destruct (mapResult f xs) as [ys0 |]; [| done].
    intros [= <-] [-> | Hy]%elem_of_cons.
    + exists x. split; [by left | done].
    + destruct (IH ys0 eq_refl Hy) as (x' & Hx' & Hfx'). exists x'. split; [by right | done].
Qed.

Lemma reduce_app (a b : list (Z * option string)) (st : ParseState) :
  reduce (a ++ b) st
  = match reduce a st with Ok st1 => reduce b st1 | Throw e => Throw e end.
Proof.
  revert st. induction a as [| part a IH]; intros st; [done |].
  cbn [app Transport.reduce]. by destruct (Transport.reducer _ _ st part).
Qed.

Lemma reduce_certhashes (certs : list WebTransportCertificate) (st : ParseState) :
  seenHost st = true → seenPort st = true →
  (∀ cert, cert ∈ certs →
     decodeCerthashStr (base64url (bytes (hash cert))) = Some (hash cert)) →
  reduce (ListenerAddrs.certhashes base64url certs) st
  = Ok (mkParseState (url st) (Transport.certhashes st ++ (hash <$> certs))
                     true true (remotePeer st)).
Proof.
  revert st. induction certs as [| cert certs IH]; intros st Hh Hp Hdec.
  - cbn. rewrite app_nil_r. destruct st; cbn in *; by subst.
  - cbn [ListenerAddrs.certhashes fmap list_fmap Transport.reduce Transport.reducer].
    change (isHost certhash) with false. change (isMarker certhash) with false.
    change (bool_decide (certhash = udp)) with false.
    change (bool_decide (certhash = certhash)) with true.
    cbn [nullish]. rewrite Hh, Hp, (Hdec cert) by by left. cbn [negb orb].
    fold (ListenerAddrs.certhashes base64url certs).
    rewrite IH; [| done | done | intros c Hc; apply Hdec; by right].
    cbn. by rewrite <- app_assoc.
Qed.

Lemma reduce_toMa (proto : Proto) (text : string) (portNumber : nat) :
  reduce [(protoCode proto, Some text); (udp, Some (pretty portNumber));
          (quic, None); (webtransport, None)] initialState
  = Ok (mkParseState (("https://" +:+ text) +:+ ":" +:+ pretty portNumber) [] true true None).
Proof. by destruct proto. Qed.

Lemma mapResult_Forall2 {A B} (f : A → Result B) (xs : list A) (ys : list B) :
  mapResult f xs = Ok ys → Forall2 (λ x y, f x = Ok y) xs ys.
Proof.
  revert ys. induction xs as [| x xs IH]; intros ys; cbn [mapResult].
  - intros [= <-]. constructor.
  - destruct (f x) as [y |] eqn:Hx; [| done].
    destruct (mapResult f xs) as [ys0 |]; [| done].
    intros [= <-]. constructor; [done | by apply IH].
Qed.

Lemma mapResult_Ok {A B} (f : A → Result B) (xs : list A) :
  (∀ x, x ∈ xs → is_throw (f x) = false) → ∃ ys, mapResult f xs = Ok ys.
Proof.
  induction xs as [| x xs IH]; intros Hall; cbn [mapResult]; [by eexists |].
  destruct (f x) as [y |] eqn:Hx.
  - destruct IH as [ys ->]; [intros x' Hx'; apply Hall; by right | by eexists].
  - specialize (Hall x (list_elem_of_here _ _)). by rewrite Hx in Hall.
Qed.

Lemma mapResult_Throw {A B} (f : A → Result B) (xs : list A) (x : A) :
  x ∈ xs → is_throw (f x) = true → is_throw (mapResult f xs) = true.
Proof.
  induction xs as [| x0 xs IH]; [by intros ?%elem_of_nil |].
  intros [-> | Hin]%elem_of_cons Hx; cbn [mapResult].
  - by destruct (f x0).
  - destruct (f x0); [| done]. specialize (IH Hin Hx).
    by destruct (mapResult f xs).
Qed.

(** What [toMa] and the [encapsulate] of [getAddrs] make of one address. *)
Lemma toMa_announced (l : WebTransportListener) (address : ServerAddress)
    (ip : string) (ma : Multiaddr) :
  toMa base64url ipText (protoOf address) (port address) (Listener.certificates l) ip = Ok ma →
  ∃ text, ipText (protoCode (protoOf address)) ip = Some text
          ∧ match peerId l with
            | Some p => ma ++ [(p2p, Some (peerIdText p))]
            | None => ma
            end = announced base64url l address text.
Proof.
  unfold toMa, announced.
  destruct (ipText (protoCode (protoOf address)) ip) as [text |]; [| done].
  intros [= <-]. exists text. split; [done |]. unfold ListenerAddrs.certhashes.
  destruct (peerId l); cbn [app]; [done | by rewrite app_nil_r].
Qed.

Lemma getAddrs_elem (l : WebTransportListener) (started : bool)
    (server : option (option ServerAddress)) (ma : Multiaddr) :
  ma ∈ getAddrs l started server →
  ∃ address ip text,
    started = true ∧ server = Some (Some address)
    ∧ ip ∈ reachedAt networks address
    ∧ ipText (protoCode (protoOf address)) ip = Some text
    ∧ ma = announced base64url l address text.
Proof.
  unfold ListenerAddrs.getAddrs. intros Hin.
  destruct started; [| by apply elem_of_nil in Hin].
  destruct server as [[address |] |]; try by apply elem_of_nil in Hin.
  fold (protoOf address) in Hin.
  destruct (getMultiaddrs networks base64url ipText (protoOf address) (host address)
              (port address) (Listener.certificates l)) as [mas |] eqn:Hmas;
    [| by apply elem_of_nil in Hin].
  apply list_elem_of_fmap in Hin as (ma0 & -> & Hma0).
  destruct (mapResult_elem _ _ _ _ Hmas Hma0) as (ip & Hip & Hto).
  destruct (toMa_announced l address ip ma0 Hto) as (text & Htext & Hma).
  exists address, ip, text. by split_and!.
Qed.

(** X21: Every address a listener gives out is one the dialer's parser
    accepts and its authentication passes.  [parseMultiaddr] turns it into
    the URL made of the host the server is reached at (in the form
    [multiaddr] keeps for it) and the port of the server, the hashes of the
    listener's certificates in the order of the certificates, and the
    listener's peer id; and when the handshake delivers the hashes the
    listener puts into its noise extensions, [authenticateWebTransport]
    returns true for the parsed hashes.  This holds as long as a hash
    written by [base64url.encode] and a peer id written by [toString] are
    read back as they were. *)
Theorem advertised_addresses_parse_and_authenticate
    (l : WebTransportListener) (started : bool) (server : option (option ServerAddress))
    (ma : Multiaddr) (env : DialEnv) :
  (∀ cert, cert ∈ Listener.certificates l →
     decodeCerthashStr (base64url (bytes (hash cert))) = Some (hash cert)) →
  (∀ p, peerId l = Some p → peerIdFromString (peerIdText p) = Some p) →
  ma ∈ getAddrs l started server →
  handshake env = Some (Some (webtransportCerthashes l)) →
  ∃ address ip text,
    server = Some (Some address)
    ∧ ip ∈ reachedAt networks address
    ∧ ipText (protoCode (protoOf address)) ip = Some text
    ∧ parseMultiaddr ma
      = Ok (mkParsed ("https://" +:+ text +:+ ":" +:+ pretty (port address))
                     (hash <$> Listener.certificates l) (peerId l))
    ∧ fst (authenticateWebTransport env (hash <$> Listener.certificates l)) = Ok true.
Proof.
  intros Hdec Hpeer Hin Hhs.
  destruct (getAddrs_elem l started server ma Hin)
    as (address & ip & text & _ & -> & Hip & Htext & ->).
  exists address, ip, text. split_and!; try done.
  - unfold Transport.parseMultiaddr, announced.
    rewrite reduce_app, reduce_toMa, reduce_app.
    rewrite (reduce_certhashes (Listener.certificates l)) by done.
    cbn [url Transport.certhashes remotePeer app].
    rewrite ParseFacts.string_app_assoc.
    destruct (peerId l) as [pid |] eqn:Hpid; [| done].
    cbn [Transport.reduce Transport.reducer].
    change (isHost p2p) with false. change (isMarker p2p) with false.
    change (bool_decide (p2p = udp)) with false.
    change (bool_decide (p2p = certhash)) with false.
    change (bool_decide (p2p = p2p)) with true.
    cbn [nullish]. by rewrite (Hpeer pid eq_refl).
  - pose proof (TransportFacts.authenticate_by_handshake env (hash <$> Listener.certificates l))
      as Ha.
    rewrite Hhs in Ha. rewrite Ha. cbn [nullish].
    assert (Utils.isSubset (webtransportCerthashes l)
                           (bytes <$> (hash <$> Listener.certificates l)) = true) as ->;
      [| done].
    apply UtilsFacts.isSubset_true. intros b Hb. unfold webtransportCerthashes.
    by rewrite <- list_fmap_compose in Hb.
Qed.

(** X22: [getAddrs] gives all addresses or none.  A listener that is
    started on a server with an address gives, in order, one address for each
    address the server is reached at (its host or, for the any-address, the
    addresses of that family on the interfaces): that host, the port of the
    server, the two markers, the hashes of the certificates and the peer id,
    provided [multiaddr] takes every one of the hosts; if it throws on one,
    no address is given at all.  A listener that is not started, or has no
    server, or whose server has no address, gives none. *)
Theorem getAddrs_all_or_none
    (l : WebTransportListener) (started : bool) (address : ServerAddress) :
  let ips := reachedAt networks address in
  let code := protoCode (protoOf address) in
  ((∀ ip, ip ∈ ips → is_Some (ipText code ip)) →
   Forall2 (λ ip ma, ∃ text, ipText code ip = Some text
                             ∧ ma = announced base64url l address text)
           ips (getAddrs l true (Some (Some address))))
  ∧ ((∃ ip, ip ∈ ips ∧ ipText code ip = None) →
     getAddrs l true (Some (Some address)) = [])
  ∧ getAddrs l false (Some (Some address)) = []
  ∧ getAddrs l started None = []
  ∧ getAddrs l started (Some None) = [].
Proof.
  cbn zeta. unfold ListenerAddrs.getAddrs, getMultiaddrs.
  fold (protoOf address). fold (reachedAt networks address).
  split_and!; try by destruct started.
  - intros Hall.
    destruct (mapResult_Ok (toMa base64url ipText (protoOf address) (port address)
                                 (Listener.certificates l))
                (reachedAt networks address)) as [mas Hmas].
    { intros ip Hip. unfold toMa. by destruct (Hall ip Hip) as [text ->]. }
    rewrite Hmas. apply Forall2_fmap_r.
    eapply Forall2_impl; [by apply mapResult_Forall2 |].
    intros ip ma Hto. cbn beta. by apply toMa_announced.
  - intros (ip & Hip & Hnone).
    pose proof (mapResult_Throw
                  (toMa base64url ipText (protoOf address) (port address)
                        (Listener.certificates l))
                  (reachedAt networks address) ip Hip) as Hthrow.
    unfold toMa at 1 in Hthrow. rewrite Hnone in Hthrow. specialize (Hthrow eq_refl).
    by destruct (mapResult _ (reachedAt networks address)).
Qed.

End WithLibraries.

Lemma advertised_addresses_parse_and_authenticate_witness :
  ∃ address ip text,
    Some (Some MoreSamples.serverAddress) = Some (Some address)
    ∧ ip ∈ Announced.reachedAt [] address
    ∧ MoreSamples.ipText (ListenerAddrs.protoCode (Announced.protoOf address)) ip = Some text
    ∧ Transport.parseMultiaddr Samples.decodeCerthashStr Samples.peerIdFromString
                               MoreSamples.advertised
      = Ok (Transport.mkParsed
              ("https://" +:+ text +:+ ":" +:+ pretty (ListenerAddrs.port address))
              (hash <$> certificates MoreSamples.listenerWithY)
              (peerId MoreSamples.listenerWithY))
    ∧ fst (Transport.authenticateWebTransport
             Samples.listenerReportsY (hash <$> certificates MoreSamples.listenerWithY))
      = Ok true.
Proof.
  apply (advertised_addresses_parse_and_authenticate
           [] MoreSamples.base64url MoreSamples.ipText
           Samples.decodeCerthashStr Samples.peerIdFromString
           MoreSamples.listenerWithY true (Some (Some MoreSamples.serverAddress))
           MoreSamples.advertised Samples.listenerReportsY).
  - intros cert Hcert. apply list_elem_of_singleton in Hcert. subst cert.
    vm_compute. reflexivity.
  - intros p Hp. injection Hp as <-. vm_compute. reflexivity.
  - apply (bool_decide_unpack _). vm_compute. exact I.
  - vm_compute. reflexivity.
Defined.

End ListenerFacts.

(** ** isSubset, once more *)

Module SubsetFacts.

(** X23: [isSubset] looks at which byte arrays occur, not at their order or at
    how often they occur. *)
Theorem isSubset_ignores_order_and_repetition (A A' B B' : list (list Z)) :
  (∀ b, b ∈ A ↔ b ∈ A') →
  (∀ b, b ∈ B ↔ b ∈ B') →
  Utils.isSubset A B = Utils.isSubset A' B'.
Proof.
  intros HA HB.
  destruct (Utils.isSubset A B) eqn:H1, (Utils.isSubset A' B') eqn:H2; try done.
  - pose proof (proj1 (UtilsFacts.isSubset_true A B) H1) as Hall.
    apply not_true_iff_false in H2. destruct H2.
    apply UtilsFacts.isSubset_true. intros b Hb. apply HA, Hall, HB, Hb.
  - pose proof (proj1 (UtilsFacts.isSubset_true A' B') H2) as Hall.
    apply not_true_iff_false in H1. destruct H1.
    apply UtilsFacts.isSubset_true. intros b Hb. apply HA, Hall, HB, Hb.
Qed.

Lemma isSubset_ignores_order_and_repetition_witness :
  Utils.isSubset [[1]; [2; 3]]%Z [[2; 3]]%Z
  = Utils.isSubset [[2; 3]; [1]; [1]]%Z [[2; 3]; [2; 3]]%Z.
Proof.
  apply isSubset_ignores_order_and_repetition.
  - intros b. rewrite !elem_of_cons, elem_of_nil. tauto.
  - intros b. rewrite !elem_of_cons, elem_of_nil. tauto.
Defined.

End SubsetFacts.
